(** * Phobos scene editing utilities (phobos/utils/editing.py)

    A shallow embedding of the editing operations of Phobos over an explicit
    scene: objects with a parent pointer, a phobostype tag, custom
    properties, a name-label flag and a world matrix; named groups; the
    selection; and the log.  Functions that mutate the scene live in a
    small state-and-exception monad; loops that Python writes with [while]
    take fuel. *)

From Stdlib Require Import ZArith String Ascii List Lia.
From stdpp Require Import base option list gmap strings.

Open Scope string_scope.
Open Scope list_scope.
Open Scope nat_scope.
Open Scope stdpp_scope.

(** ** Python string methods used by the module *)

Module PyStr.

(** [s.startswith(p)] *)
Fixpoint startswith (s p : string) {struct p} : bool :=
  match p with
  | EmptyString => true
  | String a p' =>
      match s with
      | EmptyString => false
      | String b s' => if Ascii.eqb a b then startswith s' p' else false
      end
  end.

(** [sub in s] *)
Fixpoint contains (s sub : string) {struct s} : bool :=
  startswith s sub ||
  match s with
  | EmptyString => false
  | String _ s' => contains s' sub
  end.

(** The scan of [s.replace(old, new)] for a non-empty [old]: occurrences are
    found left to right and do not overlap; [skip] counts the characters of
    the occurrence just replaced that are still to be dropped. *)
Fixpoint replace_from (old new : string) (skip : nat) (s : string) : string :=
  match s with
  | EmptyString => EmptyString
  | String c s' =>
      match skip with
      | S k => replace_from old new k s'
      | O =>
          if startswith s old
          then new +:+ replace_from old new (String.length old - 1) s'
          else String c (replace_from old new 0 s')
      end
  end.

Fixpoint between (new s : string) : string :=
  match s with
  | EmptyString => EmptyString
  | String c s' => String c (new +:+ between new s')
  end.

(** [s.replace(old, new)]: every occurrence is replaced. *)
Definition replace (s old new : string) : string :=
  match old with
  | EmptyString => new +:+ between new s
  | String _ _ => replace_from old new 0 s
  end.

(** [s.split(sep)] for a separator of one character. *)
Fixpoint split (s : string) (sep : ascii) : list string :=
  match s with
  | EmptyString => [EmptyString]
  | String c s' =>
      if Ascii.eqb c sep then EmptyString :: split s' sep
      else match split s' sep with
           | [] => [String c EmptyString]
           | f :: fs => String c f :: fs
           end
  end.

(** [s[-1]]; [None] stands for the IndexError on the empty string. *)
Fixpoint last_char (s : string) : option ascii :=
  match s with
  | EmptyString => None
  | String c EmptyString => Some c
  | String _ s' => last_char s'
  end.

(** [s[:-1]] *)
Fixpoint but_last (s : string) : string :=
  match s with
  | EmptyString => EmptyString
  | String _ EmptyString => EmptyString
  | String c s' => String c (but_last s')
  end.

End PyStr.

(** ** Data model *)

(** Objects are identified by their name, which the host keeps unique. *)
Abbreviation oid := string.

(** Custom property values. *)
Inductive value :=
  | VInt (z : Z)
  | VStr (s : string).

(** Custom properties: an ordered mapping, as the host keeps them. *)
Abbreviation propmap := (list (string * value)).

(** World matrices.  Their entries are floats; the arithmetic stays
    uninterpreted and only the shape of the computation is kept. *)
Inductive Matrix :=
  | MHost (n : nat)                 (* a matrix the host holds *)
  | MScaleApplied (m : Matrix)      (* after transform_apply(scale=True) *)
  | MTranslation (m : Matrix)       (* Matrix.Translation(m.decompose()[0]) *)
  | MRotation (m : Matrix)          (* m.decompose()[1].to_matrix().to_4x4() *)
  | MEuler180X180Z                  (* Euler((radians(180), 0, radians(180)), 'XYZ') as 4x4 *)
  | MMul (a b : Matrix).

Record Object := mkObject {
  phobostype : string;
  parent : option oid;
  props : propmap;
  show_name : bool;
  matrix_world : Matrix
}.

Record Group := mkGroup {
  group_props : propmap
}.

Inductive level := DEBUG | INFO | WARNING | ERROR.

Record Scene := mkScene {
  objects : gmap string Object;
  groups : gmap string Group;     (* bpy.data.groups *)
  selected : list oid;            (* objects with obj.select set *)
  active : option oid;            (* bpy.context.scene.objects.active *)
  logged : list (string * level)  (* what phoboslog.log received, oldest first *)
}.

#[global] Instance value_eq_dec : EqDecision value.
Proof. solve_decision. Defined.
#[global] Instance Matrix_eq_dec : EqDecision Matrix.
Proof. solve_decision. Defined.
#[global] Instance level_eq_dec : EqDecision level.
Proof. solve_decision. Defined.

(** Reading an attribute through an object reference. *)
Definition parent_of (s : Scene) (o : oid) : option oid :=
  objects s !! o ≫= parent.

Definition phobostype_of (s : Scene) (o : oid) : string :=
  from_option phobostype "undefined" (objects s !! o).

Definition props_of (s : Scene) (o : oid) : propmap :=
  from_option props [] (objects s !! o).

(** [obj.children]: the host computes it by scanning all objects. *)
Definition children (s : Scene) (o : oid) : list oid :=
  filter (λ c, parent_of s c = Some o) (elements (dom (objects s))).

(** The [k]-th ancestor of [o] ([o] itself for [k = 0]). *)
Fixpoint up (s : Scene) (k : nat) (o : oid) : option oid :=
  match k with
  | O => Some o
  | S k' => parent_of s o ≫= up s k'
  end.

(** The scene is a forest of height below [n]: every parent is an object
    of the scene and every parent chain ends in fewer than [n] steps. *)
Definition forest (s : Scene) (n : nat) : Prop :=
  map_Forall (λ o ob, up s n o = None
                      ∧ from_option (λ p, is_Some (objects s !! p)) True (parent ob))
             (objects s).

#[global] Instance forest_dec s n : Decision (forest s n).
Proof.
  unfold forest. apply map_Forall_dec. intros o ob.
  apply and_dec; [apply _|]. destruct (parent ob); simpl; apply _.
Defined.

(** ** Custom-property dictionaries *)

(** [key in obj] *)
Definition prop_in (k : string) (ps : propmap) : bool :=
  bool_decide (k ∈ ps.*1).

(** [obj[key]] *)
Fixpoint prop_get (k : string) (ps : propmap) : option value :=
  match ps with
  | [] => None
  | (k', v) :: ps' => if decide (k' = k) then Some v else prop_get k ps'
  end.

(** [obj[key] = v]: an existing key keeps its place, a new one goes last. *)
Fixpoint prop_set (k : string) (v : value) (ps : propmap) : propmap :=
  match ps with
  | [] => [(k, v)]
  | (k', v') :: ps' =>
      if decide (k' = k) then (k, v) :: ps' else (k', v') :: prop_set k v ps'
  end.

(** [del obj[key]] on a key that is present: the first entry goes. *)
Fixpoint prop_del (k : string) (ps : propmap) : propmap :=
  match ps with
  | [] => []
  | (k', v') :: ps' =>
      if decide (k' = k) then ps' else (k', v') :: prop_del k ps'
  end.

(** ** The state-and-exception monad *)

Inductive exn :=
  | AttributeError
  | IndexError
  | KeyError
  | UnboundLocalError
  | RuntimeError.

(** [UnboundLocalError] is a subclass of [NameError]. *)
Definition is_NameError (e : exn) : bool :=
  match e with UnboundLocalError => true | _ => false end.

Inductive outcome (A : Type) :=
  | Ret (a : A)
  | Raise (e : exn)
  | Timeout.
Arguments Ret {A} a.
Arguments Raise {A} e.
Arguments Timeout {A}.

Definition M (A : Type) : Type := Scene → outcome A * Scene.

Definition ret {A} (a : A) : M A := λ s, (Ret a, s).
Definition raise {A} (e : exn) : M A := λ s, (Raise e, s).
Definition timeout {A} : M A := λ s, (Timeout, s).
Definition bind {A B} (m : M A) (k : A → M B) : M B :=
  λ s, match m s with
       | (Ret a, s') => k a s'
       | (Raise e, s') => (Raise e, s')
       | (Timeout, s') => (Timeout, s')
       end.
Definition get : M Scene := λ s, (Ret s, s).
Definition modify (f : Scene → Scene) : M unit := λ s, (Ret tt, f s).

Notation "x <- m ;; k" := (bind m (λ x, k))
  (at level 100, m at next level, right associativity).
Notation "m ;; k" := (bind m (λ _, k))
  (at level 100, right associativity).

(** [for x in xs: body x] *)
Fixpoint for_each {A} (xs : list A) (body : A → M unit) : M unit :=
  match xs with
  | [] => ret tt
  | x :: xs' => body x ;; for_each xs' body
  end.

(** Field updates of the scene. *)
Definition with_objects (f : gmap string Object → gmap string Object) (s : Scene) : Scene :=
  mkScene (f (objects s)) (groups s) (selected s) (active s) (logged s).
Definition with_groups (f : gmap string Group → gmap string Group) (s : Scene) : Scene :=
  mkScene (objects s) (f (groups s)) (selected s) (active s) (logged s).
Definition with_selection (sel : list oid) (act : option oid) (s : Scene) : Scene :=
  mkScene (objects s) (groups s) sel act (logged s).
Definition with_logged (l : list (string * level)) (s : Scene) : Scene :=
  mkScene (objects s) (groups s) (selected s) (active s) l.

(** Field updates of an object. *)
Definition set_parent (p : option oid) (o : Object) : Object :=
  mkObject (phobostype o) p (props o) (show_name o) (matrix_world o).
Definition set_props (ps : propmap) (o : Object) : Object :=
  mkObject (phobostype o) (parent o) ps (show_name o) (matrix_world o).
Definition set_show_name (b : bool) (o : Object) : Object :=
  mkObject (phobostype o) (parent o) (props o) b (matrix_world o).
Definition set_matrix_world (m : Matrix) (o : Object) : Object :=
  mkObject (phobostype o) (parent o) (props o) (show_name o) m.

(** [phoboslog.log(message, level)] *)
Definition log (msg : string) (lvl : level) : M unit :=
  modify (λ s, with_logged (logged s ++ [(msg, lvl)]) s).

Definition lift {A} (r : outcome A) : M A := λ s, (r, s).

(** [obj[key] = v] *)
Definition set_item (o : oid) (k : string) (v : value) : M unit :=
  modify (with_objects (alter (λ ob, set_props (prop_set k v (props ob)) ob) o)).

(** [obj[key]]: a missing key raises KeyError. *)
Definition get_item (o : oid) (k : string) : M value :=
  s <- get ;;
  match prop_get k (props_of s o) with
  | Some v => ret v
  | None => raise KeyError
  end.

(** [del obj[key]]: a missing key raises KeyError. *)
Definition del_item (o : oid) (k : string) : M unit :=
  s <- get ;;
  if prop_in k (props_of s o)
  then modify (with_objects (alter (λ ob, set_props (prop_del k (props ob)) ob) o))
  else raise KeyError.

Definition matrix_world_of (s : Scene) (o : oid) : Matrix :=
  from_option matrix_world (MHost 0) (objects s !! o).

Definition show_name_of (s : Scene) (o : oid) : bool :=
  from_option show_name false (objects s !! o).

Definition assign_matrix_world (o : oid) (m : Matrix) : M unit :=
  modify (with_objects (alter (set_matrix_world m) o)).

Definition assign_show_name (o : oid) (b : bool) : M unit :=
  modify (with_objects (alter (set_show_name b) o)).

(** ** Host operators and sibling helpers

    The operators of [bpy.ops.object] act on the selection.  They belong to
    the host, not to this module; they are modelled by their effect on the
    parent pointers and matrices of the scene. *)

(** Modelled from the spec: [sUtils.selectObjects(objects, clear, active)]
    of phobos/utils/selection.py is missing from the sources; it is the
    "selection control" helper: it optionally deselects everything, selects
    [objects] and, for a non-negative [active], makes [objects[active]] the
    active object.  [None] stands for the default [active=-1]. *)
Definition selectObjects (objs : list oid) (clear : bool) (act : option nat) : M unit :=
  match act with
  | None =>
      modify (λ s, with_selection ((if clear then [] else selected s) ++ objs) (active s) s)
  | Some i =>
      match objs !! i with
      | Some a =>
          modify (λ s, with_selection ((if clear then [] else selected s) ++ objs) (Some a) s)
      | None => raise IndexError
      end
  end.

(** Modelled from the spec: [sUtils.getRoot(obj)] of
    phobos/utils/selection.py is missing from the sources; it yields "the
    current root", the object at which the parent chain of [obj] ends. *)
Fixpoint getRoot_from (fuel : nat) (s : Scene) (o : oid) : outcome oid :=
  match parent_of s o with
  | None => Ret o
  | Some p =>
      match fuel with
      | O => Timeout
      | S f => getRoot_from f s p
      end
  end.

Definition getRoot (fuel : nat) (o : oid) : M oid :=
  s <- get ;; lift (getRoot_from fuel s o).

Definition clear_parents (sel : list oid) (os : gmap string Object) : gmap string Object :=
  foldr (λ o acc, alter (set_parent None) o acc) os sel.

Definition set_parents (a : oid) (sel : list oid) (os : gmap string Object) : gmap string Object :=
  foldr (λ o acc, if decide (o = a) then acc else alter (set_parent (Some a)) o acc) os sel.

(** [bpy.ops.object.parent_clear(type='CLEAR_KEEP_TRANSFORM')]: every
    selected object loses its parent and keeps its world matrix. *)
Definition parent_clear : M unit :=
  modify (λ s, with_objects (clear_parents (selected s)) s).

(** [bpy.ops.object.parent_set(type=...)]: the active object becomes the
    parent of every other selected object; world matrices are kept.  The
    host refuses a parenting that would close a loop; the scenes of the
    theorems below are forests in which the calls made here close none. *)
Definition parent_set : M unit :=
  s <- get ;;
  match active s with
  | None => raise RuntimeError
  | Some a => modify (with_objects (set_parents a (selected s)))
  end.

(** [bpy.ops.object.make_single_user(object=True, obdata=True)] touches
    nothing the scene of this model holds. *)
Definition make_single_user : M unit := ret tt.

Definition apply_scale (sel : list oid) (os : gmap string Object) : gmap string Object :=
  foldr (λ o acc, alter (λ ob, set_matrix_world (MScaleApplied (matrix_world ob)) ob) o acc)
        os sel.

(** [bpy.ops.object.transform_apply(location=False, rotation=False, scale=True)] *)
Definition transform_apply_scale : M unit :=
  modify (λ s, with_objects (apply_scale (selected s)) s).

(** [str([o.name for o in objs])], for names without quotes or escapes. *)
Fixpoint join_names (objs : list oid) : string :=
  match objs with
  | [] => ""
  | [o] => "'" +:+ o +:+ "'"
  | o :: objs' => "'" +:+ o +:+ "', " +:+ join_names objs'
  end.
Definition str_names (objs : list oid) : string := "[" +:+ join_names objs +:+ "]".

(** ** restructureKinematicTree *)

(** The loop [while obj.parent.name != root.name] that gathers the chain of
    links ascending the tree.  Names are unique, so comparing names is
    comparing objects. *)
Fixpoint gather (fuel : nat) (s : Scene) (root obj : oid) (links : list oid)
  : outcome (list oid) :=
  match parent_of s obj with
  | None => Raise AttributeError
  | Some p =>
      if decide (p ≠ root) then
        match fuel with
        | O => Timeout
        | S f =>
            gather f s root p
              (if decide (phobostype_of s p = "link") then links ++ [p] else links)
        end
      else Ret links
  end.

(** [if key in root: link[key] = root[key]; del root[key]] *)
Definition move_prop (key : string) (root link : oid) : M unit :=
  s <- get ;;
  if prop_in key (props_of s root) then
    v <- get_item root key ;;
    set_item link key v ;;
    del_item root key
  else ret tt.

(** [for i in range(len(links) - 1)]: [links[i]] becomes the parent of
    [links[i + 1]]. *)
Definition reparent_step (links : list oid) (i : nat) : M unit :=
  match links !! i, links !! (i + 1) with
  | Some parent, Some child =>
      selectObjects [parent; child] true (Some 0) ;;
      parent_set
  | _, _ => raise IndexError
  end.

Definition restructureKinematicTree (fuel : nat) (link : oid) (root : option oid) : M unit :=
  root <- match root with
          | Some r => ret r
          | None => getRoot fuel link
          end ;;
  s <- get ;;
  (* stop right now when the link is already root *)
  match parent_of s link with
  | None => log "No restructure necessary. Link is already root." INFO
  | Some _ =>
      (* gather chain of links ascending the tree *)
      links <- lift (gather fuel s root link [link]) ;;
      let links := links ++ [root] in
      log ("Unparenting objects for restructure: " +:+ str_names links +:+ ".") DEBUG ;;
      (* unparent all links *)
      selectObjects links true None ;;
      parent_clear ;;
      log "Restructuring objects for new hierarchy." DEBUG ;;
      for_each (seq 0 (length links - 1)) (reparent_step links) ;;
      log "Copying model information from old root." DEBUG ;;
      (* copy properties *)
      move_prop "modelname" root link ;;
      move_prop "version" root link ;;
      log ("Restructured kinematic tree to new root: " +:+ link +:+ ".") INFO
  end.

(** ** getNearestCommonParent *)

(** [while o.parent and o.parent != parent: o = o.parent; inter_objects.add(o)] *)
Fixpoint climb (fuel : nat) (s : Scene) (cand o : oid) (inter : gset string)
  : option (oid * gset string) :=
  match parent_of s o with
  | Some p =>
      if decide (p ≠ cand) then
        match fuel with
        | O => None
        | S f => climb f s cand p ({[p]} ∪ inter)
        end
      else Some (o, inter)
  | None => Some (o, inter)
  end.

(** [for obj in rest: ...; if o.parent != parent: in_all = False; break];
    the result is the value of [in_all] after the loop. *)
Fixpoint check_rest (fuel : nat) (s : Scene) (cand : oid) (rest : list oid)
    (inter : gset string) : option (bool * gset string) :=
  match rest with
  | [] => Some (true, inter)
  | obj :: rest' =>
      match climb fuel s cand obj inter with
      | None => None
      | Some (o, inter') =>
          if decide (parent_of s o ≠ Some cand) then Some (false, inter')
          else check_rest fuel s cand rest' inter'
      end
  end.

(** [while not in_all and parent.parent: ...]; [fuel] bounds this loop,
    [budget] each run of the loops inside it. *)
Fixpoint ascend (budget fuel : nat) (s : Scene) (rest : list oid) (in_all : bool)
    (parent : oid) (inter : gset string) : option (bool * oid * gset string) :=
  match (if in_all then None else parent_of s parent) with
  | None => Some (in_all, parent, inter)
  | Some p =>
      match fuel with
      | O => None
      | S f =>
          match check_rest budget s p rest ({[p]} ∪ inter) with
          | None => None
          | Some (in_all', inter') => ascend budget f s rest in_all' p inter'
          end
      end
  end.

(** The result is [None] or the pair of the common parent and the set of
    visited objects; [list(inter_objects)] has no specified order, so the
    set itself is returned. *)
Definition getNearestCommonParent (fuel : nat) (s : Scene) (objs : list oid)
  : outcome (option (oid * gset string)) :=
  match objs with
  | [] => Raise IndexError
  | anchor :: rest =>
      match ascend fuel fuel s rest false anchor ∅ with
      | None => Timeout
      | Some (in_all, parent, inter) =>
          if negb in_all then Ret None
          else if decide (parent ∈ inter)
               then Ret (Some (parent, inter ∖ {[parent]}))
               else Raise KeyError
      end
  end.

(** ** instantiateSubmodel *)

(** The loop over [bpy.data.groups]; groups are referred to by name.
    [submodelname.split(':')[1]] is only evaluated for groups whose name
    starts with 'interfaces:'. *)
Fixpoint scan_groups (submodelname : string) (gs : list (string * Group))
    (submodel interfaces : option string) : outcome (option string * option string) :=
  match gs with
  | [] => Ret (submodel, interfaces)
  | (name, _) :: gs' =>
      let submodel :=
        if PyStr.contains name ":" && bool_decide (submodelname = name)
        then Some name else submodel in
      if PyStr.startswith name "interfaces:" then
        match PyStr.split submodelname ":" !! 1 with
        | None => Raise IndexError
        | Some part =>
            scan_groups submodelname gs' submodel
              (if PyStr.contains name part then Some name else interfaces)
        end
      else scan_groups submodelname gs' submodel interfaces
  end.

Section Instantiate.

(** The body from [bpy.ops.object.group_instance_add(group=submodel.name)]
    on, once [submodel] is bound: instancing, duplication and renaming by
    host operators.  Its arguments are the submodel group, the interface
    group if any, [submodelname] and [instancename]. *)
Variable add_instance : string → option string → string → string → M oid.

Definition instantiateSubmodel (submodelname instancename : string) : M oid :=
  s <- get ;;
  found <- lift (scan_groups submodelname (map_to_list (groups s)) None None) ;;
  let submodel := found.1 in
  let interfaces := found.2 in
  (if submodel is None then log "Selected submodel is not defined." ERROR else ret tt) ;;
  (if interfaces is None then log "No interfaces defined for this submodel." INFO else ret tt) ;;
  match submodel with
  | None => raise AttributeError
  | Some g => add_instance g interfaces submodelname instancename
  end.

End Instantiate.

(** ** removeSubmodel *)

Definition group_name (prefix submodelname version : string) : string :=
  let name := prefix +:+ ":" +:+ submodelname in
  if decide (version ≠ "") then name +:+ "/" +:+ version else name.

(** [bpy.data.groups.remove(bpy.data.groups[name])] *)
Definition groups_remove (name : string) : M unit :=
  modify (with_groups (delete name)).

Definition removeSubmodel (submodelname submodeltype version : string)
    (interfaces : bool) : M bool :=
  (* build the group name to look for *)
  let submodelgroupname := group_name submodeltype submodelname version in
  let remove_interfaces : M bool :=
    if interfaces then
      let interfacegroupname := group_name "interfaces" submodelname version in
      s <- get ;;
      if decide (is_Some (groups s !! interfacegroupname)) then
        groups_remove interfacegroupname ;;
        ret true
      else ret false
    else ret false in
  s <- get ;;
  (* remove the submodelgroup *)
  if decide (is_Some (groups s !! submodelgroupname)) then
    groups_remove submodelgroupname ;;
    if negb interfaces then ret true else remove_interfaces
  else remove_interfaces.

(** ** connectInterfaces and disconnectInterfaces *)

Definition connectInterfaces (fuel : nat) (parentinterface childinterface : oid)
    (transform : option Matrix) : M unit :=
  (* first check if the interface is child of the root object and if not,
     restructure the tree *)
  root <- getRoot fuel childinterface ;;
  s <- get ;;
  let parent := parent_of s childinterface in
  (if decide (Some root ≠ parent) then
     match parent with
     | Some p => restructureKinematicTree fuel p None
     | None => raise AttributeError   (* restructureKinematicTree(None) reads None.parent *)
     end
   else ret tt) ;;
  s <- get ;;
  let childsubmodel := parent_of s childinterface in
  (* connect the interfaces *)
  selectObjects [parentinterface] true (Some 0) ;;
  make_single_user ;;
  transform_apply_scale ;;
  selectObjects [childinterface] true (Some 0) ;;
  make_single_user ;;
  transform_apply_scale ;;
  parent_clear ;;
  match childsubmodel with
  | None => raise AttributeError      (* selectObjects sets .select on None *)
  | Some childsubmodel =>
      selectObjects [childinterface; childsubmodel] true (Some 0) ;;
      parent_set ;;
      selectObjects [parentinterface; childinterface] true (Some 0) ;;
      parent_set ;;
      s <- get ;;
      let pm := matrix_world_of s parentinterface in
      (* apply additional transform (ignoring the scale of the parent interface) *)
      let transform := match transform with
                       | None => MEuler180X180Z
                       | Some t => t
                       end in
      assign_matrix_world childinterface
        (MMul (MMul (MTranslation pm) (MRotation pm)) transform) ;;
      assign_show_name parentinterface false ;;
      assign_show_name childinterface false
  end.

(** The choice of the new root among the children of the child interface:
    the [for ... else] prefers a submodel instance and falls back on the
    first child.  Without children the variable [root] stays unbound. *)
Definition pick_root (s : Scene) (cs : list oid) : option oid :=
  match cs with
  | [] => None
  | first :: _ =>
      match List.find (λ child, bool_decide (phobostype_of s child = "submodel")) cs with
      | Some child => Some child
      | None => Some first
      end
  end.

Definition disconnectInterfaces (parentinterface childinterface : oid)
    (transform : option Matrix) : M unit :=
  (* unparent the child *)
  selectObjects [childinterface] true (Some 0) ;;
  parent_clear ;;
  (* select the former parent of the interface as new root *)
  s <- get ;;
  match pick_root s (children s childinterface) with
  | None => raise UnboundLocalError
  | Some root =>
      (* restructure the kinematic tree to make the interface child of the
         submodel again *)
      selectObjects [root] true (Some 0) ;;
      parent_clear ;;
      selectObjects [root; childinterface] true (Some 0) ;;
      parent_set ;;
      (* apply additional transform *)
      (match transform with
       | Some t =>
           s <- get ;;
           assign_matrix_world childinterface (MMul (matrix_world_of s root) t)
       | None => ret tt
       end) ;;
      (* make the interfaces active again *)
      assign_show_name parentinterface true ;;
      assign_show_name childinterface true
  end.

(** ** getPropertiesSubset *)

(** [if not category: category = obj.phobostype]: [None] and the empty
    string are both replaced. *)
Definition effective_category (s : Scene) (obj : oid) (category : option string) : string :=
  match category with
  | Some (String c cs) => String c cs
  | _ => phobostype_of s obj
  end.

(** The dict comprehension: entries are inserted in the order of
    [obj.items()], a repeated key keeps the later value. *)
Definition getPropertiesSubset (s : Scene) (obj : oid) (category : option string) : propmap :=
  let category := effective_category s obj category in
  foldl (λ dict kv, prop_set (PyStr.replace kv.1 (category +:+ "/") "") kv.2 dict) []
        (filter (λ kv, PyStr.startswith kv.1 (category +:+ "/") = true) (props_of s obj)).

(** ** removeProperties *)

(** The body of [for prop in props] for one [prop].  [obj.keys()] is a list
    made before the loop over it starts. *)
Definition remove_prop (obj : oid) (prop : string) : M unit :=
  s <- get ;;
  if prop_in prop (props_of s obj) then del_item obj prop
  else
    match PyStr.last_char prop with
    | None => raise IndexError
    | Some c =>
        if Ascii.eqb c "*" then
          for_each (props_of s obj).*1
            (λ objprop,
               if PyStr.startswith objprop (PyStr.but_last prop)
               then del_item obj objprop else ret tt)
        else ret tt
    end.

(** [depth] bounds the nesting of the recursive calls. *)
Fixpoint removeProperties (depth : nat) (obj : oid) (props : list string)
    (recursive : bool) : M unit :=
  for_each props (remove_prop obj) ;;
  if recursive then
    s <- get ;;
    for_each (children s obj)
      (λ child,
         match depth with
         | O => timeout
         | S d => removeProperties d child props recursive
         end)
  else ret tt.

(** ** addAnnotation *)

(** [str(namespace + '/' if namespace else '') + key]: [None] and the empty
    string give no prefix. *)
Definition annotation_prefix (namespace : option string) : string :=
  match namespace with
  | Some (String c cs) => String c cs +:+ "/"
  | _ => ""
  end.

(** [annotation.items()] is the list of the entries of the dict. *)
Definition addAnnotation (obj : oid) (annotation : propmap) (namespace : option string)
  : M unit :=
  for_each annotation
    (λ kv, set_item obj (annotation_prefix namespace +:+ kv.1) kv.2).

(** ** toggleInterfaces *)

(** [modedict = {'toggle': 0, 'activate': 1, 'deactivate': 2}] *)
Definition modedict (modename : string) : option nat :=
  if decide (modename = "toggle") then Some 0
  else if decide (modename = "activate") then Some 1
  else if decide (modename = "deactivate") then Some 2
  else None.

(** The body of [for i in interfaces]. *)
Definition toggle_one (mode : nat) (i : oid) : M unit :=
  s <- get ;;
  if decide (mode = 0) then assign_show_name i (negb (show_name_of s i))
  else if decide (mode = 1) then assign_show_name i true
  else if decide (mode = 2) then assign_show_name i false
  else ret tt.

(** [None] stands for the default [interfaces=None]; an empty list is
    replaced by the selected interfaces just the same. *)
Definition toggleInterfaces (interfaces : option (list oid)) (modename : string) : M unit :=
  match modedict modename with
  | None => raise KeyError
  | Some mode =>
      s <- get ;;
      let interfaces :=
        match interfaces with
        | Some (i :: l) => i :: l
        | _ => filter (λ i, phobostype_of s i = "interface") (selected s)
        end in
      for_each interfaces (toggle_one mode)
  end.

(** ** getCombinedTransform *)

Section CombinedTransform.

(** [obj.matrix_local]: the scene record holds world matrices only; the
    local matrices, which the function reads and never writes, are given
    apart. *)
Variable matrix_local : oid → Matrix.

(** [while parent != effectiveparent and parent is not None] *)
Fixpoint combine (fuel : nat) (s : Scene) (effectiveparent parent : option oid)
    (matrix : Matrix) : outcome Matrix :=
  match parent with
  | None => Ret matrix
  | Some p =>
      if decide (parent ≠ effectiveparent) then
        match fuel with
        | O => Timeout
        | S f => combine f s effectiveparent (parent_of s p) (MMul (matrix_local p) matrix)
        end
      else Ret matrix
  end.

Definition getCombinedTransform (fuel : nat) (s : Scene) (obj : oid)
    (effectiveparent : option oid) : outcome Matrix :=
  combine fuel s effectiveparent (parent_of s obj) (matrix_local obj).

End CombinedTransform.

(** ** Vocabulary of the statements *)

(** The entry [kv] has a key that does not start with [pre]. *)
Definition keeps (pre : string) (kv : string * value) : Prop :=
  PyStr.startswith kv.1 pre = false.
#[global] Instance keeps_dec pre kv : Decision (keeps pre kv).
Proof. unfold keeps. apply _. Defined.

(** What one pass of removeProperties with the pattern sensor* leaves of a
    property dictionary. *)
Definition sensor_removed (ps : propmap) : propmap :=
  if prop_in "sensor*" ps then prop_del "sensor*" ps
  else filter (keeps "sensor") ps.

(** The scene with the property dictionary of [o] replaced by [ps]. *)
Definition assign_props (o : oid) (ps : propmap) (s : Scene) : Scene :=
  with_objects (alter (set_props ps) o) s.

(** The scene after one pass of the pattern sensor* over [o]. *)
Definition touch (s : Scene) (o : oid) : Scene :=
  assign_props o (sensor_removed (props_of s o)) s.

(** The objects the recursion visits, in the order of the visits. *)
Fixpoint subtree (depth : nat) (s : Scene) (o : oid) : list oid :=
  o :: match depth with
       | O => []
       | S d => mjoin (subtree d s <$> children s o)
       end.

(** [o] is [a] or, when [recursive] is set, a descendant of [a]. *)
Definition reaches (s : Scene) (recursive : bool) (a o : oid) : Prop :=
  o = a ∨ (recursive = true ∧ ∃ k, up s k o = Some a).

(** Same objects and same parents. *)
Definition same_tree (s s' : Scene) : Prop :=
  dom (objects s) = dom (objects s') ∧ ∀ o, parent_of s o = parent_of s' o.

(** [p] is a proper ancestor of [o]: its parent, or the parent of that, ... *)
Definition ancestor (s : Scene) (p o : oid) : Prop :=
  ∃ k, 0 < k ∧ up s k o = Some p.

(** [q] is a proper ancestor of every object of [objs]. *)
Definition common (s : Scene) (objs : list oid) (q : oid) : Prop :=
  ∀ o, o ∈ objs → ancestor s q o.

(** [l] continues the parent chain of [o]: each element is the parent of
    the one before it. *)
Fixpoint chain_from (s : Scene) (o : oid) (l : list oid) : Prop :=
  match l with
  | [] => True
  | b :: l' => parent_of s o = Some b ∧ chain_from s b l'
  end.

(** [obj.phobostype == 'link'] *)
Definition is_link (s : Scene) (o : oid) : Prop := phobostype_of s o = "link".
#[global] Instance is_link_dec s o : Decision (is_link s o).
Proof. unfold is_link. apply _. Defined.

(** The list [links] of restructureKinematicTree for the chain
    [x :: mid ++ [r]]. *)
Definition links_of (s : Scene) (x : oid) (mid : list oid) (r : oid) : list oid :=
  x :: filter (is_link s) mid ++ [r].

(** One round of the reparenting loop: select the pair with the first
    object active, then [parent_set]. *)
Definition link_pair (s : Scene) (pc : oid * oid) : Scene :=
  with_objects (set_parents pc.1 [pc.1; pc.2]) (with_selection [pc.1; pc.2] (Some pc.1) s).

(** The pairs [(l[i], l[i + 1])]. *)
Definition pairs (l : list oid) : list (oid * oid) := zip l (tail l).

(** The scene [move_prop] leaves: the entry [key] of [root], if any, has
    gone over to [link]. *)
Definition moved (key : string) (root link : oid) (s : Scene) : Scene :=
  match prop_get key (props_of s root) with
  | Some v =>
      with_objects (alter (λ ob, set_props (prop_del key (props ob)) ob) root)
        (with_objects (alter (λ ob, set_props (prop_set key v (props ob)) ob) link) s)
  | None => s
  end.

(** The scene restructureKinematicTree leaves for the list [ls] of links. *)
Definition restructured (s : Scene) (link root : oid) (ls : list oid) : Scene :=
  let s1 := with_logged (logged s ++
              [("Unparenting objects for restructure: " +:+ str_names ls +:+ ".", DEBUG)]) s in
  let s2 := with_objects (clear_parents ls) (with_selection ls (active s1) s1) in
  let s3 := with_logged (logged s2 ++ [("Restructuring objects for new hierarchy.", DEBUG)]) s2 in
  let s4 := foldl link_pair s3 (pairs ls) in
  let s5 := with_logged (logged s4 ++ [("Copying model information from old root.", DEBUG)]) s4 in
  let s6 := moved "version" root link (moved "modelname" root link s5) in
  with_logged (logged s6 ++
    [("Restructured kinematic tree to new root: " +:+ link +:+ ".", INFO)]) s6.

(** Same objects, same parents, same tags. *)
Definition same_shape (s s' : Scene) : Prop :=
  dom (objects s') = dom (objects s)
  ∧ ∀ o, parent_of s' o = parent_of s o ∧ phobostype_of s' o = phobostype_of s o.

(** A parent-child edge between two nodes tagged link. *)
Definition link_edge (s : Scene) (p c : oid) : Prop :=
  parent_of s c = Some p ∧ is_link s p ∧ is_link s c.

(** [s[n:]] *)
Fixpoint drop_chars (n : nat) (s : string) : string :=
  match n, s with
  | S n', String _ s' => drop_chars n' s'
  | _, _ => s
  end.

(** The subset as the specification words it: the entries whose key starts
    with [category/], with that prefix, and only it, cut off. *)
Definition prefix_stripped_subset (s : Scene) (o : oid) (category : string) : propmap :=
  (λ kv, (drop_chars (String.length (category +:+ "/")) kv.1, kv.2)) <$>
  filter (λ kv, PyStr.startswith kv.1 (category +:+ "/") = true) (props_of s o).

(** The scene with [o] cut loose from its parent. *)
Definition unparented (s : Scene) (o : oid) : Scene :=
  with_objects (alter (set_parent None) o) s.

(** The list [toggleInterfaces] walks: the given one, or the selected
    interfaces when none or an empty one is given. *)
Definition effective_interfaces (s : Scene) (interfaces : option (list oid)) : list oid :=
  match interfaces with
  | Some (i :: l) => i :: l
  | _ => filter (λ i, phobostype_of s i = "interface") (selected s)
  end.

(** [i.show_name = not i.show_name] *)
Definition flip_name (ob : Object) : Object := set_show_name (negb (show_name ob)) ob.

(** A group the loop of instantiateSubmodel takes for the interfaces. *)
Definition interface_match (submodelname n : string) : Prop :=
  PyStr.startswith n "interfaces:" = true
  ∧ ∃ part, PyStr.split submodelname ":" !! 1 = Some part ∧ PyStr.contains n part = true.

(** The dictionary after addAnnotation wrote [annotation] under [pre]. *)
Definition annotated (pre : string) (ps annotation : propmap) : propmap :=
  foldl (λ ps kv, prop_set (pre +:+ kv.1) kv.2 ps) ps annotation.

(** [p] is [o] or an ancestor of [o]. *)
Definition ancestor_or_self (s : Scene) (p o : oid) : Prop :=
  ∃ k, up s k o = Some p.

(** The lowest common ancestor in the usual sense, where an object counts
    among its own ancestors. *)
Definition lowest_common (s : Scene) (objs : list oid) (p : oid) : Prop :=
  (∀ o, o ∈ objs → ancestor_or_self s p o)
  ∧ ∀ q, (∀ o, o ∈ objs → ancestor_or_self s q o) → ancestor_or_self s q p.

(** The objects getNearestCommonParent reports beside the common parent
    [p]: those strictly between a given object and [p] and, unless the
    anchor is a child of [p], also everything above [p]. *)
Definition visited (s : Scene) (anchor : oid) (rest : list oid) (p x : oid) : Prop :=
  (∃ o, o ∈ anchor :: rest ∧ ancestor s x o ∧ ancestor s p x)
  ∨ (parent_of s anchor ≠ Some p ∧ ancestor s x p).

(** ** Scenes used in the examples *)

(** An object with its tag, parent and properties. *)
Definition obj (tag : string) (par : option oid) (ps : propmap) : Object :=
  mkObject tag par ps true (MHost 0).

(** A scene from its objects and groups, nothing selected or logged. *)
Definition scene_of (os : list (oid * Object)) (gs : list (string * Group)) : Scene :=
  mkScene (list_to_map os) (list_to_map gs) [] None [].

(** The tree A -> {B, C}. *)
Definition tree_ABC : Scene :=
  scene_of [("A", obj "link" None []);
            ("B", obj "link" (Some "A") []);
            ("C", obj "link" (Some "A") [])] [].

(** Two trees: A -> B and C -> D. *)
Definition two_trees : Scene :=
  scene_of [("A", obj "link" None []);
            ("B", obj "link" (Some "A") []);
            ("C", obj "link" None []);
            ("D", obj "link" (Some "C") [])] [].

(** The tree of the docstring of restructureKinematicTree:
    A -> {B, C}, B -> {D, E}, C -> F. *)
Definition tree_doc : Scene :=
  scene_of [("A", obj "link" None [("modelname", VStr "robot")]);
            ("B", obj "link" (Some "A") []);
            ("C", obj "link" (Some "A") []);
            ("D", obj "link" (Some "B") []);
            ("E", obj "link" (Some "B") []);
            ("F", obj "link" (Some "C") [])] [].

(** A chain R -> J -> X whose middle node is not a link. *)
Definition chain_RJX : Scene :=
  scene_of [("R", obj "link" None []);
            ("J", obj "interface" (Some "R") []);
            ("X", obj "link" (Some "J") [])] [].

(** A chain R -> A -> X of links. *)
Definition chain_RAX : Scene :=
  scene_of [("R", obj "link" None []);
            ("A", obj "link" (Some "R") []);
            ("X", obj "link" (Some "A") [])] [].

(** An object that carries a property named like the pattern itself. *)
Definition starred : Scene :=
  scene_of [("cam", obj "sensor" None
               [("sensor*", VInt 1); ("sensor/type", VStr "camera"); ("name", VStr "cam")])] [].

(** A link with sensor properties on itself, its child and its grandchild. *)
Definition sensors : Scene :=
  scene_of [("head", obj "link" None
               [("sensor/rate", VInt 30); ("mass", VInt 2)]);
            ("eye", obj "sensor" (Some "head")
               [("sensortype", VStr "camera"); ("sensor/fov", VInt 90)]);
            ("lens", obj "visual" (Some "eye") [("sensor", VInt 1); ("geometry", VStr "mesh")]);
            ("foot", obj "link" None [("sensor/contact", VInt 1)])] [].

(** Two interfaces without parents. *)
Definition loose : Scene :=
  scene_of [("socket", obj "interface" None []);
            ("plug", obj "interface" None [])] [].

(** Two submodels, each with one interface. *)
Definition docking : Scene :=
  scene_of [("base", obj "submodel" None [("modelname", VStr "base")]);
            ("socket", obj "interface" (Some "base") []);
            ("arm", obj "submodel" None [("modelname", VStr "arm")]);
            ("wrist", obj "link" (Some "arm") []);
            ("plug", obj "interface" (Some "wrist") [])] [].

(** A project that defines one submodel group and no interface group. *)
Definition one_group : Scene :=
  scene_of [] [("mechanics:arm", mkGroup [])].

(** A project without groups. *)
Definition no_groups : Scene := scene_of [] [].

(** An object with a key in which visual/ occurs twice. *)
Definition visual_twice : Scene :=
  scene_of [("box", obj "visual" None
               [("visual/visual/a", VInt 1); ("geometry/type", VStr "box")])] [].

(** A plug connected to a socket, with nothing below the plug. *)
Definition plugged : Scene :=
  scene_of [("socket", obj "interface" None []);
            ("plug", obj "interface" (Some "socket") [])] [].

(** A submodel plugged into a base: the plug carries a cable and the
    submodel instance. *)
Definition docked : Scene :=
  scene_of [("base", obj "submodel" None []);
            ("socket", obj "interface" (Some "base") []);
            ("plug", obj "interface" (Some "socket") []);
            ("cable", obj "link" (Some "plug") []);
            ("arm", obj "submodel" (Some "plug") [])] [].

(** A submodel group and an interface group of another submodel. *)
Definition arm_groups : Scene :=
  scene_of [] [("mechanics:arm", mkGroup []); ("interfaces:arm2", mkGroup [])].

(** A visual with properties of two categories. *)
Definition boxed : Scene :=
  scene_of [("box", obj "visual" None
               [("visual/material", VStr "steel"); ("geometry/type", VStr "box");
                ("visual/lod", VInt 2)])] [].

(** A visual without annotations. *)
Definition bare_box : Scene :=
  scene_of [("box", obj "visual" None [("geometry/type", VStr "box")])] [].

(** A tree with a top above the branching: R -> A -> {B, C}, B -> {D, E}, C -> F. *)
Definition tree_top : Scene :=
  scene_of [("R", obj "link" None []);
            ("A", obj "link" (Some "R") []);
            ("B", obj "link" (Some "A") []);
            ("C", obj "link" (Some "A") []);
            ("D", obj "link" (Some "B") []);
            ("E", obj "link" (Some "B") []);
            ("F", obj "link" (Some "C") [])] [].

(** * Theorems *)

(** Unfolds the monad so that a run can be computed. *)
Ltac run := unfold bind, get, ret, raise, modify, lift, log, groups_remove; simpl.

(** ** Python strings *)

Lemma startswith_app (p t : string) : PyStr.startswith (p +:+ t) p = true.
Proof.
  induction p as [|a p IH]; simpl; [done|].
  by rewrite Ascii.eqb_refl.
Qed.

Lemma startswith_inv (s p : string) :
  PyStr.startswith s p = true → ∃ t, s = p +:+ t.
Proof.
  revert s; induction p as [|a p IH]; intros s H; simpl in *.
  - by exists s.
  - destruct s as [|b s]; [done|].
    destruct (Ascii.eqb a b) eqn:E; [|done].
    apply Ascii.eqb_eq in E; subst b.
    destruct (IH _ H) as [t ->]. by exists t.
Qed.

(** ** The monad *)

Lemma bind_run {A B} (m : M A) (k : A → M B) (s s' : Scene) (a : A) :
  m s = (Ret a, s') → bind m k s = k a s'.
Proof. intros H. unfold bind. by rewrite H. Qed.

(** ** Parent chains *)

Lemma up_add (s : Scene) (j k : nat) (o : oid) : up s (j + k) o = up s j o ≫= up s k.
Proof.
  revert o; induction j as [|j IH]; intros o; simpl; [done|].
  destruct (parent_of s o); simpl; [apply IH|done].
Qed.

Lemma up_S_r (s : Scene) (k : nat) (o : oid) : up s (S k) o = up s k o ≫= parent_of s.
Proof.
  replace (S k) with (k + 1) by lia. rewrite up_add.
  destruct (up s k o); simpl; [|done]. by destruct (parent_of s _).
Qed.

Lemma forest_up (s : Scene) (n k : nat) (o : oid) : forest s n → n ≤ k → 0 < k → up s k o = None.
Proof.
  intros Hf Hn Hk.
  destruct (objects s !! o) as [ob|] eqn:Ho.
  - replace k with (n + (k - n)) by lia. rewrite up_add.
    by rewrite (proj1 (Hf o ob Ho)).
  - destruct k; [lia|]. simpl. unfold parent_of. by rewrite Ho.
Qed.

Lemma up_cycle (s : Scene) (j : nat) (o : oid) (m : nat) : up s j o = Some o → up s (m * j) o = Some o.
Proof.
  intros Hj. induction m as [|m IH]; simpl; [done|].
  rewrite up_add, Hj. simpl. done.
Qed.

Lemma forest_no_cycle (s : Scene) (n j : nat) (o : oid) : forest s n → up s j o = Some o → j = 0.
Proof.
  intros Hf Hj. destruct j as [|j]; [done|]. exfalso.
  pose proof (up_cycle s (S j) o (S n) Hj) as Hc.
  rewrite (forest_up s n) in Hc; [done|done| |]; nia.
Qed.

Lemma forest_up_unique (s : Scene) (n j k : nat) (o a : oid) :
  forest s n → up s j o = Some a → up s k o = Some a → j = k.
Proof.
  intros Hf. revert k.
  assert (∀ j k, j ≤ k → up s j o = Some a → up s k o = Some a → j = k) as H.
  { intros j' k' Hle Hj Hk. replace k' with (j' + (k' - j')) in Hk by lia.
    rewrite up_add, Hj in Hk. simpl in Hk.
    apply (forest_no_cycle s n) in Hk; [lia|done]. }
  intros k Hj Hk. destruct (decide (j ≤ k)); [by apply H|].
  symmetry. apply H; [lia|done..].
Qed.

Lemma forest_closed (s : Scene) (n : nat) (o p : oid) :
  forest s n → parent_of s o = Some p → is_Some (objects s !! p).
Proof.
  intros Hf Hp. unfold parent_of in Hp.
  destruct (objects s !! o) as [ob|] eqn:Ho; [|done]. simpl in Hp.
  destruct (Hf o ob Ho) as [_ Hc]. by rewrite Hp in Hc.
Qed.

Lemma parent_of_dom (s : Scene) (o p : oid) :
  parent_of s o = Some p → is_Some (objects s !! o).
Proof. unfold parent_of. destruct (objects s !! o); [eauto|done]. Qed.

Lemma children_parent (s : Scene) (o c : oid) :
  c ∈ children s o ↔ parent_of s c = Some o.
Proof.
  unfold children. rewrite list_elem_of_filter, elem_of_elements, elem_of_dom.
  split; [by intros [? _]|]. intros H. split; [done|].
  unfold parent_of in H. by destruct (objects s !! c).
Qed.

Lemma NoDup_children (s : Scene) (a : oid) : NoDup (children s a).
Proof. unfold children. apply NoDup_filter, NoDup_elements. Qed.

(** ** Scenes and dictionaries *)

Lemma scene_eq (s s' : Scene) :
  objects s = objects s' → groups s = groups s' → selected s = selected s' →
  active s = active s' → logged s = logged s' → s = s'.
Proof. destruct s, s'; simpl; congruence. Qed.

Lemma assign_props_same (s : Scene) (o : oid) :
  assign_props o (props_of s o) s = s.
Proof.
  apply scene_eq; try done. simpl. apply map_eq. intros i.
  unfold props_of. destruct (decide (o = i)) as [<-|].
  - rewrite lookup_alter_eq. destruct (objects s !! o) as [[]|]; done.
  - by rewrite lookup_alter_ne.
Qed.

Lemma alter_props_assign (f : propmap → propmap) (s : Scene) (o : oid) :
  with_objects (alter (λ ob, set_props (f (props ob)) ob) o) s
    = assign_props o (f (props_of s o)) s.
Proof.
  apply scene_eq; try done. simpl. apply map_eq. intros i.
  unfold props_of. destruct (decide (o = i)) as [<-|].
  - rewrite !lookup_alter_eq. destruct (objects s !! o); done.
  - by rewrite !lookup_alter_ne.
Qed.

Lemma assign_props_twice (s : Scene) (o : oid) (a b : propmap) :
  assign_props o a (assign_props o b s) = assign_props o a s.
Proof.
  apply scene_eq; try done. simpl. apply map_eq. intros i.
  destruct (decide (o = i)) as [<-|].
  - rewrite !lookup_alter_eq. destruct (objects s !! o); done.
  - by rewrite !lookup_alter_ne.
Qed.

Lemma props_of_assign (s : Scene) (o : oid) (ps : propmap) :
  is_Some (objects s !! o) → props_of (assign_props o ps s) o = ps.
Proof.
  intros [ob Hob]. unfold props_of. simpl. by rewrite lookup_alter_eq, Hob.
Qed.

Lemma props_of_assign_ne (s : Scene) (o o' : oid) (ps : propmap) :
  o ≠ o' → props_of (assign_props o ps s) o' = props_of s o'.
Proof. intros Hne. unfold props_of. simpl. by rewrite lookup_alter_ne. Qed.

Lemma props_of_nonempty (s : Scene) (o : oid) :
  props_of s o ≠ [] → is_Some (objects s !! o).
Proof. unfold props_of. destruct (objects s !! o); [eauto|done]. Qed.

Lemma prop_in_true (k : string) (ps : propmap) : prop_in k ps = true ↔ k ∈ ps.*1.
Proof. unfold prop_in. by rewrite bool_decide_eq_true. Qed.

Lemma prop_del_middle (k : string) (v : value) (l r : propmap) :
  k ∉ l.*1 → prop_del k (l ++ (k, v) :: r) = l ++ r.
Proof.
  induction l as [|[k' v'] l IH]; simpl; intros Hk.
  - by rewrite decide_True.
  - apply not_elem_of_cons in Hk as [Hne Hk].
    rewrite decide_False by done. by rewrite IH.
Qed.

Lemma kept_keys (pre k : string) (l : propmap) :
  PyStr.startswith k pre = true → k ∉ (filter (keeps pre) l).*1.
Proof.
  intros Hk Hin. apply list_elem_of_fmap in Hin as [[k' v] [-> Hin]].
  apply list_elem_of_filter in Hin as [Hkeep _]. unfold keeps in Hkeep. simpl in *. congruence.
Qed.

Lemma keeps_iff (pre k : string) (v : value) :
  keeps pre (k, v) ↔ ¬ ∃ t, k = pre +:+ t.
Proof.
  unfold keeps. cbn [fst]. split.
  - intros Hk [t ->]. by rewrite startswith_app in Hk.
  - intros Hk. destruct (PyStr.startswith k pre) eqn:E; [|done].
    exfalso. apply Hk. by apply startswith_inv.
Qed.

Lemma prop_get_in (k : string) (ps : propmap) :
  prop_in k ps = true → is_Some (prop_get k ps).
Proof.
  unfold prop_in. rewrite bool_decide_eq_true.
  induction ps as [|[k' v] ps IH]; simpl; [by intros ?%elem_of_nil|].
  intros Hin. destruct (decide (k' = k)); [eauto|].
  apply IH. apply elem_of_cons in Hin as [?|?]; [congruence|done].
Qed.

Lemma prop_get_Some_in (k : string) (ps : propmap) (v : value) :
  prop_get k ps = Some v → prop_in k ps = true.
Proof.
  unfold prop_in. rewrite bool_decide_eq_true.
  induction ps as [|[k' v'] ps IH]; simpl; [done|].
  destruct (decide (k' = k)) as [->|]; [left|]. intros H. right. by apply IH.
Qed.

Lemma prop_get_None_in (k : string) (ps : propmap) :
  prop_get k ps = None → prop_in k ps = false.
Proof.
  intros H. destruct (prop_in k ps) eqn:E; [|done].
  apply prop_get_in in E as [v Hv]. congruence.
Qed.

Lemma prop_set_keeps (k k' : string) (v : value) (ps : propmap) :
  prop_in k ps = true → prop_in k (prop_set k' v ps) = true.
Proof.
  unfold prop_in. rewrite !bool_decide_eq_true.
  induction ps as [|[k1 v1] ps IH]; simpl; [by intros ?%elem_of_nil|].
  intros Hin. destruct (decide (k1 = k')) as [->|]; simpl.
  - apply elem_of_cons in Hin as [->|?]; [left|by right].
  - apply elem_of_cons in Hin as [->|?]; [left|right; by apply IH].
Qed.

Lemma filter_all {A} (P : A → Prop) `{!∀ a, Decision (P a)} (l : list A) :
  (∀ a, a ∈ l → P a) → filter P l = l.
Proof.
  induction l as [|a l IH]; intros Hall; [done|].
  rewrite filter_cons_True by (apply Hall; left). f_equal.
  apply IH. intros b Hb. apply Hall. by right.
Qed.

(** ** removeSubmodel *)

(** C1.  On a scene that holds the submodel group and no interface group,
    removeSubmodel with [interfaces] left at True removes the submodel group
    and then returns False: the return inside [if not interfaces] is the
    only one on that path.  The docstring promises True whenever groups have
    been removed. *)
Theorem removeSubmodel_False_after_removal (s : Scene) (name type version : string) :
  is_Some (groups s !! group_name type name version) →
  groups s !! group_name "interfaces" name version = None →
  removeSubmodel name type version true s
    = (Ret false, with_groups (delete (group_name type name version)) s)
  ∧ groups (removeSubmodel name type version true s).2 !! group_name type name version = None.
Proof.
  intros Hsub Hif.
  assert (removeSubmodel name type version true s
    = (Ret false, with_groups (delete (group_name type name version)) s)) as E.
  { unfold removeSubmodel. run.
    destruct (decide (is_Some (groups s !! group_name type name version))) as [_|n]; [|done].
    simpl.
    destruct (decide (is_Some (delete (group_name type name version) (groups s)
                               !! group_name "interfaces" name version))) as [[g Hg]|_]; [|done].
    apply lookup_delete_Some in Hg as [_ Hg]. congruence. }
  split; [done|]. rewrite E. simpl. apply lookup_delete_eq.
Qed.

Lemma removeSubmodel_False_after_removal_witness :
  removeSubmodel "arm" "mechanics" "" true one_group = (Ret false, scene_of [] [])
  ∧ groups (removeSubmodel "arm" "mechanics" "" true one_group).2 !! "mechanics:arm" = None.
Proof.
  apply (removeSubmodel_False_after_removal one_group "arm" "mechanics" "").
  - vm_compute. eauto.
  - vm_compute. reflexivity.
Defined.

(** ** getPropertiesSubset *)

(** C2.  On an object with the key visual/visual/a, getPropertiesSubset with
    the category visual yields the key a: [str.replace] removes every
    occurrence of visual/, not only the prefix.  Stripping the prefix alone
    gives visual/a, a key the result does not have. *)
Theorem getPropertiesSubset_strips_inner_occurrences :
  getPropertiesSubset visual_twice "box" (Some "visual") = [("a", VInt 1)]
  ∧ prefix_stripped_subset visual_twice "box" "visual" = [("visual/a", VInt 1)]
  ∧ prop_get "visual/a" (getPropertiesSubset visual_twice "box" (Some "visual")) = None.
Proof. vm_compute. done. Qed.

(** ** removeProperties *)

Lemma wildcard_loop (o : oid) (pre : string) (todo done : propmap) (s : Scene) :
  props_of s o = filter (keeps pre) done ++ todo →
  for_each todo.*1
    (λ objprop, if PyStr.startswith objprop pre then del_item o objprop else ret tt) s
  = (Ret tt, assign_props o (filter (keeps pre) (done ++ todo)) s).
Proof.
  revert done s. induction todo as [|[k v] todo IH]; intros done s Hs.
  - simpl. unfold ret. rewrite !app_nil_r in *. by rewrite <- Hs, assign_props_same.
  - cbn [for_each fmap list_fmap fst]. unfold bind at 1.
    destruct (PyStr.startswith k pre) eqn:Hk.
    + assert (del_item o k s = (Ret tt, assign_props o (filter (keeps pre) done ++ todo) s)) as ->.
      { unfold del_item. run.
        assert (prop_in k (props_of s o) = true) as ->.
        { apply prop_in_true. rewrite Hs, fmap_app. apply elem_of_app. right. simpl. left. }
        rewrite (alter_props_assign (prop_del k)), Hs.
        by rewrite prop_del_middle by by apply kept_keys. }
      rewrite (IH (done ++ [(k, v)])).
      * rewrite assign_props_twice. by rewrite <- app_assoc.
      * rewrite props_of_assign.
        -- rewrite filter_app, filter_cons_False, filter_nil, app_nil_r; [done|].
           unfold keeps. simpl. congruence.
        -- apply props_of_nonempty. rewrite Hs. by destruct (filter (keeps pre) done).
    + unfold ret at 1. rewrite (IH (done ++ [(k, v)])).
      * by rewrite <- app_assoc.
      * rewrite Hs, filter_app, filter_cons_True, filter_nil by done.
        by rewrite <- app_assoc.
Qed.

Lemma remove_prop_sensor (s : Scene) (o : oid) :
  remove_prop o "sensor*" s = (Ret tt, touch s o).
Proof.
  unfold remove_prop, touch, sensor_removed. unfold bind at 1, get.
  destruct (prop_in "sensor*" (props_of s o)) eqn:Hin.
  - unfold del_item. unfold bind at 1, get. rewrite Hin. unfold modify.
    by rewrite (alter_props_assign (prop_del "sensor*")).
  - change (PyStr.last_char "sensor*") with (Some "*"%char).
    change (Ascii.eqb "*" "*") with true. cbv iota.
    change (PyStr.but_last "sensor*") with "sensor".
    by rewrite (wildcard_loop o "sensor" (props_of s o) []).
Qed.

Lemma same_tree_refl (s : Scene) : same_tree s s.
Proof. by split. Qed.

Lemma same_tree_trans (s1 s2 s3 : Scene) :
  same_tree s1 s2 → same_tree s2 s3 → same_tree s1 s3.
Proof. intros [H1 H2] [H3 H4]. split; [congruence|]. intros o. by rewrite H2. Qed.

Lemma same_tree_assign (s : Scene) (o : oid) (ps : propmap) :
  same_tree s (assign_props o ps s).
Proof.
  split; simpl.
  - by rewrite dom_alter_L.
  - intros i. unfold parent_of. simpl. destruct (decide (o = i)) as [<-|].
    + rewrite lookup_alter_eq. by destruct (objects s !! o).
    + by rewrite lookup_alter_ne.
Qed.

Lemma same_tree_foldl_touch (s0 s : Scene) (l : list oid) :
  same_tree s0 s → same_tree s0 (foldl touch s l).
Proof.
  revert s. induction l as [|x l IH]; intros s Hs; simpl; [done|].
  apply IH. eapply same_tree_trans; [done|]. apply same_tree_assign.
Qed.

Lemma same_tree_children (s s' : Scene) (o : oid) :
  same_tree s s' → children s o = children s' o.
Proof.
  intros [Hd Hp]. unfold children. rewrite Hd.
  apply list_filter_iff. intros c. by rewrite Hp.
Qed.

Lemma same_tree_subtree (s s' : Scene) (d : nat) (o : oid) :
  same_tree s s' → subtree d s o = subtree d s' o.
Proof.
  intros Hs. revert o. induction d as [|d IH]; intros o; simpl; [done|].
  rewrite (same_tree_children s s') by done. f_equal. f_equal.
  apply list_fmap_ext. intros _ c _. apply IH.
Qed.

Lemma removeProperties_eq (depth : nat) (o : oid) (ps : list string) (recursive : bool) :
  removeProperties depth o ps recursive =
  (for_each ps (remove_prop o) ;;
   if recursive then
     s <- get ;;
     for_each (children s o)
       (λ child, match depth with
                 | O => timeout
                 | S d => removeProperties d child ps recursive
                 end)
   else ret tt).
Proof. by destruct depth. Qed.

Lemma removeProperties_visits (depth : nat) (s0 s : Scene) (o : oid) :
  same_tree s0 s →
  (∀ k x, depth < k → up s0 k x ≠ Some o) →
  removeProperties depth o ["sensor*"] true s
    = (Ret tt, foldl touch s (subtree depth s0 o)).
Proof.
  revert s o. induction depth as [|d IH]; intros s o Hs Hh;
    rewrite removeProperties_eq; cbn [for_each];
    unfold bind at 1; unfold bind at 1; rewrite remove_prop_sensor;
    unfold ret at 1; unfold bind at 1, get;
    rewrite <- (same_tree_children s0) by (eapply same_tree_trans; [done|apply same_tree_assign]).
  - destruct (children s0 o) as [|c cs] eqn:Hc; [done|].
    exfalso. apply (Hh 1 c); [lia|]. simpl.
    assert (c ∈ children s0 o) as Hin by (rewrite Hc; left).
    apply children_parent in Hin. by rewrite Hin.
  - assert (∀ c, c ∈ children s0 o → ∀ k x, d < k → up s0 k x ≠ Some c) as Hcs.
    { intros c Hc k x Hk Hup. apply (Hh (S k) x); [lia|].
      rewrite up_S_r, Hup. simpl. by apply children_parent. }
    assert (same_tree s0 (touch s o)) as Hs1
      by (eapply same_tree_trans; [done|apply same_tree_assign]).
    cbn [subtree foldl]. generalize dependent (touch s o). clear Hs.
    induction (children s0 o) as [|c cs IHcs]; intros s1 Hs1; [done|].
    cbn [for_each]. unfold bind at 1. rewrite (IH s1 c Hs1) by (apply Hcs; left).
    rewrite IHcs.
    + change (mjoin (subtree d s0 <$> c :: cs))
        with (subtree d s0 c ++ mjoin (subtree d s0 <$> cs)).
      by rewrite foldl_app.
    + intros c' Hc'. apply Hcs. by right.
    + by apply same_tree_foldl_touch.
Qed.

Lemma elem_of_subtree (s : Scene) (depth : nat) (a o : oid) :
  o ∈ subtree depth s a ↔ ∃ k, k ≤ depth ∧ up s k o = Some a.
Proof.
  revert a. induction depth as [|d IH]; intros a; cbn [subtree].
  - rewrite list_elem_of_singleton. split.
    + intros ->. exists 0. by split.
    + intros (k & Hk & Hup). assert (k = 0) as -> by lia. simpl in Hup. congruence.
  - rewrite elem_of_cons, list_elem_of_join. split.
    + intros [->|(l & Hin & Hl)]; [exists 0; split; [lia|done]|].
      apply list_elem_of_fmap in Hl as (c & -> & Hc).
      apply IH in Hin as (k & Hk & Hup). apply children_parent in Hc.
      exists (S k). split; [lia|]. by rewrite up_S_r, Hup.
    + intros (k & Hk & Hup). destruct k as [|k]; [left; simpl in Hup; congruence|].
      right. rewrite up_S_r in Hup. destruct (up s k o) as [c|] eqn:Hc; [|done].
      simpl in Hup. exists (subtree d s c). split.
      * apply IH. exists k. split; [lia|done].
      * apply list_elem_of_fmap. exists c. split; [done|]. by apply children_parent.
Qed.

Lemma NoDup_subtree (s : Scene) (n depth : nat) (a : oid) :
  forest s n → NoDup (subtree depth s a).
Proof.
  intros Hf. revert a. induction depth as [|d IH]; intros a; cbn [subtree].
  - apply NoDup_singleton.
  - apply NoDup_cons. split.
    + rewrite list_elem_of_join. intros (l & Hin & Hl).
      apply list_elem_of_fmap in Hl as (c & -> & Hc).
      apply elem_of_subtree in Hin as (k & _ & Hup). apply children_parent in Hc.
      assert (up s (S k) a = Some a) as Hcyc by by rewrite up_S_r, Hup.
      by apply (forest_no_cycle s n) in Hcyc.
    + pose proof (NoDup_children s a) as Hnd.
      assert (∀ c, c ∈ children s a → parent_of s c = Some a) as Hpar
        by (intros c; apply children_parent).
      induction Hnd as [|c cs Hc Hnd IHcs]; [constructor|].
      change (mjoin (subtree d s <$> c :: cs))
        with (subtree d s c ++ mjoin (subtree d s <$> cs)).
      apply NoDup_app. split; [apply IH|]. split.
      * intros x Hx. rewrite list_elem_of_join. intros (l & Hin & Hl).
        apply list_elem_of_fmap in Hl as (c' & -> & Hc').
        apply elem_of_subtree in Hx as (k & _ & Hup).
        apply elem_of_subtree in Hin as (k' & _ & Hup').
        assert (up s (S k) x = Some a) as H1
          by (rewrite up_S_r, Hup; apply Hpar; left).
        assert (up s (S k') x = Some a) as H2
          by (rewrite up_S_r, Hup'; apply Hpar; by right).
        pose proof (forest_up_unique s n _ _ _ _ Hf H1 H2) as Hk.
        assert (k = k') as -> by lia. congruence.
      * apply IHcs. intros c' Hc'. apply Hpar. by right.
Qed.

Lemma foldl_touch_lookup (s : Scene) (l : list oid) (o : oid) :
  NoDup l →
  objects (foldl touch s l) !! o
    = (λ ob, if decide (o ∈ l) then set_props (sensor_removed (props ob)) ob else ob)
      <$> objects s !! o.
Proof.
  intros Hnd. revert s. induction Hnd as [|x l Hx Hnd IH]; intros s; cbn [foldl].
  - destruct (objects s !! o); cbn [fmap option_fmap option_map]; [|done].
    by rewrite decide_False by apply not_elem_of_nil.
  - rewrite IH. unfold touch, assign_props. cbn [with_objects objects].
    destruct (decide (x = o)) as [->|Hne].
    + rewrite lookup_alter_eq. unfold props_of.
      destruct (objects s !! o) as [ob|]; cbn [fmap option_fmap option_map from_option]; [|done].
      rewrite decide_False by done. rewrite decide_True by left. done.
    + rewrite lookup_alter_ne by done.
      destruct (objects s !! o) as [ob|]; cbn [fmap option_fmap option_map]; [|done].
      destruct (decide (o ∈ l)) as [Hin|Hin].
      * rewrite decide_True by by right. done.
      * rewrite decide_False; [done|]. intros [?|?]%elem_of_cons; congruence.
Qed.

Lemma foldl_touch_frame (s : Scene) (l : list oid) :
  groups (foldl touch s l) = groups s ∧ selected (foldl touch s l) = selected s
  ∧ active (foldl touch s l) = active s ∧ logged (foldl touch s l) = logged s.
Proof.
  revert s. induction l as [|x l IH]; intros s; cbn [foldl]; [done|].
  destruct (IH (touch s x)) as (-> & -> & -> & ->). done.
Qed.

(** C3, as the code has it.  On a forest, removeProperties with the single
    pattern sensor* returns; an object it reaches ([a], and the descendants
    of [a] when [recursive] is set) that has a key named sensor* loses that
    entry only, and one without such a key loses exactly the entries whose
    key starts with sensor; every other entry, every other object and the
    rest of the scene stay as they were. *)
Theorem removeProperties_sensor_wildcard
    (s : Scene) (n : nat) (a : oid) (recursive : bool) :
  (recursive = true → forest s n) →
  ∃ s', removeProperties n a ["sensor*"] recursive s = (Ret tt, s')
    ∧ (∀ o, reaches s recursive a o →
         props_of s' o =
           if prop_in "sensor*" (props_of s o) then prop_del "sensor*" (props_of s o)
           else filter (keeps "sensor") (props_of s o))
    ∧ (∀ o, ¬ reaches s recursive a o → props_of s' o = props_of s o)
    ∧ (∀ o, objects s' !! o = set_props (props_of s' o) <$> objects s !! o)
    ∧ groups s' = groups s ∧ selected s' = selected s
    ∧ active s' = active s ∧ logged s' = logged s.
Proof.
  intros Hf.
  assert (∃ l, removeProperties n a ["sensor*"] recursive s = (Ret tt, foldl touch s l)
               ∧ NoDup l ∧ ∀ o, o ∈ l ↔ reaches s recursive a o) as (l & Hrun & Hnd & Hl).
  { destruct recursive.
    - specialize (Hf eq_refl). exists (subtree n s a). split; [|split].
      + apply removeProperties_visits; [apply same_tree_refl|].
        intros k x Hk Hup. rewrite (forest_up s n) in Hup; [done|done|lia|lia].
      + by apply (NoDup_subtree s n).
      + intros o. rewrite elem_of_subtree. unfold reaches. split.
        * intros (k & _ & Hup). right. eauto.
        * intros [->|[_ [k Hup]]]; [exists 0; split; [lia|done]|].
          exists k. split; [|done]. destruct (decide (k ≤ n)); [done|].
          rewrite (forest_up s n) in Hup; [done|done|lia|lia].
    - exists [a]. split; [|split].
      + rewrite removeProperties_eq. cbn [for_each]. unfold bind.
        by rewrite remove_prop_sensor.
      + apply NoDup_singleton.
      + intros o. rewrite list_elem_of_singleton. unfold reaches.
        split; [by left|]. by intros [?|[? _]]. }
  exists (foldl touch s l). split; [done|].
  assert (∀ o, props_of (foldl touch s l) o
               = if decide (o ∈ l) then sensor_removed (props_of s o) else props_of s o) as Hp.
  { intros o. unfold props_of. rewrite foldl_touch_lookup by done.
    destruct (objects s !! o) as [ob|]; simpl; by destruct (decide (o ∈ l)). }
  split; [|split; [|split]].
  - intros o Ho. rewrite Hp, decide_True by by apply Hl. done.
  - intros o Ho. rewrite Hp, decide_False; [done|]. by rewrite Hl.
  - intros o. rewrite Hp. rewrite foldl_touch_lookup by done.
    unfold props_of. destruct (objects s !! o) as [ob|]; simpl; [|done].
    destruct (decide (o ∈ l)); [done|]. by destruct ob.
  - apply foldl_touch_frame.
Qed.

Lemma removeProperties_sensor_wildcard_witness :
  ∃ s', removeProperties 3 "head" ["sensor*"] true sensors = (Ret tt, s')
    ∧ (∀ o, reaches sensors true "head" o →
         props_of s' o =
           if prop_in "sensor*" (props_of sensors o)
           then prop_del "sensor*" (props_of sensors o)
           else filter (keeps "sensor") (props_of sensors o))
    ∧ (∀ o, ¬ reaches sensors true "head" o → props_of s' o = props_of sensors o)
    ∧ (∀ o, objects s' !! o = set_props (props_of s' o) <$> objects sensors !! o)
    ∧ groups s' = groups sensors ∧ selected s' = selected sensors
    ∧ active s' = active sensors ∧ logged s' = logged sensors.
Proof.
  apply (removeProperties_sensor_wildcard sensors 3 "head" true).
  intros _. apply (bool_decide_unpack (forest sensors 3)). vm_compute. exact I.
Defined.

(** C3 fails as stated: an object with the keys sensor* and sensor/type
    keeps sensor/type, which starts with sensor. *)
Lemma removeProperties_exact_name_counterexample :
  ¬ (∀ k, PyStr.startswith k "sensor" = true →
          prop_in k (props_of (removeProperties 0 "cam" ["sensor*"] false starred).2 "cam")
            = false).
Proof. intros H. specialize (H "sensor/type" eq_refl). vm_compute in H. discriminate. Qed.

(** ** getNearestCommonParent *)

Lemma climb_eq (fuel : nat) (s : Scene) (cand o : oid) (inter : gset string) :
  climb fuel s cand o inter =
  match parent_of s o with
  | Some p =>
      if decide (p ≠ cand) then
        match fuel with
        | O => None
        | S f => climb f s cand p ({[p]} ∪ inter)
        end
      else Some (o, inter)
  | None => Some (o, inter)
  end.
Proof. by destruct fuel. Qed.

Lemma ascend_eq (budget fuel : nat) (s : Scene) (rest : list oid) (in_all : bool)
    (parent : oid) (inter : gset string) :
  ascend budget fuel s rest in_all parent inter =
  match (if in_all then None else parent_of s parent) with
  | None => Some (in_all, parent, inter)
  | Some p =>
      match fuel with
      | O => None
      | S f =>
          match check_rest budget s p rest ({[p]} ∪ inter) with
          | None => None
          | Some (in_all', inter') => ascend budget f s rest in_all' p inter'
          end
      end
  end.
Proof. by destruct fuel. Qed.

Lemma ancestor_step (s : Scene) (p o q : oid) :
  parent_of s o = Some q → ancestor s p o ↔ p = q ∨ ancestor s p q.
Proof.
  intros Hq. split.
  - intros (k & Hk & Hup). destruct k as [|k]; [lia|]. simpl in Hup. rewrite Hq in Hup.
    simpl in Hup. destruct k as [|k]; [left; simpl in Hup; congruence|].
    right. exists (S k). split; [lia|done].
  - intros [->|(k & Hk & Hup)].
    + exists 1. split; [lia|]. simpl. by rewrite Hq.
    + exists (S k). split; [lia|]. simpl. by rewrite Hq.
Qed.

Lemma ancestor_root (s : Scene) (p o : oid) :
  parent_of s o = None → ¬ ancestor s p o.
Proof.
  intros Hq (k & Hk & Hup). destruct k as [|k]; [lia|]. simpl in Hup. by rewrite Hq in Hup.
Qed.

Lemma ancestor_trans (s : Scene) (p q o : oid) :
  ancestor s p q → ancestor s q o → ancestor s p o.
Proof.
  intros (j & Hj & Hp) (k & Hk & Hq). exists (k + j). split; [lia|].
  by rewrite up_add, Hq.
Qed.

Lemma ancestor_irrefl (s : Scene) (n : nat) (p : oid) : forest s n → ¬ ancestor s p p.
Proof.
  intros Hf (k & Hk & Hup). apply (forest_no_cycle s n) in Hup; [lia|done].
Qed.

Lemma climb_spec (s : Scene) (cand : oid) (fuel : nat) (o : oid) (inter : gset string) :
  up s (S fuel) o = None →
  ∃ o' inter', climb fuel s cand o inter = Some (o', inter')
    ∧ (parent_of s o' = Some cand ↔ ancestor s cand o)
    ∧ inter ⊆ inter'
    ∧ ∀ x, x ∈ inter' → x ∈ inter ∨ ancestor s x o.
Proof.
  revert o inter. induction fuel as [|f IH]; intros o inter Hup; rewrite climb_eq;
    destruct (parent_of s o) as [p|] eqn:Hp.
  - simpl in Hup. by rewrite Hp in Hup.
  - exists o, inter. split; [done|]. split; [|split; [done|by left]].
    rewrite Hp. split; [done|]. intros Ha. by apply ancestor_root in Ha.
  - destruct (decide (p ≠ cand)) as [Hne|Heq].
    + destruct (IH p ({[p]} ∪ inter)) as (o' & inter' & -> & Hiff & Hsub & Hin).
      { change (up s (S (S f)) o) with (parent_of s o ≫= up s (S f)) in Hup.
        by rewrite Hp in Hup. }
      exists o', inter'. split; [done|]. split; [|split].
      * rewrite Hiff, (ancestor_step s cand o p) by done.
        split; [by right|]. by intros [->|?].
      * intros x Hx. apply Hsub, elem_of_union. by right.
      * intros x Hx. destruct (Hin x Hx) as [Hx'|Hx'].
        -- apply elem_of_union in Hx' as [->%elem_of_singleton|?]; [|by left].
           right. apply (ancestor_step s p o p); auto.
        -- right. apply (ancestor_step s x o p); auto.
    + apply dec_stable in Heq as ->.
      exists o, inter. split; [done|]. split; [|split; [done|by left]].
      split; [|done]. intros _. apply (ancestor_step s cand o cand); auto.
  - exists o, inter. split; [done|]. split; [|split; [done|by left]].
    rewrite Hp. split; [done|]. intros Ha. by apply ancestor_root in Ha.
Qed.

Lemma check_rest_spec (s : Scene) (cand : oid) (budget : nat) (rest : list oid)
    (inter : gset string) :
  (∀ o, o ∈ rest → up s (S budget) o = None) →
  ∃ b inter', check_rest budget s cand rest inter = Some (b, inter')
    ∧ (b = true ↔ ∀ o, o ∈ rest → ancestor s cand o)
    ∧ inter ⊆ inter'
    ∧ ∀ x, x ∈ inter' → x ∈ inter ∨ ∃ o, o ∈ rest ∧ ancestor s x o.
Proof.
  revert inter. induction rest as [|obj rest IH]; intros inter Hup; cbn [check_rest].
  - exists true, inter. split; [done|]. split; [|split; [done|by left]].
    split; [|done]. intros _ o Ho. by apply elem_of_nil in Ho.
  - destruct (climb_spec s cand budget obj inter) as (o' & inter1 & -> & Hiff & Hsub & Hin);
      [apply Hup; left|].
    destruct (decide (parent_of s o' ≠ Some cand)) as [Hne|Heq].
    + exists false, inter1. split; [done|]. split; [|split; [done|]].
      * split; [done|]. intros Hall. exfalso. apply Hne, Hiff, Hall. left.
      * intros x Hx. destruct (Hin x Hx); [by left|]. right. exists obj. split; [left|done].
    + apply dec_stable in Heq.
      destruct (IH inter1) as (b & inter2 & -> & Hb & Hsub2 & Hin2);
        [intros o Ho; apply Hup; by right|].
      exists b, inter2. split; [done|]. split; [|split; [by etrans|]].
      * rewrite Hb. split.
        -- intros Hall o [->|Ho]%elem_of_cons; [by apply Hiff|by apply Hall].
        -- intros Hall o Ho. apply Hall. by right.
      * intros x Hx. destruct (Hin2 x Hx) as [Hx1|(o & Ho & Ha)].
        -- destruct (Hin x Hx1); [by left|]. right. exists obj. split; [left|done].
        -- right. exists o. split; [by right|done].
Qed.

Lemma ascend_spec (s : Scene) (budget : nat) (rest : list oid)
    (fuel : nat) (cur : oid) (inter : gset string) :
  (∀ o, o ∈ rest → up s (S budget) o = None) →
  up s (S fuel) cur = None →
  ∃ b p inter', ascend budget fuel s rest false cur inter = Some (b, p, inter')
    ∧ (b = true →
         p ∈ inter' ∧ common s (cur :: rest) p
         ∧ ∀ q, common s (cur :: rest) q → q = p ∨ ancestor s q p)
    ∧ (b = false → ∀ q, ¬ common s (cur :: rest) q)
    ∧ ∀ x, x ∈ inter' → x ∈ inter ∨ ∃ o, o ∈ cur :: rest ∧ ancestor s x o.
Proof.
  intros Hrest. revert cur inter.
  induction fuel as [|f IH]; intros cur inter Hup; rewrite ascend_eq;
    destruct (parent_of s cur) as [p|] eqn:Hp.
  - simpl in Hup. by rewrite Hp in Hup.
  - exists false, cur, inter. split; [done|]. split; [done|]. split; [|by left].
    intros _ q Hq. apply (ancestor_root s q cur Hp), Hq. left.
  - destruct (check_rest_spec s p budget rest ({[p]} ∪ inter) Hrest)
      as (b & inter1 & -> & Hb & Hsub & Hin).
    assert (∀ x, x ∈ inter1 → x ∈ inter ∨ ∃ o, o ∈ cur :: rest ∧ ancestor s x o) as Hin'.
    { intros x Hx. destruct (Hin x Hx) as [Hx'|(o & Ho & Ha)].
      - apply elem_of_union in Hx' as [->%elem_of_singleton|?]; [|by left].
        right. exists cur. split; [left|]. apply (ancestor_step s p cur p); auto.
      - right. exists o. split; [by right|done]. }
    destruct b.
    + rewrite ascend_eq. cbv iota.
      exists true, p, inter1. split; [done|]. split; [|split; [done|done]].
      intros _. split; [|split].
      * apply Hsub. apply elem_of_union. left. by apply elem_of_singleton.
      * intros o [->|Ho]%elem_of_cons.
        -- apply (ancestor_step s p cur p); auto.
        -- by apply Hb.
      * intros q Hq. apply (ancestor_step s q cur p Hp). apply Hq. left.
    + destruct (IH p inter1) as (b' & p' & inter2 & -> & Ht & Hf & Hin2).
      { change (up s (S (S f)) cur) with (parent_of s cur ≫= up s (S f)) in Hup.
        by rewrite Hp in Hup. }
      assert (¬ common s rest p) as Hnp.
      { intros Hc. by apply Hb in Hc. }
      assert (∀ q, common s (cur :: rest) q → common s (p :: rest) q) as Hstep.
      { intros q Hq o [->|Ho]%elem_of_cons; [|apply Hq; by right].
        assert (ancestor s q cur) as Ha by (apply Hq; left).
        apply (ancestor_step s q cur p Hp) in Ha as [->|Ha]; [|done].
        exfalso. apply Hnp. intros o Ho. apply Hq. by right. }
      exists b', p', inter2. split; [done|]. split; [|split].
      * intros Hb'. destruct (Ht Hb') as (Hin3 & Hc & Hlow). split; [done|]. split.
        -- intros o [->|Ho]%elem_of_cons; [|apply Hc; by right].
           apply (ancestor_step s p' cur p Hp). right. apply Hc. left.
        -- intros q Hq. apply Hlow, Hstep, Hq.
      * intros Hb' q Hq. apply (Hf Hb' q), Hstep, Hq.
      * intros x Hx. destruct (Hin2 x Hx) as [Hx1|(o & Ho & Ha)]; [by apply Hin'|].
        right. apply elem_of_cons in Ho as [->|Ho].
        -- exists cur. split; [left|]. apply (ancestor_step s x cur p Hp). by right.
        -- exists o. split; [by right|done].
  - exists false, cur, inter. split; [done|]. split; [done|]. split; [|by left].
    intros _ q Hq. apply (ancestor_root s q cur Hp), Hq. left.
Qed.

Lemma ancestor_linear (s : Scene) (x p o : oid) :
  ancestor s x o → ancestor s p o → x = p ∨ ancestor s x p ∨ ancestor s p x.
Proof.
  intros (j & Hj & Hx) (k & Hk & Hp).
  destruct (lt_eq_lt_dec j k) as [[Hlt| ->]|Hlt].
  - right. right. exists (k - j). split; [lia|].
    replace k with (j + (k - j)) in Hp by lia. by rewrite up_add, Hx in Hp.
  - left. congruence.
  - right. left. exists (j - k). split; [lia|].
    replace j with (k + (j - k)) in Hx by lia. by rewrite up_add, Hp in Hx.
Qed.

Lemma ancestor_asym (s : Scene) (n : nat) (p q : oid) :
  forest s n → ancestor s p q → ¬ (q = p ∨ ancestor s q p).
Proof.
  intros Hf Hpq [->|Hqp].
  - by apply (ancestor_irrefl s n p Hf).
  - apply (ancestor_irrefl s n p Hf). by apply (ancestor_trans s p q p).
Qed.

Lemma climb_visits (s : Scene) (n : nat) (cand : oid) (fuel : nat) (o o' : oid)
    (inter inter' : gset string) :
  forest s n →
  climb fuel s cand o inter = Some (o', inter') →
  ∀ x, x ∈ inter' ↔ x ∈ inter ∨ (ancestor s x o ∧ (ancestor s cand o → ancestor s cand x)).
Proof.
  intros Hf. revert o inter. induction fuel as [|f IH]; intros o inter; rewrite climb_eq;
    destruct (parent_of s o) as [p|] eqn:Hp.
  - destruct (decide (p ≠ cand)) as [Hne|Heq]; [done|]. apply dec_stable in Heq as ->.
    intros [= <- <-] x. split; [by left|]. intros [?|[Hx Hc]]; [done|]. exfalso.
    assert (ancestor s cand o) as Hco by (apply (ancestor_step s cand o cand); auto).
    apply (ancestor_asym s n cand x Hf (Hc Hco)).
    by apply (ancestor_step s x o cand).
  - intros [= <- <-] x. split; [by left|]. intros [?|[Hx _]]; [done|].
    by apply ancestor_root in Hx.
  - destruct (decide (p ≠ cand)) as [Hne|Heq].
    + intros Hc x. rewrite (IH p _ Hc x), elem_of_union, elem_of_singleton.
      rewrite (ancestor_step s x o p Hp), (ancestor_step s cand o p Hp).
      split.
      * intros [[->|?]|[Hx Hcx]]; [right|by left|right].
        -- split; [by left|]. by intros [?|?].
        -- split; [by right|]. intros [?|?]; [done|auto].
      * intros [?|[[->|Hx] Hcx]]; [by left; right|by left; left|right].
        split; [done|]. intros ?. apply Hcx. by right.
    + apply dec_stable in Heq as ->.
      intros [= <- <-] x. split; [by left|]. intros [?|[Hx Hc]]; [done|]. exfalso.
      assert (ancestor s cand o) as Hco by (apply (ancestor_step s cand o cand); auto).
      apply (ancestor_asym s n cand x Hf (Hc Hco)).
      by apply (ancestor_step s x o cand).
  - intros [= <- <-] x. split; [by left|]. intros [?|[Hx _]]; [done|].
    by apply ancestor_root in Hx.
Qed.

Lemma check_rest_visits (s : Scene) (n : nat) (cand : oid) (budget : nat) (rest : list oid)
    (inter : gset string) (b : bool) (inter' : gset string) :
  forest s n →
  (∀ o, o ∈ rest → up s (S budget) o = None) →
  check_rest budget s cand rest inter = Some (b, inter') →
  (b = true →
     ∀ x, x ∈ inter' ↔ x ∈ inter ∨ ∃ o, o ∈ rest ∧ ancestor s x o ∧ ancestor s cand x)
  ∧ (b = false →
     ∃ f, f ∈ rest ∧ ¬ ancestor s cand f ∧ ∀ x, ancestor s x f → x ∈ inter').
Proof.
  intros Hf. revert inter. induction rest as [|obj rest IH]; intros inter Hup; cbn [check_rest].
  - intros [= <- <-]. split; [|done]. intros _ x. split; [by left|].
    intros [?|(o & Ho & _)]; [done|]. by apply elem_of_nil in Ho.
  - destruct (climb_spec s cand budget obj inter) as (o' & inter1 & Hcl & Hiff & Hsub & _);
      [apply Hup; left|].
    rewrite Hcl. pose proof (climb_visits s n cand budget obj o' inter inter1 Hf Hcl) as Hvis.
    destruct (decide (parent_of s o' ≠ Some cand)) as [Hne|Heq].
    + intros [= <- <-]. split; [done|]. intros _. exists obj. split; [left|].
      rewrite <- Hiff. split; [done|]. intros x Hx. apply Hvis. right. split; [done|].
      intros Hc. by apply Hiff in Hc.
    + apply dec_stable in Heq. apply Hiff in Heq. intros Hcr.
      destruct (IH inter1) as [Ht Hfalse]; [intros o Ho; apply Hup; by right|done|].
      split.
      * intros Hb x. rewrite (Ht Hb x), Hvis. split.
        -- intros [[?|[Hx Hc]]|(o & Ho & Hx & Hc)]; [by left|right..].
           ++ exists obj. split; [left|]. auto.
           ++ exists o. split; [by right|]. auto.
        -- intros [?|(o & [->|Ho]%elem_of_cons & Hx & Hc)]; [by left; left|left; right|right].
           ++ auto.
           ++ by exists o.
      * intros Hb. destruct (Hfalse Hb) as (f & Hfin & Hnf & Hall).
        exists f. split; [by right|done].
Qed.

Lemma ascend_visits (s : Scene) (n budget : nat) (rest : list oid)
    (fuel : nat) (cur : oid) (inter : gset string) (p : oid) (inter' : gset string) :
  forest s n →
  (∀ o, o ∈ rest → up s (S budget) o = None) →
  up s (S fuel) cur = None →
  ascend budget fuel s rest false cur inter = Some (true, p, inter') →
  ∀ x, x ∈ inter' ↔ x ∈ inter ∨ x = p ∨ visited s cur rest p x.
Proof.
  intros Hf Hrest. revert cur inter.
  induction fuel as [|f IH]; intros cur inter Hup; rewrite ascend_eq;
    destruct (parent_of s cur) as [p1|] eqn:Hp1; try done.
  destruct (check_rest_spec s p1 budget rest ({[p1]} ∪ inter) Hrest)
    as (b & inter1 & Hcr & Hb & Hsub & Hin).
  rewrite Hcr.
  destruct (check_rest_visits s n p1 budget rest _ b inter1 Hf Hrest Hcr) as [Ht Hfalse].
  assert (ancestor s p1 cur) as Hpc by (apply (ancestor_step s p1 cur p1); auto).
  destruct b.
  + rewrite ascend_eq. cbv iota. intros [= <- <-] x.
    rewrite (Ht eq_refl x), elem_of_union, elem_of_singleton. unfold visited.
    split.
    * intros [[->|?]|(o & Ho & Hx & Hc)]; [by right; left|by left|].
      right. right. left. exists o. split; [by right|done].
    * intros [?|[->|[(o & [->|Ho]%elem_of_cons & Hx & Hc)|[Hne _]]]];
        [by left; right|by left; left| |right; by exists o|done].
      exfalso. apply (ancestor_asym s n p1 x Hf Hc).
      by apply (ancestor_step s x cur p1).
  + intros Hasc.
    assert (up s (S f) p1 = None) as Hup1.
    { change (up s (S (S f)) cur) with (parent_of s cur ≫= up s (S f)) in Hup.
      by rewrite Hp1 in Hup. }
    destruct (ascend_spec s budget rest f p1 inter1 Hrest Hup1)
      as (b' & p' & inter2 & Hasc' & Hcommon & _).
    rewrite Hasc in Hasc'. injection Hasc' as <- <- <-.
    destruct (Hcommon eq_refl) as (_ & Hc & _).
    assert (ancestor s p p1) as Hpp1 by (apply Hc; left).
    assert (p1 ≠ p) as Hne.
    { intros ->. by apply (ancestor_irrefl s n p Hf). }
    destruct (Hfalse eq_refl) as (fl & Hfl & Hnfl & Hall).
    intros x. rewrite (IH p1 inter1 Hup1 Hasc x). unfold visited. split.
    * intros [Hx|[->|[(o & Ho & Hx & Hpx)|[_ Hx]]]].
      -- destruct (Hin x Hx) as [[->%elem_of_singleton|?]%elem_of_union|(o & Ho & Hxo)].
         ++ right. right. left. exists cur. split; [left|done].
         ++ by left.
         ++ right. destruct (ancestor_linear s x p o Hxo) as [->|[Hxp|Hpx]].
            ** apply Hc. by right.
            ** by left.
            ** right. right. split; [congruence|done].
            ** right. left. exists o. split; [by right|done].
      -- by right; left.
      -- right. right. left. apply elem_of_cons in Ho as [->|Ho].
         ++ exists cur. split; [left|]. split; [|done].
            apply (ancestor_step s x cur p1 Hp1). by right.
         ++ exists o. split; [by right|done].
      -- right. right. right. split; [congruence|done].
    * intros [Hx|[->|[(o & [->|Ho]%elem_of_cons & Hx & Hpx)|[_ Hx]]]].
      -- left. apply Hsub, elem_of_union. by right.
      -- by right; left.
      -- apply (ancestor_step s x cur p1 Hp1) in Hx as [->|Hx].
         ++ left. apply Hsub, elem_of_union. left. by apply elem_of_singleton.
         ++ right. right. left. exists p1. split; [left|done].
      -- right. right. left. exists o. split; [by right|done].
      -- left. apply Hall. apply (ancestor_trans s x p fl); [done|]. apply Hc. by right.
Qed.

(** C4, as the code has it.  On [B; C] in the tree A -> {B, C}
    getNearestCommonParent returns A with no other visited object; on
    objects of two disjoint trees it returns None; and on every forest it
    returns: either the lowest object that is a proper ancestor of all the
    given objects, or None when they have no common proper ancestor.  An
    object is not counted among its own ancestors.  The objects reported
    beside the common parent are exactly those strictly between a given
    object and the common parent and, unless the first object is a child of
    the common parent, also every ancestor of the common parent. *)
Theorem getNearestCommonParent_lowest_common_ancestor :
  getNearestCommonParent 2 tree_ABC ["B"; "C"] = Ret (Some ("A", ∅))
  ∧ getNearestCommonParent 2 two_trees ["B"; "D"] = Ret None
  ∧ ∀ (s : Scene) (n : nat) (anchor : oid) (rest : list oid),
      forest s n →
      ∃ r, getNearestCommonParent n s (anchor :: rest) = Ret r
        ∧ match r with
          | Some (p, inter) =>
              common s (anchor :: rest) p
              ∧ (∀ q, common s (anchor :: rest) q → q = p ∨ ancestor s q p)
              ∧ ∀ x, x ∈ inter ↔ visited s anchor rest p x
          | None => ∀ q, ¬ common s (anchor :: rest) q
          end.
Proof.
  split; [by vm_compute|]. split; [by vm_compute|].
  intros s n anchor rest Hf. unfold getNearestCommonParent.
  assert (∀ o, o ∈ rest → up s (S n) o = None) as Hrest.
  { intros o _. apply (forest_up s n); [done|lia|lia]. }
  assert (up s (S n) anchor = None) as Hup.
  { apply (forest_up s n); [done|lia|lia]. }
  destruct (ascend_spec s n rest n anchor ∅ Hrest Hup)
    as (b & p & inter & Hasc & Ht & Hfalse & _).
  rewrite Hasc. destruct b; cbn [negb].
  - destruct (Ht eq_refl) as (Hp & Hc & Hlow). rewrite decide_True by done.
    exists (Some (p, inter ∖ {[p]})). split; [done|]. split; [done|]. split; [done|].
    intros x.
    rewrite elem_of_difference, elem_of_singleton,
      (ascend_visits s n n rest n anchor ∅ p inter Hf Hrest Hup Hasc x), elem_of_empty.
    split.
    + intros [[[]|[?|?]] ?]; done.
    + intros Hv. split; [by right; right|]. intros ->.
      destruct Hv as [(o & _ & Hx & Hpx)|[_ Hx]].
      * by apply (ancestor_irrefl s n p Hf).
      * by apply (ancestor_irrefl s n p Hf).
  - exists None. split; [done|]. by apply Hfalse.
Qed.

Lemma getNearestCommonParent_lowest_common_ancestor_witness :
  ∃ r, getNearestCommonParent 4 tree_top ["D"; "E"; "F"] = Ret r
    ∧ match r with
      | Some (p, inter) =>
          common tree_top ["D"; "E"; "F"] p
          ∧ (∀ q, common tree_top ["D"; "E"; "F"] q → q = p ∨ ancestor tree_top q p)
          ∧ ∀ x, x ∈ inter ↔ visited tree_top "D" ["E"; "F"] p x
      | None => ∀ q, ¬ common tree_top ["D"; "E"; "F"] q
      end.
Proof.
  apply (proj2 (proj2 getNearestCommonParent_lowest_common_ancestor) tree_top 4 "D" ["E"; "F"]).
  apply (bool_decide_unpack (forest tree_top 4)). vm_compute. exact I.
Defined.

(** C4 fails as stated: in the tree A -> {B, C} the lowest common ancestor
    of A and B is A, but the function returns None; on the chain
    R -> A -> X it returns R for A and X, whose lowest common ancestor is
    A. *)
Lemma getNearestCommonParent_ancestor_in_list_counterexample :
  lowest_common tree_ABC ["A"; "B"] "A"
  ∧ getNearestCommonParent 2 tree_ABC ["A"; "B"] = Ret None
  ∧ ¬ (∀ objs p, lowest_common chain_RAX objs p →
         ∃ inter, getNearestCommonParent 3 chain_RAX objs = Ret (Some (p, inter))).
Proof.
  split; [|split; [by vm_compute|]].
  - split.
    + intros o [->|[->|[]%elem_of_nil]%elem_of_cons]%elem_of_cons; [by exists 0|by exists 1].
    + intros q Hq. apply Hq. left.
  - intros H. destruct (H ["A"; "X"] "A") as [inter Hi].
    + split.
      * intros o [->|[->|[]%elem_of_nil]%elem_of_cons]%elem_of_cons; [by exists 0|by exists 1].
      * intros q Hq. apply Hq. left.
    + vm_compute in Hi. discriminate.
Qed.

(** In R -> A -> {B, C}, B -> {D, E}, C -> F the climb from F under the
    candidate B runs to the top, so R, above the common parent A, is
    reported as well. *)
Lemma getNearestCommonParent_reports_above :
  getNearestCommonParent 4 tree_top ["D"; "E"; "F"] = Ret (Some ("A", {["B"; "C"; "R"]})).
Proof. vm_compute. reflexivity. Qed.

(** ** restructureKinematicTree *)

Lemma getRoot_from_eq (fuel : nat) (s : Scene) (o : oid) :
  getRoot_from fuel s o =
  match parent_of s o with
  | None => Ret o
  | Some p => match fuel with O => Timeout | S f => getRoot_from f s p end
  end.
Proof. by destruct fuel. Qed.

Lemma gather_eq (fuel : nat) (s : Scene) (root o : oid) (links : list oid) :
  gather fuel s root o links =
  match parent_of s o with
  | None => Raise AttributeError
  | Some p =>
      if decide (p ≠ root) then
        match fuel with
        | O => Timeout
        | S f =>
            gather f s root p
              (if decide (phobostype_of s p = "link") then links ++ [p] else links)
        end
      else Ret links
  end.
Proof. by destruct fuel. Qed.

Lemma getRoot_chain (s : Scene) (r : oid) (l : list oid) (o : oid) (fuel : nat) :
  chain_from s o (l ++ [r]) → parent_of s r = None → length l < fuel →
  getRoot_from fuel s o = Ret r.
Proof.
  revert o fuel. induction l as [|a l IH]; intros o fuel Hch Hr Hlen;
    rewrite getRoot_from_eq; destruct Hch as [-> Hch]; (destruct fuel as [|f]; [simpl in Hlen; lia|]).
  - rewrite getRoot_from_eq. by rewrite Hr.
  - apply IH; [done..|]. simpl in Hlen. lia.
Qed.

Lemma gather_chain (s : Scene) (r : oid) (mid : list oid) (o : oid)
    (acc : list oid) (fuel : nat) :
  chain_from s o (mid ++ [r]) → r ∉ mid → length mid ≤ fuel →
  gather fuel s r o acc = Ret (acc ++ filter (is_link s) mid).
Proof.
  revert o acc fuel. induction mid as [|c mid IH]; intros o acc fuel Hch Hr Hlen;
    rewrite gather_eq; destruct Hch as [-> Hch].
  - rewrite decide_False by (intros H; by apply H). by rewrite app_nil_r.
  - apply not_elem_of_cons in Hr as [Hne Hr].
    rewrite decide_True by done. destruct fuel as [|f]; [simpl in Hlen; lia|].
    rewrite IH; [|done..|simpl in Hlen; lia].
    destruct (decide (phobostype_of s c = "link")) as [Hl|Hl].
    + rewrite filter_cons_True by done. by rewrite <- app_assoc.
    + by rewrite filter_cons_False by done.
Qed.

Lemma chain_from_up (s : Scene) (o : oid) (l : list oid) (i : nat) (a : oid) :
  chain_from s o l → l !! i = Some a → up s (S i) o = Some a.
Proof.
  revert o i. induction l as [|b l IH]; intros o i Hch Hi; [done|].
  destruct Hch as [Hb Hch]. cbn [up]. rewrite Hb. cbn [mbind option_bind].
  destruct i as [|i]; [simpl in *; congruence|]. by apply IH.
Qed.

Lemma chain_from_NoDup (s : Scene) (n : nat) (o : oid) (l : list oid) :
  forest s n → chain_from s o l → NoDup (o :: l).
Proof.
  intros Hf Hch. apply NoDup_alt. intros i j x Hi Hj.
  assert (∀ k, (o :: l) !! k = Some x → up s k o = Some x) as Hup.
  { intros [|k] Hk; [simpl in *; congruence|]. by apply (chain_from_up s o l). }
  apply (forest_up_unique s n i j o x); auto.
Qed.

Lemma chain_from_length (s : Scene) (n : nat) (o : oid) (l : list oid) (r : oid) :
  forest s n → chain_from s o (l ++ [r]) → S (length l) < n.
Proof.
  intros Hf Hch.
  assert (up s (S (length l)) o = Some r) as Hup.
  { apply (chain_from_up s o (l ++ [r])); [done|].
    rewrite lookup_app_r by lia. by rewrite Nat.sub_diag. }
  destruct (decide (S (length l) < n)); [done|].
  rewrite (forest_up s n) in Hup; [done|done|lia|lia].
Qed.

Lemma chain_exists (s : Scene) (n : nat) (o p : oid) :
  forest s n → parent_of s o = Some p →
  ∃ mid r, chain_from s o (mid ++ [r]) ∧ parent_of s r = None.
Proof.
  intros Hf. assert (up s (S n) o = None) as Hup by (apply (forest_up s n); [done|lia|lia]).
  revert o p Hup. generalize n at 1. clear Hf.
  intros k. induction k as [|k IH]; intros o p Hup Hp.
  - simpl in Hup. by rewrite Hp in Hup.
  - change (up s (S (S k)) o) with (parent_of s o ≫= up s (S k)) in Hup. rewrite Hp in Hup.
    cbn [mbind option_bind] in Hup.
    destruct (parent_of s p) as [q|] eqn:Hq.
    + destruct (IH p q Hup Hq) as (mid & r & Hch & Hr).
      exists (p :: mid), r. split; [|done]. by split.
    + exists [], p. split; [|done]. by split.
Qed.

Lemma chain_from_dom (s : Scene) (n : nat) (o : oid) (l : list oid) (c : oid) :
  forest s n → chain_from s o l → c ∈ l → is_Some (objects s !! c).
Proof.
  intros Hf. revert o. induction l as [|b l IH]; intros o Hch Hc; [by apply elem_of_nil in Hc|].
  destruct Hch as [Hb Hch]. apply elem_of_cons in Hc as [->|Hc].
  - by apply (forest_closed s n o).
  - by apply (IH b).
Qed.

Lemma up_chain (s : Scene) (m : nat) (x r : oid) :
  up s (S m) x = Some r →
  ∃ mid, chain_from s x (mid ++ [r]) ∧ length mid = m
    ∧ ∀ i c, mid !! i = Some c → up s (S i) x = Some c.
Proof.
  revert x. induction m as [|m IH]; intros x Hup;
    change (up s (S ?k) x) with (parent_of s x ≫= up s k) in Hup;
    destruct (parent_of s x) as [p|] eqn:Hp; try done; cbn [mbind option_bind] in Hup.
  - simpl in Hup. simplify_eq. exists []. split; [by split|]. split; [done|]. by intros [|i].
  - destruct (IH p Hup) as (mid & Hch & Hlen & Hmid).
    exists (p :: mid). split; [by split|]. split; [simpl; lia|].
    intros [|i] c Hc.
    + simpl in Hc. simplify_eq. simpl. by rewrite Hp.
    + change (up s (S (S i)) x) with (parent_of s x ≫= up s (S i)). rewrite Hp.
      by apply Hmid.
Qed.

Lemma chain_from_lookup (s : Scene) (x : oid) (l : list oid) :
  chain_from s x l ↔
  ∀ i a b, (x :: l) !! i = Some a → (x :: l) !! S i = Some b → parent_of s a = Some b.
Proof.
  revert x. induction l as [|y l IH]; intros x.
  - split; [|done]. by intros _ [|i].
  - cbn [chain_from]. rewrite IH. split.
    + intros [Hy Hl] [|i] a b Ha Hb; [simpl in *; congruence|]. by apply (Hl i).
    + intros H. split; [by apply (H 0)|]. intros i a b Ha Hb. by apply (H (S i)).
Qed.

Lemma reverse_consecutive (P : oid → oid → Prop) (l : list oid) :
  (∀ i a b, l !! i = Some a → l !! S i = Some b → P a b) →
  ∀ i a b, reverse l !! i = Some a → reverse l !! S i = Some b → P b a.
Proof.
  intros H i a b Ha Hb.
  assert (S i < length l) as Hlt
    by (apply lookup_lt_Some in Hb; by rewrite length_reverse in Hb).
  rewrite reverse_lookup in Ha by lia. rewrite reverse_lookup in Hb by lia.
  apply (H (length l - S (S i))); [done|].
  by replace (S (length l - S (S i))) with (length l - S i) by lia.
Qed.

Lemma elem_of_snoc_consecutive (l : list oid) (r o : oid) :
  o ∈ l ++ [r] → o = r ∨ ∃ j b, (l ++ [r]) !! j = Some o ∧ (l ++ [r]) !! S j = Some b.
Proof.
  intros [j Hj]%list_elem_of_lookup.
  destruct (decide (j < length l)) as [Hlt|Hge].
  - right. destruct (lookup_lt_is_Some_2 (l ++ [r]) (S j)) as [b Hb];
      [rewrite length_app; simpl; lia|]. eauto.
  - left. rewrite lookup_app_r in Hj by lia.
    destruct (j - length l) as [|k]; simpl in Hj; [congruence|]. by destruct k.
Qed.

Lemma same_shape_refl (s : Scene) : same_shape s s.
Proof. by split. Qed.

Lemma same_shape_trans (s1 s2 s3 : Scene) :
  same_shape s1 s2 → same_shape s2 s3 → same_shape s1 s3.
Proof.
  intros [H1 H2] [H3 H4]. split; [congruence|]. intros o.
  destruct (H4 o) as [-> ->]. apply H2.
Qed.

Lemma same_shape_alter (f : Object → Object) (o : oid) (s : Scene) :
  (∀ ob, parent (f ob) = parent ob ∧ phobostype (f ob) = phobostype ob) →
  same_shape s (with_objects (alter f o) s).
Proof.
  intros Hf. split; simpl; [by rewrite dom_alter_L|].
  intros i. unfold parent_of, phobostype_of. simpl.
  destruct (decide (o = i)) as [<-|]; [|by rewrite lookup_alter_ne].
  rewrite lookup_alter_eq. destruct (objects s !! o) as [ob|]; simpl; [|done].
  destruct (Hf ob) as [-> ->]. done.
Qed.

Lemma same_shape_logged (l : list (string * level)) (s : Scene) :
  same_shape s (with_logged l s).
Proof. by split. Qed.

Lemma move_prop_run (key : string) (root link : oid) (s : Scene) :
  move_prop key root link s = (Ret tt, moved key root link s).
Proof.
  unfold move_prop, moved, get_item, set_item, del_item.
  unfold bind, get, ret, modify, raise.
  destruct (prop_get key (props_of s root)) as [v|] eqn:Hv.
  - rewrite (prop_get_Some_in _ _ _ Hv). rewrite Hv.
    match goal with |- context [prop_in key ?ps] =>
      assert (prop_in key ps = true) as -> end; [|done].
    unfold props_of. simpl. destruct (decide (link = root)) as [->|Hne].
    + rewrite lookup_alter_eq. apply prop_get_Some_in in Hv. unfold props_of in Hv.
      destruct (objects s !! root) as [ob|]; simpl in *; [|done].
      by apply prop_set_keeps.
    + rewrite lookup_alter_ne by done. by apply prop_get_Some_in in Hv.
  - by rewrite (prop_get_None_in _ _ Hv).
Qed.

Lemma moved_shape (key : string) (root link : oid) (s : Scene) :
  same_shape s (moved key root link s).
Proof.
  unfold moved. destruct (prop_get key (props_of s root)); [|apply same_shape_refl].
  eapply same_shape_trans; apply same_shape_alter; by intros [].
Qed.

Lemma reparent_step_run (ls : list oid) (i : nat) (p c : oid) (s : Scene) :
  ls !! i = Some p → ls !! (i + 1) = Some c →
  reparent_step ls i s = (Ret tt, link_pair s (p, c)).
Proof. intros Hp Hc. unfold reparent_step. by rewrite Hp, Hc. Qed.

Lemma reparent_loop (t pre : list oid) (s : Scene) :
  for_each (seq (length pre) (length t - 1)) (reparent_step (pre ++ t)) s
    = (Ret tt, foldl link_pair s (pairs t)).
Proof.
  revert pre s. induction t as [|a t IH]; intros pre s; [done|].
  destruct t as [|b t]; [done|].
  replace (length (a :: b :: t) - 1) with (S (length t)) by (simpl; lia).
  cbn [seq for_each]. unfold bind at 1.
  rewrite (reparent_step_run _ _ a b).
  - specialize (IH (pre ++ [a]) (link_pair s (a, b))).
    rewrite length_app, <- app_assoc in IH.
    replace (length (b :: t) - 1) with (length t) in IH by (simpl; lia).
    replace (length pre + length [a]) with (S (length pre)) in IH by (simpl; lia).
    exact IH.
  - rewrite lookup_app_r by lia. by rewrite Nat.sub_diag.
  - rewrite lookup_app_r by lia. by replace (length pre + 1 - length pre) with 1 by lia.
Qed.

Lemma reparent_all (ls : list oid) (s : Scene) :
  for_each (seq 0 (length ls - 1)) (reparent_step ls) s
    = (Ret tt, foldl link_pair s (pairs ls)).
Proof. apply (reparent_loop ls []). Qed.

Lemma restructure_root_run (fuel : nat) (s : Scene) (link : oid) (root : option oid) :
  parent_of s link = None →
  restructureKinematicTree fuel link root s
    = (Ret tt, with_logged
                 (logged s ++ [("No restructure necessary. Link is already root.", INFO)]) s).
Proof.
  intros Hp. unfold restructureKinematicTree, getRoot.
  unfold bind, get, ret, lift, log, modify.
  destruct root as [r|]; [by rewrite Hp|].
  rewrite getRoot_from_eq, Hp. cbv beta iota. by rewrite ?Hp.
Qed.

Lemma restructure_run (fuel : nat) (s : Scene) (x : oid) (mid : list oid) (r : oid) :
  chain_from s x (mid ++ [r]) → parent_of s r = None → r ∉ mid → length mid < fuel →
  restructureKinematicTree fuel x None s
    = (Ret tt, restructured s x r (links_of s x mid r)).
Proof.
  intros Hch Hr Hnin Hlen.
  assert (∃ p, parent_of s x = Some p) as [p Hp].
  { destruct mid; destruct Hch as [-> _]; eauto. }
  unfold restructureKinematicTree.
  erewrite bind_run; cycle 1.
  { unfold getRoot. erewrite bind_run by reflexivity.
    unfold lift. by rewrite (getRoot_chain s r mid x fuel). }
  erewrite bind_run by reflexivity. rewrite Hp.
  erewrite bind_run; cycle 1.
  { unfold lift. by rewrite (gather_chain s r mid x [x] fuel) by (done || lia). }
  change (([x] ++ filter (is_link s) mid) ++ [r]) with (links_of s x mid r).
  generalize (links_of s x mid r). intros ls.
  erewrite bind_run by reflexivity.
  erewrite bind_run by reflexivity.
  erewrite bind_run by reflexivity.
  erewrite bind_run by reflexivity.
  erewrite bind_run by apply reparent_all.
  erewrite bind_run by reflexivity.
  erewrite bind_run by apply move_prop_run.
  erewrite bind_run by apply move_prop_run.
  reflexivity.
Qed.

Lemma clear_parents_lookup (ls : list oid) (os : gmap string Object) (o : oid) :
  clear_parents ls os !! o
    = (if decide (o ∈ ls) then set_parent None else id) <$> os !! o.
Proof.
  induction ls as [|a ls IH]; cbn [clear_parents foldr].
  - rewrite decide_False by apply not_elem_of_nil. by destruct (os !! o).
  - fold (clear_parents ls os). destruct (decide (a = o)) as [->|Hne].
    + rewrite (decide_True (P := o ∈ o :: ls)) by left. rewrite lookup_alter_eq, IH.
      destruct (os !! o) as [ob|]; [|done]. simpl. by destruct (decide (o ∈ ls)).
    + rewrite lookup_alter_ne, IH by done.
      destruct (decide (o ∈ ls)).
      * by rewrite decide_True by by right.
      * rewrite decide_False; [done|]. intros [?|?]%elem_of_cons; congruence.
Qed.

Lemma link_pair_lookup (s : Scene) (p c o : oid) :
  objects (link_pair s (p, c)) !! o
    = (if decide (o = c ∧ c ≠ p) then set_parent (Some p) else id) <$> objects s !! o.
Proof.
  unfold link_pair, set_parents. cbn [fst snd with_objects with_selection objects selected foldr].
  rewrite decide_True by done.
  destruct (decide (c = p)) as [->|Hne].
  - rewrite decide_False by (by intros [_ ?]). by destruct (objects s !! o).
  - destruct (decide (c = o)) as [->|Hne'].
    + rewrite lookup_alter_eq, decide_True by done. done.
    + rewrite lookup_alter_ne by done. rewrite decide_False by (by intros [-> _]).
      by destruct (objects s !! o).
Qed.

Lemma link_pair_frame (l : list (oid * oid)) (s : Scene) :
  dom (objects (foldl link_pair s l)) = dom (objects s)
  ∧ (∀ o, phobostype_of (foldl link_pair s l) o = phobostype_of s o)
  ∧ (∀ o, props_of (foldl link_pair s l) o = props_of s o).
Proof.
  revert s. induction l as [|[p c] l IH]; intros s; cbn [foldl]; [done|].
  destruct (IH (link_pair s (p, c))) as (-> & Ht & Hps).
  assert (∀ o, phobostype <$> objects (link_pair s (p, c)) !! o = phobostype <$> objects s !! o
             ∧ props <$> objects (link_pair s (p, c)) !! o = props <$> objects s !! o) as Hl.
  { intros o. rewrite link_pair_lookup.
    destruct (objects s !! o) as [ob|]; [|done]. simpl. by case_decide. }
  split; [|split].
  - apply set_eq. intros o. rewrite !elem_of_dom, <- !(fmap_is_Some phobostype).
    by rewrite (proj1 (Hl o)).
  - intros o. rewrite Ht. unfold phobostype_of. pose proof (proj1 (Hl o)) as H.
    by destruct (objects (link_pair s (p, c)) !! o), (objects s !! o); simplify_eq/=.
  - intros o. rewrite Hps. unfold props_of. pose proof (proj2 (Hl o)) as H.
    by destruct (objects (link_pair s (p, c)) !! o), (objects s !! o); simplify_eq/=.
Qed.

Lemma relinked_parents (t : list oid) (s : Scene) :
  NoDup t → (∀ c, c ∈ t → is_Some (objects s !! c)) →
  (∀ i a b, t !! i = Some a → t !! S i = Some b →
     parent_of (foldl link_pair s (pairs t)) b = Some a)
  ∧ (∀ o, o ∉ tail t → parent_of (foldl link_pair s (pairs t)) o = parent_of s o).
Proof.
  revert s. induction t as [|a t IH]; intros s Hnd Hdom; [by split|].
  destruct t as [|b t]; [split; [by intros [|i]|done]|].
  change (pairs (a :: b :: t)) with ((a, b) :: pairs (b :: t)). cbn [foldl tail].
  apply NoDup_cons in Hnd as [Ha Hnd].
  assert (a ≠ b) as Hab by (intros ->; apply Ha; left).
  assert (∀ o, parent_of (link_pair s (a, b)) o
               = if decide (o = b) then Some a else parent_of s o) as Hstep.
  { intros o. unfold parent_of. rewrite link_pair_lookup.
    destruct (decide (o = b)) as [->|Hne].
    - rewrite decide_True by done. destruct (Hdom b) as [ob ->]; [right; left|]. done.
    - rewrite decide_False by (by intros [? _]). by destruct (objects s !! o). }
  destruct (IH (link_pair s (a, b)) Hnd) as [Hpairs Hrest].
  { intros c Hc. rewrite link_pair_lookup. apply fmap_is_Some, Hdom. by right. }
  split.
  - intros [|i] x y Hx Hy.
    + simpl in Hx, Hy. simplify_eq. rewrite Hrest, Hstep, decide_True; [done..|].
      cbn [tail]. by apply NoDup_cons in Hnd as [? _].
    + by apply (Hpairs i).
  - intros o Ho. apply not_elem_of_cons in Ho as [Hne Ho].
    rewrite Hrest, Hstep, decide_False; done.
Qed.

Lemma restructured_spec (s : Scene) (x r : oid) (t : list oid) :
  NoDup (x :: t) → (∀ c, c ∈ x :: t → is_Some (objects s !! c)) →
  parent_of (restructured s x r (x :: t)) x = None
  ∧ (∀ i a b, (x :: t) !! i = Some a → (x :: t) !! S i = Some b →
       parent_of (restructured s x r (x :: t)) b = Some a)
  ∧ (∀ o, o ∉ x :: t → parent_of (restructured s x r (x :: t)) o = parent_of s o)
  ∧ dom (objects (restructured s x r (x :: t))) = dom (objects s)
  ∧ (∀ o, phobostype_of (restructured s x r (x :: t)) o = phobostype_of s o).
Proof.
  intros Hnd Hdom. unfold restructured.
  set (s1 := with_logged _ s).
  set (s2 := with_objects (clear_parents (x :: t)) _).
  set (s3 := with_logged _ s2).
  set (s4 := foldl link_pair s3 _).
  set (s5 := with_logged _ s4).
  set (s6 := moved "version" r x _).
  assert (same_shape s4 (with_logged
            (logged s6 ++ [("Restructured kinematic tree to new root: " +:+ x +:+ ".", INFO)])
            s6)) as [Hd Hsh].
  { eapply same_shape_trans; [|apply same_shape_logged].
    eapply same_shape_trans; [|apply moved_shape].
    eapply same_shape_trans; [|apply moved_shape]. apply same_shape_logged. }
  assert (∀ o, objects s3 !! o
               = (if decide (o ∈ x :: t) then set_parent None else id) <$> objects s !! o) as H3
    by (intros o; apply clear_parents_lookup).
  assert (∀ o, parent_of s3 o = if decide (o ∈ x :: t) then None else parent_of s o) as Hp3.
  { intros o. unfold parent_of. rewrite H3.
    destruct (objects s !! o) as [ob|]; simpl; by destruct (decide (o ∈ x :: t)). }
  destruct (relinked_parents (x :: t) s3 Hnd) as [Hpairs Hrest].
  { intros c Hc. rewrite H3. by apply fmap_is_Some, Hdom. }
  destruct (link_pair_frame (pairs (x :: t)) s3) as (Hd4 & Ht4 & _).
  fold s4 in Hpairs, Hrest, Hd4, Ht4.
  split; [|split; [|split; [|split]]].
  - rewrite (proj1 (Hsh x)), Hrest, Hp3, decide_True; [done|left|].
    cbn [tail]. by apply NoDup_cons in Hnd as [? _].
  - intros i a b Ha Hb. rewrite (proj1 (Hsh b)). by apply (Hpairs i).
  - intros o Ho. rewrite (proj1 (Hsh o)), Hrest, Hp3, decide_False; [done..|].
    cbn [tail]. intros Hin. apply Ho. by right.
  - rewrite Hd, Hd4. apply set_eq. intros o. rewrite !elem_of_dom, H3. apply fmap_is_Some.
  - intros o. rewrite (proj2 (Hsh o)), Ht4. unfold phobostype_of. rewrite H3.
    destruct (objects s !! o) as [ob|]; simpl; by destruct (decide (o ∈ x :: t)).
Qed.

Lemma links_NoDup (s : Scene) (x : oid) (mid : list oid) (r : oid) :
  NoDup (x :: mid ++ [r]) → NoDup (links_of s x mid r).
Proof.
  unfold links_of. rewrite !NoDup_cons, !NoDup_app, !elem_of_app.
  intros (Hx & Hmid & Hr & _). split; [|split; [|split]].
  - intros [Hin|Hin]; apply Hx; [left|by right].
    by apply list_elem_of_filter in Hin as [_ ?].
  - by apply NoDup_filter.
  - intros c Hc. apply Hr. by apply list_elem_of_filter in Hc as [_ ?].
  - apply NoDup_singleton.
Qed.

(** C5.  When the designated new root has no parent,
    restructureKinematicTree logs one INFO message and returns; objects,
    groups and selection of the scene are untouched. *)
Theorem restructureKinematicTree_root_noop
    (fuel : nat) (s : Scene) (link : oid) (root : option oid) :
  parent_of s link = None →
  restructureKinematicTree fuel link root s
    = (Ret tt, with_logged
                 (logged s ++ [("No restructure necessary. Link is already root.", INFO)]) s).
Proof. apply restructure_root_run. Qed.

Lemma restructureKinematicTree_root_noop_witness :
  restructureKinematicTree 3 "A" None tree_doc
    = (Ret tt, with_logged [("No restructure necessary. Link is already root.", INFO)] tree_doc).
Proof.
  apply (restructureKinematicTree_root_noop 3 tree_doc "A" None).
  vm_compute. reflexivity.
Defined.

(** C6, as the code has it.  For a node [x] with a parent in a forest, the
    walk up to the root [r] collects [x], the nodes strictly between [x]
    and [r] that are tagged link, and [r]; afterwards [x] has no parent,
    each collected node is the parent of the one collected after it, and
    every node that was not collected keeps its parent. *)
Theorem restructureKinematicTree_reverses_chain (s : Scene) (n : nat) (x p : oid) :
  forest s n → parent_of s x = Some p →
  ∃ mid r s',
    chain_from s x (mid ++ [r]) ∧ parent_of s r = None
    ∧ restructureKinematicTree n x None s = (Ret tt, s')
    ∧ parent_of s' x = None
    ∧ (∀ i a b, links_of s x mid r !! i = Some a → links_of s x mid r !! S i = Some b →
         parent_of s' b = Some a)
    ∧ (∀ o, o ∉ links_of s x mid r → parent_of s' o = parent_of s o)
    ∧ (∀ o, phobostype_of s' o = phobostype_of s o).
Proof.
  intros Hf Hp. destruct (chain_exists s n x p Hf Hp) as (mid & r & Hch & Hr).
  pose proof (chain_from_NoDup s n x _ Hf Hch) as Hnd.
  pose proof (chain_from_length s n x mid r Hf Hch) as Hlen.
  assert (r ∉ mid) as Hnin.
  { apply NoDup_cons in Hnd as [_ Hnd]. apply NoDup_app in Hnd as (_ & Hnd & _).
    intros Hin. apply (Hnd r Hin). left. }
  exists mid, r, (restructured s x r (links_of s x mid r)).
  split; [done|]. split; [done|]. split; [apply restructure_run; [done..|lia]|].
  destruct (restructured_spec s x r (filter (is_link s) mid ++ [r])) as (H1 & H2 & H3 & _ & H5).
  - by apply links_NoDup.
  - intros c [->|Hc]%elem_of_cons; [by apply (parent_of_dom s x p)|].
    apply (chain_from_dom s n x (mid ++ [r])); [done..|].
    apply elem_of_app in Hc as [Hc|Hc]; apply elem_of_app; [left|by right].
    by apply list_elem_of_filter in Hc as [_ ?].
  - done.
Qed.

Lemma restructureKinematicTree_reverses_chain_witness :
  ∃ mid r s',
    chain_from tree_doc "C" (mid ++ [r]) ∧ parent_of tree_doc r = None
    ∧ restructureKinematicTree 3 "C" None tree_doc = (Ret tt, s')
    ∧ parent_of s' "C" = None
    ∧ (∀ i a b, links_of tree_doc "C" mid r !! i = Some a →
                links_of tree_doc "C" mid r !! S i = Some b → parent_of s' b = Some a)
    ∧ (∀ o, o ∉ links_of tree_doc "C" mid r → parent_of s' o = parent_of tree_doc o)
    ∧ (∀ o, phobostype_of s' o = phobostype_of tree_doc o).
Proof.
  apply (restructureKinematicTree_reverses_chain tree_doc 3 "C" "A").
  - apply (bool_decide_unpack (forest tree_doc 3)). vm_compute. exact I.
  - vm_compute. reflexivity.
Defined.

(** C6 fails as stated: on the chain R -> A -> X the collected list is
    [X; A; R], and afterwards the node collected after X is not the parent
    of X. *)
Lemma restructureKinematicTree_direction_counterexample :
  gather 3 chain_RAX "R" "X" ["X"] = Ret ["X"; "A"]
  ∧ ¬ (∀ i a b, ["X"; "A"; "R"] !! i = Some a → ["X"; "A"; "R"] !! S i = Some b →
         parent_of (restructureKinematicTree 3 "X" None chain_RAX).2 a = Some b).
Proof.
  split; [by vm_compute|]. intros H.
  specialize (H 0 "X" "A" eq_refl eq_refl). vm_compute in H. discriminate.
Qed.

(** C7, as the code has it.  In a forest, when every node strictly between
    [x] and its root [r] is tagged link, re-rooting at [x] and then at [r]
    gives every node its original parent back, hence the original edges
    among the nodes tagged link. *)
Theorem restructureKinematicTree_round_trip (s : Scene) (n m : nat) (x r : oid) :
  forest s n → up s m x = Some r → parent_of s r = None →
  (∀ i c, 0 < i < m → up s i x = Some c → is_link s c) →
  ∃ s1 s2, restructureKinematicTree n x None s = (Ret tt, s1)
    ∧ restructureKinematicTree n r None s1 = (Ret tt, s2)
    ∧ (∀ o, parent_of s2 o = parent_of s o)
    ∧ (∀ o, phobostype_of s2 o = phobostype_of s o)
    ∧ ∀ p c, link_edge s2 p c ↔ link_edge s p c.
Proof.
  intros Hf Hup Hr Hlinks.
  assert (∃ s1 s2, restructureKinematicTree n x None s = (Ret tt, s1)
    ∧ restructureKinematicTree n r None s1 = (Ret tt, s2)
    ∧ (∀ o, parent_of s2 o = parent_of s o)
    ∧ (∀ o, phobostype_of s2 o = phobostype_of s o)) as (s1 & s2 & R1 & R2 & Hp & Ht).
  2:{ exists s1, s2. do 4 (split; [done|]). intros p c. unfold link_edge, is_link.
      by rewrite Hp, !Ht. }
  destruct m as [|m].
  { simpl in Hup. simplify_eq. eexists _, _.
    split; [by apply restructure_root_run|]. split; [by apply restructure_root_run|]. done. }
  destruct (up_chain s m x r Hup) as (mid & Hch & Hlen & Hmid).
  pose proof (chain_from_NoDup s n x _ Hf Hch) as Hnd.
  pose proof (chain_from_length s n x mid r Hf Hch) as Hfuel.
  assert (∀ c, c ∈ mid → is_link s c) as Hall.
  { intros c [i Hi]%list_elem_of_lookup. apply (Hlinks (S i)); [|by apply Hmid].
    apply lookup_lt_Some in Hi. lia. }
  assert (links_of s x mid r = x :: mid ++ [r]) as Hls
    by (unfold links_of; by rewrite filter_all).
  assert (∀ c, c ∈ x :: mid ++ [r] → is_Some (objects s !! c)) as Hdom.
  { intros c [->|Hc]%elem_of_cons; [|by apply (chain_from_dom s n x (mid ++ [r]))].
    destruct mid; destruct Hch as [Hx _]; by apply parent_of_dom in Hx. }
  pose proof Hnd as Hnd'. apply NoDup_cons in Hnd' as [Hx Hnd'].
  apply NoDup_app in Hnd' as (_ & Hnr & _).
  (* the first call *)
  set (s1 := restructured s x r (x :: mid ++ [r])).
  assert (restructureKinematicTree n x None s = (Ret tt, s1)) as R1.
  { unfold s1. rewrite <- Hls. apply restructure_run; [done|done| |lia].
    intros Hin. apply (Hnr r Hin). left. }
  destruct (restructured_spec s x r (mid ++ [r]) Hnd Hdom) as (A1 & A2 & A3 & A4 & A5).
  fold s1 in A1, A2, A3, A4, A5.
  assert (reverse (x :: mid ++ [r]) = r :: reverse mid ++ [x]) as Hrev
    by by rewrite reverse_cons, reverse_app.
  (* the second call *)
  assert (chain_from s1 r (reverse mid ++ [x])) as Hch1.
  { apply chain_from_lookup. rewrite <- Hrev. intros i a b Ha Hb.
    by apply (reverse_consecutive (λ a b, parent_of s1 b = Some a) _ A2 i). }
  assert (links_of s1 r (reverse mid) x = r :: reverse mid ++ [x]) as Hls1.
  { unfold links_of. rewrite filter_all; [done|].
    intros c Hc. apply (proj1 (elem_of_reverse _ _)) in Hc.
    unfold is_link. rewrite A5. by apply Hall. }
  set (s2 := restructured s1 r x (r :: reverse mid ++ [x])).
  assert (restructureKinematicTree n r None s1 = (Ret tt, s2)) as R2.
  { unfold s2. rewrite <- Hls1. apply restructure_run; [done|done| |rewrite length_reverse; lia].
    intros Hin. apply (proj1 (elem_of_reverse _ _)) in Hin.
    apply Hx. apply elem_of_app. by left. }
  destruct (restructured_spec s1 r x (reverse mid ++ [x])) as (B1 & B2 & B3 & B4 & B5).
  { rewrite <- Hrev. by rewrite reverse_Permutation. }
  { intros c Hc. apply elem_of_dom. rewrite A4. apply elem_of_dom, Hdom.
    rewrite <- Hrev in Hc. by apply (proj1 (elem_of_reverse _ _)) in Hc. }
  fold s2 in B1, B2, B3, B4, B5.
  exists s1, s2. split; [done|]. split; [done|]. split; [|intros o; by rewrite B5, A5].
  intros o. destruct (decide (o ∈ x :: mid ++ [r])) as [Hin|Hout].
  - rewrite app_comm_cons in Hin.
    apply elem_of_snoc_consecutive in Hin as [->|(j & b & Hj & Hb)]; [by rewrite Hr|].
    rewrite <- app_comm_cons in Hj, Hb.
    rewrite (proj1 (chain_from_lookup s x (mid ++ [r])) Hch j o b Hj Hb).
    rewrite <- Hrev in B2.
    pose proof (reverse_consecutive (λ a b, parent_of s2 b = Some a) _ B2) as B2'.
    rewrite reverse_involutive in B2'. by apply (B2' j).
  - rewrite B3, A3; [done..|]. rewrite <- Hrev.
    intros Hin. by apply (proj1 (elem_of_reverse _ _)) in Hin.
Qed.

Lemma restructureKinematicTree_round_trip_witness :
  ∃ s1 s2, restructureKinematicTree 3 "X" None chain_RAX = (Ret tt, s1)
    ∧ restructureKinematicTree 3 "R" None s1 = (Ret tt, s2)
    ∧ (∀ o, parent_of s2 o = parent_of chain_RAX o)
    ∧ (∀ o, phobostype_of s2 o = phobostype_of chain_RAX o)
    ∧ ∀ p c, link_edge s2 p c ↔ link_edge chain_RAX p c.
Proof.
  apply (restructureKinematicTree_round_trip chain_RAX 3 2 "X" "R").
  - apply (bool_decide_unpack (forest chain_RAX 3)). vm_compute. exact I.
  - vm_compute. reflexivity.
  - vm_compute. reflexivity.
  - intros i c Hi Hc. assert (i = 1) as -> by lia. vm_compute in Hc.
    injection Hc as <-. vm_compute. reflexivity.
Defined.

(** C7 fails as stated: on the chain R -> J -> X whose middle node J is an
    interface, the round trip leaves X a child of R, an edge between two
    links that the original tree does not have. *)
Lemma restructureKinematicTree_round_trip_counterexample :
  ¬ (∀ p c,
       link_edge (restructureKinematicTree 3 "R" None
                    (restructureKinematicTree 3 "X" None chain_RJX).2).2 p c
       ↔ link_edge chain_RJX p c).
Proof.
  intros H. destruct (H "R" "X") as [H1 _].
  assert (parent_of chain_RJX "X" = Some "R") as Hp; [|vm_compute in Hp; discriminate].
  apply H1. vm_compute. done.
Qed.

(** ** connectInterfaces and disconnectInterfaces *)

(** C8, as the code has it.  In a forest, when the child interface has a
    parent and the two interfaces share no ancestor, connectInterfaces
    without a transform returns; afterwards the child interface is a child
    of the parent interface, its world matrix is the translation and
    rotation of the parent interface's world matrix followed by the
    180 degree X / 180 degree Z rotation, and both name labels are hidden. *)
Theorem connectInterfaces_default_offset
    (s : Scene) (n : nat) (parentinterface childinterface p : oid) :
  forest s n →
  parent_of s childinterface = Some p →
  is_Some (objects s !! parentinterface) →
  (∀ j k a, up s j parentinterface = Some a → up s k childinterface ≠ Some a) →
  ∃ s', connectInterfaces n parentinterface childinterface None s = (Ret tt, s')
    ∧ parent_of s' childinterface = Some parentinterface
    ∧ matrix_world_of s' childinterface
        = MMul (MMul (MTranslation (matrix_world_of s' parentinterface))
                     (MRotation (matrix_world_of s' parentinterface)))
               MEuler180X180Z
    ∧ show_name_of s' parentinterface = false
    ∧ show_name_of s' childinterface = false.
Proof.
  intros Hf Hp Hpi Hsep.
  assert (parentinterface ≠ childinterface) as Hne.
  { intros ->. by apply (Hsep 0 0 childinterface). }
  assert (p ≠ childinterface) as Hpc.
  { intros ->. assert (up s 1 childinterface = Some childinterface) as Hc
      by (simpl; by rewrite Hp).
    by apply (forest_no_cycle s n) in Hc. }
  destruct (chain_exists s n childinterface p Hf Hp) as (mid & r & Hch & Hr).
  pose proof (chain_from_NoDup s n _ _ Hf Hch) as Hnd.
  pose proof (chain_from_length s n _ _ _ Hf Hch) as Hlen.
  (* the scene after the optional restructuring *)
  assert (∃ sa, (if decide (Some r ≠ Some p)
                 then restructureKinematicTree n p None else ret tt) s = (Ret tt, sa)
                ∧ parent_of sa childinterface = Some p
                ∧ dom (objects sa) = dom (objects s)) as (sa & Hrun & Hpa & Hdom).
  { destruct (decide (Some r ≠ Some p)) as [Hrp|Hrp]; [|by exists s].
    destruct mid as [|p' mid]; destruct Hch as [Hp' Hch];
      rewrite Hp in Hp'; simplify_eq; try done.
    exists (restructured s p' r (links_of s p' mid r)).
    apply NoDup_cons in Hnd as [Hci Hnd].
    split; [|split].
    - apply restructure_run; [done|done| |simpl in Hlen; lia].
      apply NoDup_cons in Hnd as [_ Hnd]. apply NoDup_app in Hnd as (_ & Hnd & _).
      intros Hin. apply (Hnd r Hin). left.
    - destruct (restructured_spec s p' r (filter (is_link s) mid ++ [r])) as (_ & _ & H3 & _).
      + by apply links_NoDup.
      + intros c [->|Hc]%elem_of_cons; [by apply (forest_closed s n childinterface)|].
        apply (chain_from_dom s n p' (mid ++ [r])); [done..|].
        apply elem_of_app in Hc as [Hc|Hc]; apply elem_of_app; [left|by right].
        by apply list_elem_of_filter in Hc as [_ ?].
      + fold (links_of s p' mid r) in H3. rewrite H3; [done|].
        intros Hin. apply Hci. unfold links_of in Hin.
        apply elem_of_cons in Hin as [->|Hin]; [left|right].
        apply elem_of_app in Hin as [Hin|Hin]; apply elem_of_app; [left|by right].
        by apply list_elem_of_filter in Hin as [_ ?].
    - destruct (restructured_spec s p' r (filter (is_link s) mid ++ [r])) as (_ & _ & _ & H4 & _).
      + by apply links_NoDup.
      + intros c [->|Hc]%elem_of_cons; [by apply (forest_closed s n childinterface)|].
        apply (chain_from_dom s n p' (mid ++ [r])); [done..|].
        apply elem_of_app in Hc as [Hc|Hc]; apply elem_of_app; [left|by right].
        by apply list_elem_of_filter in Hc as [_ ?].
      + done. }
  assert (∃ oc, objects sa !! childinterface = Some oc ∧ parent oc = Some p) as (oc & Hoc & Hpoc).
  { unfold parent_of in Hpa. destruct (objects sa !! childinterface) as [oc|]; [|done]. eauto. }
  assert (∃ op, objects sa !! parentinterface = Some op) as (op & Hop).
  { apply elem_of_dom. rewrite Hdom. by apply elem_of_dom. }
  unfold connectInterfaces.
  erewrite bind_run; cycle 1.
  { unfold getRoot. erewrite bind_run by reflexivity.
    unfold lift. rewrite (getRoot_chain s r mid childinterface n); [done..|lia]. }
  erewrite bind_run by reflexivity. rewrite Hp.
  erewrite bind_run by apply Hrun.
  erewrite bind_run by reflexivity. rewrite Hpa.
  do 7 (erewrite bind_run by reflexivity).
  do 4 (erewrite bind_run by reflexivity).
  do 3 (erewrite bind_run by reflexivity).
  eexists. split; [reflexivity|].
  assert (p ≠ parentinterface) as Hpp.
  { intros ->. apply (Hsep 0 1 parentinterface); [done|]. simpl. by rewrite Hp. }
  unfold parent_of, matrix_world_of, show_name_of, set_parents, clear_parents, apply_scale.
  cbn [objects with_objects with_selection selected foldr app].
  rewrite !(decide_True (P := parentinterface = parentinterface)) by done.
  rewrite !(decide_True (P := childinterface = childinterface)) by done.
  rewrite !(decide_False (P := childinterface = parentinterface)) by done.
  rewrite !(decide_False (P := p = childinterface)) by done.
  rewrite !lookup_alter.
  rewrite !(decide_True (P := parentinterface = parentinterface)) by done.
  rewrite !(decide_True (P := childinterface = childinterface)) by done.
  rewrite !(decide_False (P := childinterface = parentinterface)) by done.
  rewrite !(decide_False (P := parentinterface = childinterface)) by done.
  rewrite !(decide_False (P := p = childinterface)) by done.
  rewrite !(decide_False (P := p = parentinterface)) by done.
  rewrite Hoc, Hop. done.
Qed.

Lemma connectInterfaces_default_offset_witness :
  ∃ s', connectInterfaces 3 "socket" "plug" None docking = (Ret tt, s')
    ∧ parent_of s' "plug" = Some "socket"
    ∧ matrix_world_of s' "plug"
        = MMul (MMul (MTranslation (matrix_world_of s' "socket"))
                     (MRotation (matrix_world_of s' "socket")))
               MEuler180X180Z
    ∧ show_name_of s' "socket" = false
    ∧ show_name_of s' "plug" = false.
Proof.
  apply (connectInterfaces_default_offset docking 3 "socket" "plug" "wrist").
  - apply (bool_decide_unpack (forest docking 3)). vm_compute. exact I.
  - vm_compute. reflexivity.
  - vm_compute. eauto.
  - intros [|[|j]] [|[|[|k]]] a Hj Hk; vm_compute in Hj, Hk; congruence.
Defined.

(** C8 fails as stated: for a child interface without a parent the call
    raises AttributeError and connects nothing. *)
Lemma connectInterfaces_parentless_counterexample :
  ¬ ∃ s', connectInterfaces 3 "socket" "plug" None loose = (Ret tt, s')
          ∧ parent_of s' "plug" = Some "socket"
          ∧ show_name_of s' "socket" = false ∧ show_name_of s' "plug" = false.
Proof. intros (s' & H & _). vm_compute in H. discriminate. Qed.

(** C10.  When the child interface has no children once it is unparented,
    disconnectInterfaces raises UnboundLocalError, a NameError, on the first
    use of [root]; the child interface is left without a parent. *)
Theorem disconnectInterfaces_childless_NameError
    (s : Scene) (parentinterface childinterface : oid) (transform : option Matrix) :
  children (unparented s childinterface) childinterface = [] →
  ∃ e s', disconnectInterfaces parentinterface childinterface transform s = (Raise e, s')
    ∧ is_NameError e = true
    ∧ parent_of s' childinterface = None
    ∧ objects s' = objects (unparented s childinterface).
Proof.
  intros Hc. unfold disconnectInterfaces.
  do 3 (erewrite bind_run by reflexivity).
  match goal with |- context [children ?s1 childinterface] =>
    change (children s1 childinterface) with (children (unparented s childinterface) childinterface)
  end.
  rewrite Hc. cbn [pick_root].
  eexists _, _. split; [reflexivity|]. split; [done|]. split; [|done].
  change (parent_of (unparented s childinterface) childinterface = None).
  unfold parent_of, unparented. cbn [objects with_objects].
  rewrite lookup_alter_eq. by destruct (objects s !! childinterface).
Qed.

Lemma disconnectInterfaces_childless_NameError_witness :
  ∃ e s', disconnectInterfaces "socket" "plug" None plugged = (Raise e, s')
    ∧ is_NameError e = true
    ∧ parent_of s' "plug" = None
    ∧ objects s' = objects (unparented plugged "plug").
Proof.
  apply (disconnectInterfaces_childless_NameError plugged "socket" "plug" None).
  vm_compute. reflexivity.
Defined.

(** ** instantiateSubmodel *)

Lemma scan_groups_unmatched (submodelname : string) (gs : list (string * Group))
    (submodel interfaces : option string) :
  Forall (λ g, PyStr.contains g.1 ":" && bool_decide (submodelname = g.1) = false) gs →
  scan_groups submodelname gs submodel interfaces = Raise IndexError
  ∨ ∃ i, scan_groups submodelname gs submodel interfaces = Ret (submodel, i).
Proof.
  intros Hgs. revert interfaces.
  induction Hgs as [|[name g] gs Hg _ IH]; intros interfaces; cbn [scan_groups].
  - right. by eexists.
  - cbn [fst] in Hg. rewrite Hg.
    destruct (PyStr.startswith name "interfaces:"); [|apply IH].
    destruct (PyStr.split submodelname ":" !! 1); [apply IH|by left].
Qed.

(** C9.  When no group matches the submodel name, instantiateSubmodel does
    not return: either the scan of the groups raises IndexError, or the
    error is logged and [submodel.name] then raises AttributeError on None. *)
Theorem instantiateSubmodel_missing_raises
    (add_instance : string → option string → string → string → M oid)
    (s : Scene) (submodelname instancename : string) :
  groups s !! submodelname = None ∨ PyStr.contains submodelname ":" = false →
  ∃ e s', instantiateSubmodel add_instance submodelname instancename s = (Raise e, s')
    ∧ (e = IndexError
       ∨ e = AttributeError ∧ ("Selected submodel is not defined.", ERROR) ∈ logged s').
Proof.
  intros Hno.
  assert (Forall (λ g : string * Group,
            PyStr.contains g.1 ":" && bool_decide (submodelname = g.1) = false)
            (map_to_list (groups s))) as Hgs.
  { apply Forall_forall. intros [name g] Hin. simpl.
    apply elem_of_map_to_list in Hin.
    destruct (bool_decide_reflect (submodelname = name)) as [->|]; [|apply andb_false_r].
    destruct Hno as [Hno|Hno]; [congruence|]. by rewrite Hno. }
  unfold instantiateSubmodel. run.
  destruct (scan_groups_unmatched submodelname _ None None Hgs) as [->|[i ->]]; simpl.
  - eexists _, _. split; [done|]. by left.
  - destruct i; simpl; eexists _, _; (split; [done|]); right; split; try done; simpl.
    + apply elem_of_app. right. apply list_elem_of_singleton. done.
    + apply elem_of_app. left. apply elem_of_app. right. by apply list_elem_of_singleton.
Qed.

Lemma instantiateSubmodel_missing_raises_witness :
  ∃ e s', instantiateSubmodel (λ _ _ _ _, ret "instance") "mechanics:arm" "arm1" no_groups
            = (Raise e, s')
    ∧ (e = IndexError
       ∨ e = AttributeError ∧ ("Selected submodel is not defined.", ERROR) ∈ logged s').
Proof.
  apply (instantiateSubmodel_missing_raises _ no_groups "mechanics:arm" "arm1").
  left. reflexivity.
Defined.

(** ** Further properties of the operations *)

Lemma str_app_assoc (a b c : string) : (a +:+ b) +:+ c = a +:+ (b +:+ c).
Proof. induction a as [|x a IH]; [done|]. change (String x ((a +:+ b) +:+ c) = String x (a +:+ (b +:+ c))). by rewrite IH. Qed.

Lemma with_groups_delete_absent (k : string) (s : Scene) :
  groups s !! k = None → with_groups (delete k) s = s.
Proof.
  intros H. apply scene_eq; try done. simpl. by apply delete_id.
Qed.

(** The run with [interfaces=False] in closed form. *)
Lemma removeSubmodel_run_plain (s : Scene) (name type version : string) :
  removeSubmodel name type version false s
    = (Ret (bool_decide (is_Some (groups s !! group_name type name version))),
       with_groups (delete (group_name type name version)) s).
Proof.
  unfold removeSubmodel. run.
  destruct (decide (is_Some (groups s !! group_name type name version))) as [Hs|Hn].
  - by rewrite bool_decide_eq_true_2.
  - rewrite bool_decide_eq_false_2 by done.
    rewrite with_groups_delete_absent; [done|]. by apply eq_None_not_Some.
Qed.

(** The run with [interfaces=True] in closed form. *)
Lemma removeSubmodel_run_interfaces (s : Scene) (name type version : string) :
  removeSubmodel name type version true s
    = (Ret (bool_decide (group_name "interfaces" name version ≠ group_name type name version
                         ∧ is_Some (groups s !! group_name "interfaces" name version))),
       with_groups (delete (group_name "interfaces" name version))
         (with_groups (delete (group_name type name version)) s)).
Proof.
  set (sub := group_name type name version).
  set (ifn := group_name "interfaces" name version).
  assert (∀ t : Scene,
    (if decide (is_Some (groups t !! ifn))
     then (bind (groups_remove ifn) (λ _, ret true)) else ret false) t
    = (Ret (bool_decide (is_Some (groups t !! ifn))), with_groups (delete ifn) t)) as Hif.
  { intros t. destruct (decide (is_Some (groups t !! ifn))) as [Hs|Hn].
    - by rewrite bool_decide_eq_true_2.
    - rewrite bool_decide_eq_false_2 by done. unfold ret.
      rewrite with_groups_delete_absent; [done|]. by apply eq_None_not_Some. }
  unfold removeSubmodel. fold sub ifn. unfold bind at 1, get at 1.
  destruct (decide (is_Some (groups s !! sub))) as [Hs|Hn].
  - unfold bind at 1, groups_remove at 1, modify at 1. cbn [negb].
    unfold bind at 1, get at 1. rewrite Hif. f_equal. f_equal.
    cbn [groups with_groups]. apply bool_decide_ext. rewrite lookup_delete_is_Some.
    split; intros [? ?]; (split; [congruence|done]).
  - unfold bind at 1, get at 1. rewrite Hif.
    apply eq_None_not_Some in Hn.
    rewrite (with_groups_delete_absent sub s) by done. f_equal. f_equal.
    apply bool_decide_ext. split; [|by intros [_ ?]]. intros Hi. split; [|done].
    intros Heq. rewrite Heq, Hn in Hi. by destruct Hi.
Qed.

(** X1.  removeSubmodel always returns.  Afterwards the submodel group and,
    with [interfaces=True], the interface group are gone, every other group
    and everything else of the scene is as before.  The value returned is
    True exactly when, without interfaces, the submodel group existed and,
    with interfaces, the interface group existed (under a name of its own),
    whether or not a submodel group was removed. *)
Theorem removeSubmodel_effect (s : Scene) (name type version : string) (interfaces : bool) :
  ∃ b s', removeSubmodel name type version interfaces s = (Ret b, s')
    ∧ (∀ g, groups s' !! g
            = if decide (g = group_name type name version
                         ∨ (interfaces = true ∧ g = group_name "interfaces" name version))
              then None else groups s !! g)
    ∧ objects s' = objects s ∧ selected s' = selected s
    ∧ active s' = active s ∧ logged s' = logged s
    ∧ (b = true ↔
         if interfaces
         then group_name "interfaces" name version ≠ group_name type name version
              ∧ is_Some (groups s !! group_name "interfaces" name version)
         else is_Some (groups s !! group_name type name version)).
Proof.
  destruct interfaces.
  - rewrite removeSubmodel_run_interfaces. eexists _, _. split; [reflexivity|].
    split; [|do 4 (split; [done|]); apply bool_decide_eq_true].
    intros g. cbn [groups with_groups]. rewrite !lookup_delete.
    repeat case_decide; try done; exfalso; intuition congruence.
  - rewrite removeSubmodel_run_plain. eexists _, _. split; [reflexivity|].
    split; [|do 4 (split; [done|]); apply bool_decide_eq_true].
    intros g. cbn [groups with_groups]. rewrite !lookup_delete.
    repeat case_decide; try done; exfalso; intuition congruence.
Qed.

(** X2.  A second call of removeSubmodel with the same arguments returns
    False and changes nothing. *)
Theorem removeSubmodel_twice (s : Scene) (name type version : string) (interfaces : bool) :
  removeSubmodel name type version interfaces
      (removeSubmodel name type version interfaces s).2
    = (Ret false, (removeSubmodel name type version interfaces s).2).
Proof.
  destruct interfaces.
  - rewrite (removeSubmodel_run_interfaces s). cbn [snd].
    rewrite removeSubmodel_run_interfaces. f_equal.
    + f_equal. apply bool_decide_eq_false_2. intros [_ [g Hg]].
      cbn [groups with_groups] in Hg. by rewrite lookup_delete_eq in Hg.
    + apply scene_eq; try done. cbn [groups with_groups].
      apply map_eq. intros k. rewrite !lookup_delete. by repeat case_decide.
  - rewrite (removeSubmodel_run_plain s). cbn [snd].
    rewrite removeSubmodel_run_plain. f_equal.
    + f_equal. apply bool_decide_eq_false_2. intros [g Hg].
      cbn [groups with_groups] in Hg. by rewrite lookup_delete_eq in Hg.
    + apply scene_eq; try done. cbn [groups with_groups].
      apply map_eq. intros k. rewrite !lookup_delete. by repeat case_decide.
Qed.

(** X3.  The version is only appended to the group name after a slash:
    removing [name] in version [version] is removing [name/version]
    without a version. *)
Theorem removeSubmodel_version_in_name (s : Scene) (name type version : string)
    (interfaces : bool) :
  version ≠ "" →
  removeSubmodel name type version interfaces s
    = removeSubmodel (name +:+ "/" +:+ version) type "" interfaces s.
Proof.
  intros Hv.
  assert (∀ prefix, group_name prefix name version
                    = group_name prefix (name +:+ "/" +:+ version) "") as Hg.
  { intros prefix. unfold group_name. rewrite decide_True by done.
    rewrite decide_False by (intros H; by apply H).
    by rewrite !str_app_assoc. }
  unfold removeSubmodel. by rewrite !Hg.
Qed.

Lemma removeSubmodel_version_in_name_witness :
  removeSubmodel "arm" "mechanics" "2" true one_group
    = removeSubmodel ("arm" +:+ "/" +:+ "2") "mechanics" "" true one_group.
Proof. apply (removeSubmodel_version_in_name one_group "arm" "mechanics" "2" true). discriminate. Defined.

Lemma split_nonempty (s : string) (sep : ascii) : PyStr.split s sep ≠ [].
Proof.
  destruct s as [|c s]; simpl; [done|].
  destruct (Ascii.eqb c sep); [done|]. by destruct (PyStr.split s sep).
Qed.

Lemma split_second (s : string) (sep : ascii) :
  PyStr.contains s (String sep "") = true → is_Some (PyStr.split s sep !! 1).
Proof.
  induction s as [|c s IH]; [done|].
  cbn [PyStr.contains PyStr.startswith PyStr.split]. rewrite (Ascii.eqb_sym sep c).
  destruct (Ascii.eqb c sep) eqn:E.
  - intros _. pose proof (split_nonempty s sep) as Hne.
    destruct (PyStr.split s sep) as [|f fs]; [done|]. simpl. eauto.
  - cbn [orb]. intros Hc. destruct (IH Hc) as [part Hp].
    destruct (PyStr.split s sep) as [|f fs]; [done|]. simpl in *. eauto.
Qed.

Lemma scan_groups_found (submodelname : string) (gs : list (string * Group))
    (sub i : option string) :
  PyStr.contains submodelname ":" = true →
  ∃ i', scan_groups submodelname gs sub i
          = Ret (if bool_decide (submodelname ∈ gs.*1) then Some submodelname else sub, i')
    ∧ ((i' = i ∧ ∀ n, n ∈ gs.*1 → ¬ interface_match submodelname n)
       ∨ ∃ n, i' = Some n ∧ n ∈ gs.*1 ∧ interface_match submodelname n).
Proof.
  intros Hc. destruct (split_second submodelname ":" Hc) as [part Hpart].
  revert sub i. induction gs as [|[name g] gs IH]; intros sub i.
  - exists i. cbn [scan_groups]. rewrite bool_decide_eq_false_2 by apply not_elem_of_nil.
    split; [done|]. left. split; [done|]. by intros n ?%elem_of_nil.
  - cbn [scan_groups]. rewrite Hpart.
    set (sub' := if PyStr.contains name ":" && bool_decide (submodelname = name)
                 then Some name else sub).
    assert ((if bool_decide (submodelname ∈ gs.*1) then Some submodelname else sub')
            = if bool_decide (submodelname ∈ ((name, g) :: gs).*1)
              then Some submodelname else sub) as Hsub.
    { unfold sub'. cbn [fmap list_fmap fst].
      destruct (bool_decide_reflect (submodelname = name)) as [<-|Hne].
      - rewrite Hc. cbn [andb].
        rewrite (bool_decide_eq_true_2 (submodelname ∈ submodelname :: _)) by left.
        by destruct (bool_decide _).
      - rewrite andb_false_r.
        destruct (bool_decide_reflect (submodelname ∈ gs.*1)) as [Hin|Hin].
        + by rewrite bool_decide_eq_true_2 by by right.
        + rewrite bool_decide_eq_false_2; [done|].
          intros [?|?]%elem_of_cons; congruence. }
    assert (PyStr.startswith name "interfaces:" && PyStr.contains name part = false →
            ¬ interface_match submodelname name) as Hnm.
    { intros Hf [Hst (part' & Hp' & Hcp)]. rewrite Hpart in Hp'. simplify_eq.
      by rewrite Hst, Hcp in Hf. }
    destruct (PyStr.startswith name "interfaces:") eqn:Hst;
      [destruct (PyStr.contains name part) eqn:Hcp|].
    + destruct (IH sub' (Some name)) as (i' & -> & Hi).
      exists i'. rewrite Hsub. split; [done|]. right.
      destruct Hi as [[-> _]|(n & -> & Hn & Hmn)].
      * exists name. split; [done|]. split; [left|]. split; eauto.
      * exists n. split; [done|]. split; [by right|done].
    + destruct (IH sub' i) as (i' & -> & Hi).
      exists i'. rewrite Hsub. split; [done|].
      destruct Hi as [[-> Hno]|(n & -> & Hn & Hmn)].
      * left. split; [done|]. intros n [->|Hn]%elem_of_cons; [by apply Hnm|by apply Hno].
      * right. exists n. split; [done|]. split; [by right|done].
    + destruct (IH sub' i) as (i' & -> & Hi).
      exists i'. rewrite Hsub. split; [done|].
      destruct Hi as [[-> Hno]|(n & -> & Hn & Hmn)].
      * left. split; [done|]. intros n [->|Hn]%elem_of_cons; [by apply Hnm|by apply Hno].
      * right. exists n. split; [done|]. split; [by right|done].
Qed.

(** X4.  When a group named [submodelname] exists and the name holds a
    colon, instantiateSubmodel reaches the instancing code with that group
    as the submodel and with the scene as it was.  The interface group
    passed on is an existing group whose name starts with [interfaces:] and
    contains the second colon-separated part of the submodel name; there is
    none exactly when no group matches, and then one INFO line is logged
    and the call goes on. *)
Theorem instantiateSubmodel_found
    (add_instance : string → option string → string → string → M oid)
    (s : Scene) (submodelname instancename : string) :
  is_Some (groups s !! submodelname) →
  PyStr.contains submodelname ":" = true →
  ∃ i, (∀ n, i = Some n → is_Some (groups s !! n) ∧ interface_match submodelname n)
    ∧ (i = None ↔ ∀ n, is_Some (groups s !! n) → ¬ interface_match submodelname n)
    ∧ instantiateSubmodel add_instance submodelname instancename s
      = add_instance submodelname i submodelname instancename
          (if i is None
           then with_logged (logged s ++ [("No interfaces defined for this submodel.", INFO)]) s
           else s).
Proof.
  intros [g Hg] Hc.
  destruct (scan_groups_found submodelname (map_to_list (groups s)) None None Hc)
    as (i & Hscan & Hi).
  assert (∀ n, n ∈ (map_to_list (groups s)).*1 ↔ is_Some (groups s !! n)) as Hdom.
  { intros n. rewrite list_elem_of_fmap. split.
    - intros ([n' g'] & -> & Hin). apply elem_of_map_to_list in Hin. eauto.
    - intros [g' Hg']. exists (n, g'). split; [done|]. by apply elem_of_map_to_list. }
  rewrite bool_decide_eq_true_2 in Hscan by (apply Hdom; eauto).
  exists i. split; [|split].
  - intros n ->. destruct Hi as [[? _]|(n' & Heq & Hn & Hm)]; [done|]. simplify_eq.
    split; [by apply Hdom|done].
  - split.
    + intros -> n Hn Hm. destruct Hi as [[_ Hno]|(n' & ? & _)]; [|done].
      apply (Hno n); [by apply Hdom|done].
    + intros Hno. destruct Hi as [[-> _]|(n & _ & Hn & Hm)]; [done|].
      exfalso. apply (Hno n); [by apply Hdom|done].
  - unfold instantiateSubmodel. erewrite bind_run by reflexivity.
    erewrite bind_run by (unfold lift; by rewrite Hscan). cbn [fst snd].
    erewrite bind_run by reflexivity.
    destruct i; by erewrite bind_run by reflexivity.
Qed.

Lemma instantiateSubmodel_found_witness :
  ∃ i, (∀ n, i = Some n → is_Some (groups arm_groups !! n) ∧ interface_match "mechanics:arm" n)
    ∧ (i = None ↔ ∀ n, is_Some (groups arm_groups !! n) → ¬ interface_match "mechanics:arm" n)
    ∧ instantiateSubmodel (λ _ _ _ _, ret "instance") "mechanics:arm" "arm1" arm_groups
      = (λ _ _ _ _, ret "instance") "mechanics:arm" i "mechanics:arm" "arm1"
          (if i is None
           then with_logged (logged arm_groups ++
                  [("No interfaces defined for this submodel.", INFO)]) arm_groups
           else arm_groups).
Proof.
  apply (instantiateSubmodel_found _ arm_groups "mechanics:arm" "arm1").
  - vm_compute. eauto.
  - vm_compute. reflexivity.
Defined.

(** *** strings *)

Lemma replace_from_skip (old new p k : string) :
  PyStr.replace_from old new (String.length p) (p +:+ k) = PyStr.replace_from old new 0 k.
Proof. induction p as [|c p IH]; [done|]. exact IH. Qed.

Lemma replace_from_absent (old new k : string) :
  PyStr.contains k old = false → PyStr.replace_from old new 0 k = k.
Proof.
  induction k as [|c k IH]; [done|].
  cbn [PyStr.contains PyStr.replace_from]. intros [Hs Hc]%orb_false_elim.
  rewrite Hs. f_equal. by apply IH.
Qed.

Lemma replace_prefix (pre k : string) :
  pre ≠ "" → PyStr.contains k pre = false → PyStr.replace (pre +:+ k) pre "" = k.
Proof.
  intros Hpre Hk. destruct pre as [|a pre]; [done|].
  unfold PyStr.replace. change (String a pre +:+ k) with (String a (pre +:+ k)).
  cbn [PyStr.replace_from].
  change (String a (pre +:+ k)) with (String a pre +:+ k). rewrite startswith_app.
  replace (String.length (String a pre) - 1) with (String.length pre)
    by (cbn [String.length]; lia).
  rewrite replace_from_skip. by rewrite replace_from_absent.
Qed.

Lemma drop_chars_app (p t : string) : drop_chars (String.length p) (p +:+ t) = t.
Proof. induction p as [|c p IH]; [by destruct t|]. exact IH. Qed.

(** *** dictionaries *)

Lemma prop_set_absent (k : string) (v : value) (ps : propmap) :
  k ∉ ps.*1 → prop_set k v ps = ps ++ [(k, v)].
Proof.
  induction ps as [|[k' v'] ps IH]; [done|]. cbn [prop_set fmap list_fmap fst].
  intros [Hne Hk]%not_elem_of_cons. rewrite decide_False by done. by rewrite IH.
Qed.

Lemma prop_get_set_eq (k : string) (v : value) (ps : propmap) :
  prop_get k (prop_set k v ps) = Some v.
Proof.
  induction ps as [|[k' v'] ps IH]; cbn [prop_set prop_get].
  - by rewrite decide_True.
  - destruct (decide (k' = k)) as [->|Hne]; cbn [prop_get].
    + by rewrite decide_True.
    + by rewrite decide_False.
Qed.

Lemma prop_get_set_ne (k k' : string) (v : value) (ps : propmap) :
  k ≠ k' → prop_get k' (prop_set k v ps) = prop_get k' ps.
Proof.
  intros Hne. induction ps as [|[k1 v1] ps IH]; cbn [prop_set prop_get].
  - by rewrite decide_False.
  - destruct (decide (k1 = k)) as [->|Hne1]; cbn [prop_get].
    + by rewrite !decide_False.
    + destruct (decide (k1 = k')); [done|]. apply IH.
Qed.

Lemma foldl_prop_set_fresh (acc l : propmap) :
  NoDup l.*1 → (∀ k, k ∈ l.*1 → k ∉ acc.*1) →
  foldl (λ d kv, prop_set kv.1 kv.2 d) acc l = acc ++ l.
Proof.
  revert acc. induction l as [|[k v] l IH]; intros acc Hnd Hfresh; cbn [foldl].
  - by rewrite app_nil_r.
  - cbn [fmap list_fmap fst snd] in *. apply NoDup_cons in Hnd as [Hk Hnd].
    rewrite prop_set_absent by (apply Hfresh; left).
    rewrite IH; [by rewrite <- app_assoc|done|].
    intros k' Hk'. rewrite fmap_app. cbn [fmap list_fmap fst].
    intros [Hin|Hin]%elem_of_app.
    + apply (Hfresh k'); [by right|done].
    + apply list_elem_of_singleton in Hin. congruence.
Qed.

Lemma NoDup_filter_keys (P : string * value → Prop) `{!∀ kv, Decision (P kv)} (l : propmap) :
  NoDup l.*1 → NoDup (filter P l).*1.
Proof.
  induction l as [|[k v] l IH]; [done|]. cbn [fmap list_fmap fst].
  intros [Hk Hnd]%NoDup_cons. rewrite filter_cons. destruct (decide (P (k, v))); [|by apply IH].
  cbn [fmap list_fmap fst]. apply NoDup_cons. split; [|by apply IH].
  intros Hin. apply Hk. apply list_elem_of_fmap in Hin as (kv & -> & Hin).
  apply list_elem_of_filter in Hin as [_ Hin]. apply list_elem_of_fmap. eauto.
Qed.

Lemma subset_fold (pre : string) (F : propmap) :
  pre ≠ "" →
  (∀ kv, kv ∈ F → ∃ t, kv.1 = pre +:+ t ∧ PyStr.contains t pre = false) →
  NoDup F.*1 →
  foldl (λ d kv, prop_set (PyStr.replace kv.1 pre "") kv.2 d) [] F
    = (λ kv, (drop_chars (String.length pre) kv.1, kv.2)) <$> F.
Proof.
  intros Hpre HF Hnd.
  set (strip := λ kv : string * value, (drop_chars (String.length pre) kv.1, kv.2)).
  assert (∀ acc, foldl (λ d kv, prop_set (PyStr.replace kv.1 pre "") kv.2 d) acc F
                 = foldl (λ d kv, prop_set kv.1 kv.2 d) acc (strip <$> F)) as ->.
  { clear Hnd. induction F as [|[k v] F IH]; intros acc; [done|].
    cbn [foldl fmap list_fmap]. rewrite IH by (intros kv Hkv; apply HF; by right).
    f_equal. unfold strip. cbn [fst snd].
    destruct (HF (k, v)) as (t & Hk & Ht); [left|]. cbn [fst] in Hk. subst k.
    by rewrite replace_prefix, drop_chars_app. }
  rewrite foldl_prop_set_fresh; [done| |intros k _; apply not_elem_of_nil].
  rewrite <- list_fmap_compose.
  change (fst ∘ strip) with (drop_chars (String.length pre) ∘ (fst : string * value → string)).
  rewrite list_fmap_compose.
  apply NoDup_fmap_2_strong; [|done].
  intros k1 k2 [kv1 [-> H1]]%list_elem_of_fmap [kv2 [-> H2]]%list_elem_of_fmap Heq.
  destruct (HF _ H1) as (t1 & E1 & _), (HF _ H2) as (t2 & E2 & _).
  rewrite E1, E2 in *. rewrite !drop_chars_app in Heq. by subst.
Qed.

Lemma effective_category_prefix (s : Scene) (o : oid) (category : option string) :
  effective_category s o category +:+ "/" ≠ "".
Proof. by destruct (effective_category s o category). Qed.

(** X5.  When the keys of the object are distinct and no key holds the
    marker [category/] again behind its prefix, getPropertiesSubset returns
    exactly the entries whose key starts with [category/], in their order,
    each key with that prefix cut off.  Without a category the phobostype
    of the object is the category. *)
Theorem getPropertiesSubset_prefix_only
    (s : Scene) (o : oid) (category : option string) :
  NoDup (props_of s o).*1 →
  (∀ k t, k ∈ (props_of s o).*1 →
     k = (effective_category s o category +:+ "/") +:+ t →
     PyStr.contains t (effective_category s o category +:+ "/") = false) →
  getPropertiesSubset s o category
    = prefix_stripped_subset s o (effective_category s o category).
Proof.
  intros Hnd Hclean. unfold getPropertiesSubset, prefix_stripped_subset.
  apply subset_fold.
  - apply effective_category_prefix.
  - intros [k v] [Hst Hin]%list_elem_of_filter. cbn [fst] in *.
    apply startswith_inv in Hst as [t ->]. exists t. split; [done|].
    eapply (Hclean _ t); [|reflexivity]. apply list_elem_of_fmap. eexists (_, v). split; [|exact Hin]. done.
  - by apply NoDup_filter_keys.
Qed.

Lemma getPropertiesSubset_prefix_only_witness :
  getPropertiesSubset boxed "box" None
    = prefix_stripped_subset boxed "box" (effective_category boxed "box" None).
Proof.
  apply (getPropertiesSubset_prefix_only boxed "box" None).
  - apply (bool_decide_unpack (NoDup (props_of boxed "box").*1)). vm_compute. exact I.
  - intros k t Hk ->. vm_compute in Hk.
    repeat (apply elem_of_cons in Hk as [Hk|Hk]; [by simplify_eq|]).
    by apply elem_of_nil in Hk.
Defined.

(** *** addAnnotation *)

Lemma addAnnotation_run (s : Scene) (o : oid) (annotation : propmap)
    (namespace : option string) :
  is_Some (objects s !! o) →
  addAnnotation o annotation namespace s
    = (Ret tt, assign_props o
                 (annotated (annotation_prefix namespace) (props_of s o) annotation) s).
Proof.
  unfold addAnnotation, annotated. generalize (annotation_prefix namespace). intros pre.
  revert s. induction annotation as [|[k v] l IH]; intros s Ho; cbn [for_each foldl].
  - unfold ret. by rewrite assign_props_same.
  - erewrite bind_run; cycle 1.
    { unfold set_item, modify. cbn [fst snd].
      by rewrite (alter_props_assign (prop_set (pre +:+ k) v)). }
    rewrite IH.
    + by rewrite props_of_assign, assign_props_twice.
    + cbn [assign_props with_objects objects]. rewrite lookup_alter_eq. by apply fmap_is_Some.
Qed.

Lemma annotated_get (pre : string) (ps annotation : propmap) :
  NoDup annotation.*1 →
  (∀ k v, (k, v) ∈ annotation → prop_get (pre +:+ k) (annotated pre ps annotation) = Some v)
  ∧ (∀ k', (∀ k, k ∈ annotation.*1 → k' ≠ pre +:+ k) →
       prop_get k' (annotated pre ps annotation) = prop_get k' ps).
Proof.
  unfold annotated. induction annotation as [|[k0 v0] l IH] using rev_ind; intros Hnd.
  - split; [by intros k v ?%elem_of_nil|done].
  - rewrite fmap_app in Hnd. apply NoDup_app in Hnd as (Hnd & Hfresh & _).
    destruct (IH Hnd) as [IH1 IH2]. rewrite foldl_app. cbn [foldl fst snd]. split.
    + intros k v [Hin|Hin]%elem_of_app.
      * rewrite prop_get_set_ne; [by apply IH1|].
        intros Heq. apply (inj (String.append pre)) in Heq. subst k0.
        apply (Hfresh k); [|left]. apply list_elem_of_fmap. by exists (k, v).
      * apply list_elem_of_singleton in Hin. simplify_eq. apply prop_get_set_eq.
    + intros k' Hk'. rewrite prop_get_set_ne.
      * apply IH2. intros k Hk. apply Hk'. rewrite fmap_app. apply elem_of_app. by left.
      * intros Heq. apply (Hk' k0); [|done]. rewrite fmap_app. apply elem_of_app. right. left.
Qed.

(** X6.  On an object of the scene and an annotation with distinct keys,
    addAnnotation returns; afterwards every annotation key, behind the
    namespace and a slash when a namespace is given, holds its value.  Every
    other key of the object keeps what it held, and other objects, the
    groups, the selection and the log are unchanged. *)
Theorem addAnnotation_stores (s : Scene) (o : oid) (annotation : propmap)
    (namespace : option string) :
  is_Some (objects s !! o) → NoDup annotation.*1 →
  ∃ s', addAnnotation o annotation namespace s = (Ret tt, s')
    ∧ (∀ k v, (k, v) ∈ annotation →
         prop_get (annotation_prefix namespace +:+ k) (props_of s' o) = Some v)
    ∧ (∀ k', (∀ k, k ∈ annotation.*1 → k' ≠ annotation_prefix namespace +:+ k) →
         prop_get k' (props_of s' o) = prop_get k' (props_of s o))
    ∧ (∀ o', o' ≠ o → objects s' !! o' = objects s !! o')
    ∧ (∀ o', objects s' !! o' = set_props (props_of s' o') <$> objects s !! o')
    ∧ groups s' = groups s ∧ selected s' = selected s
    ∧ active s' = active s ∧ logged s' = logged s.
Proof.
  intros Ho Hnd. eexists. split; [by apply addAnnotation_run|].
  rewrite props_of_assign by done.
  destruct (annotated_get (annotation_prefix namespace) (props_of s o) annotation Hnd)
    as [H1 H2].
  split; [done|]. split; [done|]. split; [|split; [|done]].
  - intros o' Hne. cbn [assign_props with_objects objects]. by rewrite lookup_alter_ne.
  - intros o'. destruct (decide (o = o')) as [<-|Hne].
    + rewrite props_of_assign by done. cbn [assign_props with_objects objects].
      by rewrite lookup_alter_eq.
    + rewrite props_of_assign_ne by done. cbn [assign_props with_objects objects].
      rewrite lookup_alter_ne by done. unfold props_of.
      by destruct (objects s !! o') as [[]|].
Qed.

Lemma annotated_fresh (pre : string) (ps annotation : propmap) :
  NoDup annotation.*1 →
  (∀ k, k ∈ ps.*1 → PyStr.startswith k pre = false) →
  annotated pre ps annotation = ps ++ ((λ kv, (pre +:+ kv.1, kv.2)) <$> annotation).
Proof.
  intros Hnd Hps. unfold annotated.
  assert (∀ acc, foldl (λ ps kv, prop_set (pre +:+ kv.1) kv.2 ps) acc annotation
                 = foldl (λ d kv, prop_set kv.1 kv.2 d) acc
                     ((λ kv, (pre +:+ kv.1, kv.2)) <$> annotation)) as ->.
  { induction annotation as [|[k v] l IH]; intros acc; [done|].
    cbn [foldl fmap list_fmap fst snd]. apply IH. by apply NoDup_cons in Hnd as [_ ?]. }
  apply foldl_prop_set_fresh.
  - rewrite <- list_fmap_compose.
    change (fst ∘ (λ kv : string * value, (pre +:+ kv.1, kv.2)))
      with (String.append pre ∘ (fst : string * value → string)).
    rewrite list_fmap_compose. by apply (NoDup_fmap_2 (String.append pre)).
  - intros k [kv [-> Hin]]%list_elem_of_fmap Hk.
    apply list_elem_of_fmap in Hin as (kv' & -> & _). cbn [fst] in Hk.
    apply Hps in Hk. by rewrite startswith_app in Hk.
Qed.

Lemma filter_none {A} (P : A → Prop) `{!∀ a, Decision (P a)} (l : list A) :
  (∀ a, a ∈ l → ¬ P a) → filter P l = [].
Proof.
  induction l as [|a l IH]; intros Hno; [done|].
  rewrite filter_cons_False by (apply Hno; left). apply IH. intros b Hb. apply Hno. by right.
Qed.

(** X7.  Round trip: after addAnnotation wrote an annotation under a
    namespace, getPropertiesSubset for that namespace gives back the
    annotation, provided the object held no key of that namespace before
    and no annotation key contains [namespace/]. *)
Theorem addAnnotation_getPropertiesSubset (s : Scene) (o : oid) (annotation : propmap)
    (namespace : string) :
  namespace ≠ "" →
  is_Some (objects s !! o) → NoDup annotation.*1 →
  (∀ k, k ∈ (props_of s o).*1 → PyStr.startswith k (namespace +:+ "/") = false) →
  (∀ k, k ∈ annotation.*1 → PyStr.contains k (namespace +:+ "/") = false) →
  getPropertiesSubset (addAnnotation o annotation (Some namespace) s).2 o (Some namespace)
    = annotation.
Proof.
  intros Hns Ho Hnd Hps Hann. rewrite addAnnotation_run by done. cbn [snd].
  assert (annotation_prefix (Some namespace) = namespace +:+ "/") as -> by by destruct namespace.
  assert (effective_category
            (assign_props o (annotated (namespace +:+ "/") (props_of s o) annotation) s)
            o (Some namespace) = namespace) as Hcat by by destruct namespace.
  unfold getPropertiesSubset. rewrite Hcat, props_of_assign by done.
  rewrite annotated_fresh by done. rewrite filter_app.
  set (pre := namespace +:+ "/") in *.
  rewrite (filter_none _ (props_of s o)); cycle 1.
  { intros [k v] Hin Hst. cbn [fst] in Hst. rewrite Hps in Hst; [done|].
    apply list_elem_of_fmap. by exists (k, v). }
  rewrite app_nil_l, filter_all by (intros kv [kv' [-> _]]%list_elem_of_fmap; apply startswith_app).
  rewrite subset_fold.
  - rewrite <- list_fmap_compose. rewrite <- (list_fmap_id annotation) at 2.
    apply list_fmap_ext. intros _ [k v] _. cbn. by rewrite drop_chars_app.
  - by destruct namespace.
  - intros kv [[k v] [-> Hin]]%list_elem_of_fmap. exists k. split; [done|].
    apply Hann. apply list_elem_of_fmap. by exists (k, v).
  - rewrite <- list_fmap_compose.
    change (fst ∘ (λ kv : string * value, (pre +:+ kv.1, kv.2)))
      with (String.append pre ∘ (fst : string * value → string)).
    rewrite list_fmap_compose. by apply (NoDup_fmap_2 (String.append pre)).
Qed.

Lemma addAnnotation_stores_witness :
  ∃ s', addAnnotation "box" [("mass", VInt 3); ("unit", VStr "kg")] (Some "inertial") bare_box
          = (Ret tt, s')
    ∧ (∀ k v, (k, v) ∈ [("mass", VInt 3); ("unit", VStr "kg")] →
         prop_get (annotation_prefix (Some "inertial") +:+ k) (props_of s' "box") = Some v)
    ∧ (∀ k', (∀ k, k ∈ [("mass", VInt 3); ("unit", VStr "kg")].*1 →
                k' ≠ annotation_prefix (Some "inertial") +:+ k) →
         prop_get k' (props_of s' "box") = prop_get k' (props_of bare_box "box"))
    ∧ (∀ o', o' ≠ "box" → objects s' !! o' = objects bare_box !! o')
    ∧ (∀ o', objects s' !! o' = set_props (props_of s' o') <$> objects bare_box !! o')
    ∧ groups s' = groups bare_box ∧ selected s' = selected bare_box
    ∧ active s' = active bare_box ∧ logged s' = logged bare_box.
Proof.
  apply (addAnnotation_stores bare_box "box" [("mass", VInt 3); ("unit", VStr "kg")]
           (Some "inertial")).
  - vm_compute. eauto.
  - apply (bool_decide_unpack (NoDup ["mass"; "unit"])). vm_compute. exact I.
Defined.

Lemma addAnnotation_getPropertiesSubset_witness :
  getPropertiesSubset
    (addAnnotation "box" [("mass", VInt 3); ("unit", VStr "kg")] (Some "inertial") bare_box).2
    "box" (Some "inertial")
  = [("mass", VInt 3); ("unit", VStr "kg")].
Proof.
  apply (addAnnotation_getPropertiesSubset bare_box "box"
           [("mass", VInt 3); ("unit", VStr "kg")] "inertial").
  - done.
  - vm_compute. eauto.
  - apply (bool_decide_unpack (NoDup ["mass"; "unit"])). vm_compute. exact I.
  - intros k Hk. vm_compute in Hk.
    repeat (apply elem_of_cons in Hk as [->|Hk]; [reflexivity|]). by apply elem_of_nil in Hk.
  - intros k Hk. vm_compute in Hk.
    repeat (apply elem_of_cons in Hk as [->|Hk]; [reflexivity|]). by apply elem_of_nil in Hk.
Defined.

Lemma last_char_star (pre : string) : PyStr.last_char (pre +:+ "*") = Some "*"%char.
Proof.
  induction pre as [|c pre IH]; [done|].
  change (String c pre +:+ "*") with (String c (pre +:+ "*")). cbn [PyStr.last_char].
  rewrite IH. by destruct pre.
Qed.

Lemma but_last_star (pre : string) : PyStr.but_last (pre +:+ "*") = pre.
Proof.
  induction pre as [|c pre IH]; [done|].
  change (String c pre +:+ "*") with (String c (pre +:+ "*")). cbn [PyStr.but_last].
  rewrite IH. by destruct pre.
Qed.

Lemma remove_prop_exact (s : Scene) (o : oid) (prop : string) :
  prop_in prop (props_of s o) = true →
  remove_prop o prop s = (Ret tt, assign_props o (prop_del prop (props_of s o)) s).
Proof.
  intros Hin. unfold remove_prop. erewrite bind_run by reflexivity. rewrite Hin.
  unfold del_item. erewrite bind_run by reflexivity. rewrite Hin. unfold modify.
  by rewrite (alter_props_assign (prop_del prop)).
Qed.

Lemma prop_del_absent (k : string) (ps : propmap) :
  prop_in k ps = false → prop_del k ps = ps.
Proof.
  unfold prop_in. rewrite bool_decide_eq_false.
  induction ps as [|[k' v] ps IH]; [done|]. cbn [prop_del fmap list_fmap fst].
  intros [Hne Hk]%not_elem_of_cons. rewrite decide_False by done. by rewrite IH.
Qed.

Lemma prop_get_del_ne (k k' : string) (ps : propmap) :
  k ≠ k' → prop_get k' (prop_del k ps) = prop_get k' ps.
Proof.
  intros Hne. induction ps as [|[k1 v1] ps IH]; [done|]. cbn [prop_del prop_get].
  destruct (decide (k1 = k)) as [->|Hne1]; cbn [prop_get].
  - by rewrite decide_False.
  - destruct (decide (k1 = k')); [done|]. apply IH.
Qed.

Lemma prop_get_del_eq (k : string) (ps : propmap) :
  NoDup ps.*1 → prop_get k (prop_del k ps) = None.
Proof.
  induction ps as [|[k1 v1] ps IH]; [done|]. cbn [prop_del prop_get fmap list_fmap fst].
  intros [Hk Hnd]%NoDup_cons. destruct (decide (k1 = k)) as [->|Hne]; cbn [prop_get].
  - destruct (prop_get k ps) eqn:E; [|done]. apply prop_get_Some_in, prop_in_true in E. done.
  - rewrite decide_False by done. by apply IH.
Qed.

(** X8.  For every pattern [pre*] that is not itself a key of the object,
    removeProperties without recursion deletes exactly the keys that start
    with [pre] and keeps the other entries in their order. *)
Theorem removeProperties_wildcard (s : Scene) (o : oid) (pre : string) :
  prop_in (pre +:+ "*") (props_of s o) = false →
  removeProperties 0 o [pre +:+ "*"] false s
    = (Ret tt, assign_props o (filter (keeps pre) (props_of s o)) s).
Proof.
  intros Hin. rewrite removeProperties_eq. cbn [for_each].
  erewrite bind_run; [reflexivity|]. erewrite bind_run; [reflexivity|].
  unfold remove_prop. erewrite bind_run by reflexivity. rewrite Hin.
  rewrite last_char_star, Ascii.eqb_refl, but_last_star.
  by rewrite (wildcard_loop o pre (props_of s o) []).
Qed.

(** X9.  For a name that does not end in a star, removeProperties without
    recursion deletes that key and returns: every other key keeps its
    value, an object without the key is left unchanged (no error is
    raised), and with distinct keys the name is absent afterwards. *)
Theorem removeProperties_plain_name (s : Scene) (o : oid) (prop : string) (c : ascii) :
  PyStr.last_char prop = Some c → c ≠ "*"%char →
  removeProperties 0 o [prop] false s
    = (Ret tt, assign_props o (prop_del prop (props_of s o)) s)
  ∧ (∀ k, k ≠ prop →
       prop_get k (prop_del prop (props_of s o)) = prop_get k (props_of s o))
  ∧ (prop_in prop (props_of s o) = false → prop_del prop (props_of s o) = props_of s o)
  ∧ (NoDup (props_of s o).*1 → prop_get prop (prop_del prop (props_of s o)) = None).
Proof.
  intros Hlast Hc. split; [|split; [|split]].
  - rewrite removeProperties_eq. cbn [for_each].
    erewrite bind_run; [reflexivity|]. erewrite bind_run; [reflexivity|].
    destruct (prop_in prop (props_of s o)) eqn:Hin; [by apply remove_prop_exact|].
    unfold remove_prop. erewrite bind_run by reflexivity. rewrite Hin, Hlast.
    rewrite (proj2 (Ascii.eqb_neq c "*")) by done. unfold ret.
    by rewrite prop_del_absent, assign_props_same.
  - intros k Hk. by apply prop_get_del_ne.
  - apply prop_del_absent.
  - apply prop_get_del_eq.
Qed.

(** X10.  The empty string in the list of names raises IndexError (from
    [prop[-1]]) unless the object has a key that is the empty string; when
    it comes first nothing has been removed, also nothing of the later
    names or of the children. *)
Theorem removeProperties_empty_name (s : Scene) (depth : nat) (o : oid)
    (rest : list string) (recursive : bool) :
  prop_in "" (props_of s o) = false →
  removeProperties depth o ("" :: rest) recursive s = (Raise IndexError, s).
Proof.
  intros Hin. rewrite removeProperties_eq. cbn [for_each].
  unfold bind at 1. unfold bind at 1. unfold remove_prop at 1.
  unfold bind at 1, get at 1. by rewrite Hin.
Qed.

Lemma removeProperties_wildcard_witness :
  removeProperties 0 "head" ["sensor/" +:+ "*"] false sensors
    = (Ret tt, assign_props "head" (filter (keeps "sensor/") (props_of sensors "head")) sensors).
Proof. apply (removeProperties_wildcard sensors "head" "sensor/"). reflexivity. Defined.

Lemma removeProperties_plain_name_witness :
  removeProperties 0 "head" ["mass"] false sensors
    = (Ret tt, assign_props "head" (prop_del "mass" (props_of sensors "head")) sensors)
  ∧ (∀ k, k ≠ "mass" →
       prop_get k (prop_del "mass" (props_of sensors "head")) = prop_get k (props_of sensors "head"))
  ∧ (prop_in "mass" (props_of sensors "head") = false →
       prop_del "mass" (props_of sensors "head") = props_of sensors "head")
  ∧ (NoDup (props_of sensors "head").*1 →
       prop_get "mass" (prop_del "mass" (props_of sensors "head")) = None).
Proof.
  apply (removeProperties_plain_name sensors "head" "mass" "s"); [reflexivity|discriminate].
Defined.

Lemma removeProperties_empty_name_witness :
  removeProperties 1 "head" [""; "mass"] true sensors = (Raise IndexError, sensors).
Proof. apply (removeProperties_empty_name sensors 1 "head" ["mass"] true). reflexivity. Defined.

(** X11.  The pattern [*] alone removes every custom property of the
    object, unless the object has a key that is literally [*]. *)
Theorem removeProperties_star_clears (s : Scene) (o : oid) :
  prop_in "*" (props_of s o) = false →
  removeProperties 0 o ["*"] false s = (Ret tt, assign_props o [] s).
Proof.
  assert (filter (keeps "") (props_of s o) = []) as Hnil.
  { induction (props_of s o) as [|kv l IH]; [done|].
    rewrite filter_cons, decide_False; [done|]. unfold keeps. by destruct (kv.1). }
  intros Hin. rewrite <- Hnil. rewrite removeProperties_eq. cbn [for_each].
  erewrite bind_run; [reflexivity|]. erewrite bind_run; [reflexivity|].
  unfold remove_prop. erewrite bind_run by reflexivity. rewrite Hin.
  change (PyStr.last_char "*") with (Some "*"%char).
  change (PyStr.but_last "*") with "". cbv iota beta.
  change (Ascii.eqb "*" "*") with true. cbv iota.
  by rewrite (wildcard_loop o "" (props_of s o) []).
Qed.

Lemma removeProperties_star_clears_witness :
  removeProperties 0 "head" ["*"] false sensors = (Ret tt, assign_props "head" [] sensors).
Proof. apply (removeProperties_star_clears sensors "head"). reflexivity. Defined.

Lemma gather_unreachable (s : Scene) (root : oid) (fuel : nat) (o : oid) (acc : list oid) :
  up s (S fuel) o = None →
  (∀ k, 0 < k → up s k o ≠ Some root) →
  gather fuel s root o acc = Raise AttributeError.
Proof.
  revert o acc. induction fuel as [|f IH]; intros o acc Hup Hno; rewrite gather_eq;
    destruct (parent_of s o) as [p|] eqn:Hp; try done.
  - simpl in Hup. by rewrite Hp in Hup.
  - assert (p ≠ root) as Hne.
    { intros ->. apply (Hno 1); [lia|]. simpl. by rewrite Hp. }
    rewrite decide_True by done. apply IH.
    + change (up s (S (S f)) o) with (parent_of s o ≫= up s (S f)) in Hup.
      by rewrite Hp in Hup.
    + intros k Hk Hupk. apply (Hno (S k)); [lia|].
      change (up s (S k) o) with (parent_of s o ≫= up s k). by rewrite Hp.
Qed.

(** X12.  When a link with a parent is given together with a root that is
    not among its ancestors, restructureKinematicTree walks off the top of
    the tree and raises AttributeError; the scene is unchanged. *)
Theorem restructureKinematicTree_unreachable_root
    (s : Scene) (n : nat) (link p root : oid) :
  forest s n → parent_of s link = Some p →
  (∀ k, 0 < k → up s k link ≠ Some root) →
  restructureKinematicTree n link (Some root) s = (Raise AttributeError, s).
Proof.
  intros Hf Hp Hno. unfold restructureKinematicTree.
  erewrite bind_run by reflexivity. erewrite bind_run by reflexivity. rewrite Hp.
  unfold bind, lift. rewrite gather_unreachable; [done| |done].
  apply (forest_up s n); [done|lia|lia].
Qed.

Lemma restructureKinematicTree_unreachable_root_witness :
  restructureKinematicTree 3 "B" (Some "C") tree_doc = (Raise AttributeError, tree_doc).
Proof.
  apply (restructureKinematicTree_unreachable_root tree_doc 3 "B" "A" "C").
  - apply (bool_decide_unpack (forest tree_doc 3)). vm_compute. exact I.
  - vm_compute. reflexivity.
  - intros [|[|[|k]]] Hk; vm_compute; (lia || discriminate).
Defined.

Lemma moved_props (key : string) (r x : oid) (s : Scene) (o : oid) :
  x ≠ r → is_Some (objects s !! x) → is_Some (objects s !! r) →
  props_of (moved key r x s) o =
    match prop_get key (props_of s r) with
    | Some v =>
        if decide (o = r) then prop_del key (props_of s r)
        else if decide (o = x) then prop_set key v (props_of s x)
        else props_of s o
    | None => props_of s o
    end.
Proof.
  intros Hne [ox Hx] [or Hr]. unfold moved.
  destruct (prop_get key (props_of s r)) as [v|]; [|done].
  unfold props_of. cbn [with_objects objects]. rewrite !lookup_alter.
  destruct (decide (o = r)) as [->|Hor].
  - rewrite decide_True by done. rewrite decide_False by done. by rewrite Hr.
  - rewrite (decide_False (P := r = o)) by done.
    destruct (decide (o = x)) as [->|Hox].
    + rewrite decide_True by done. by rewrite Hx.
    + by rewrite decide_False by done.
Qed.

Lemma moved_dom (key : string) (r x : oid) (s : Scene) (o : oid) :
  is_Some (objects s !! o) → is_Some (objects (moved key r x s) !! o).
Proof.
  intros Ho. destruct (moved_shape key r x s) as [Hd _].
  apply elem_of_dom. rewrite Hd. by apply elem_of_dom.
Qed.

Lemma restructured_base (s : Scene) (ls : list oid) :
  let s5 := foldl link_pair
              (with_logged
                 (logged (with_objects (clear_parents ls)
                    (with_selection ls (active s)
                       (with_logged (logged s ++
                          [("Unparenting objects for restructure: " +:+ str_names ls +:+ ".",
                            DEBUG)]) s))) ++
                  [("Restructuring objects for new hierarchy.", DEBUG)])
                 (with_objects (clear_parents ls)
                    (with_selection ls (active s)
                       (with_logged (logged s ++
                          [("Unparenting objects for restructure: " +:+ str_names ls +:+ ".",
                            DEBUG)]) s))))
              (pairs ls) in
  (∀ o, props_of s5 o = props_of s o)
  ∧ (∀ o, is_Some (objects s !! o) → is_Some (objects s5 !! o)).
Proof.
  intros s5. destruct (link_pair_frame (pairs ls)
    (with_logged
       (logged (with_objects (clear_parents ls)
          (with_selection ls (active s)
             (with_logged (logged s ++
                [("Unparenting objects for restructure: " +:+ str_names ls +:+ ".",
                  DEBUG)]) s))) ++
        [("Restructuring objects for new hierarchy.", DEBUG)])
       (with_objects (clear_parents ls)
          (with_selection ls (active s)
             (with_logged (logged s ++
                [("Unparenting objects for restructure: " +:+ str_names ls +:+ ".",
                  DEBUG)]) s))))) as (Hd & _ & Hps).
  fold s5 in Hd, Hps. split.
  - intros o. rewrite Hps. unfold props_of. cbn [with_logged with_objects with_selection objects].
    rewrite clear_parents_lookup. destruct (objects s !! o) as [ob|]; [|done].
    cbn [fmap option_fmap option_map from_option]. by destruct (decide (o ∈ ls)).
  - intros o Ho. apply elem_of_dom. rewrite Hd. apply elem_of_dom.
    cbn [with_logged with_objects with_selection objects]. rewrite clear_parents_lookup.
    by apply fmap_is_Some.
Qed.

(** X13.  Restructuring a tree to the new root [x] moves the properties
    modelname and version of the old root over to [x] and deletes them on
    the old root; a property the old root lacks leaves the one of [x]
    alone; no other property of any object changes. *)
Theorem restructureKinematicTree_moves_metadata
    (s : Scene) (n m : nat) (x r : oid) :
  forest s n → up s (S m) x = Some r → parent_of s r = None →
  NoDup (props_of s r).*1 →
  ∃ s', restructureKinematicTree n x None s = (Ret tt, s')
    ∧ (∀ key v, key = "modelname" ∨ key = "version" →
         prop_get key (props_of s r) = Some v →
         prop_get key (props_of s' x) = Some v ∧ prop_get key (props_of s' r) = None)
    ∧ (∀ key, key = "modelname" ∨ key = "version" →
         prop_get key (props_of s r) = None →
         prop_get key (props_of s' x) = prop_get key (props_of s x))
    ∧ (∀ k o, k ≠ "modelname" → k ≠ "version" →
         prop_get k (props_of s' o) = prop_get k (props_of s o))
    ∧ (∀ o, o ≠ x → o ≠ r → props_of s' o = props_of s o).
Proof.
  intros Hf Hup Hr Hnd.
  destruct (up_chain s m x r Hup) as (mid & Hch & Hlen & _).
  pose proof (chain_from_NoDup s n x _ Hf Hch) as Hchn.
  pose proof (chain_from_length s n x mid r Hf Hch) as Hfuel.
  assert (x ≠ r) as Hxr.
  { apply NoDup_cons in Hchn as [Hx _]. intros ->. apply Hx, elem_of_app. right. left. }
  assert (r ∉ mid) as Hrm.
  { apply NoDup_cons in Hchn as [_ Hc]. apply NoDup_app in Hc as (_ & Hc & _).
    intros Hin. apply (Hc r Hin). left. }
  assert (is_Some (objects s !! x)) as Hx.
  { destruct mid; destruct Hch as [Hp _]; by apply parent_of_dom in Hp. }
  assert (is_Some (objects s !! r)) as Hrd.
  { apply (chain_from_dom s n x (mid ++ [r])); [done..|]. apply elem_of_app. right. left. }
  exists (restructured s x r (links_of s x mid r)).
  split; [apply restructure_run; [done..|lia]|].
  generalize (links_of s x mid r). intros ls.
  destruct (restructured_base s ls) as [Hps Hdom]. unfold restructured.
  match goal with |- context [moved "modelname" r x ?t] => set (s5 := t) end.
  assert (∀ o, props_of s5 o = props_of s o) as Hps5 by (intros o; apply Hps).
  assert (∀ o, is_Some (objects s !! o) → is_Some (objects s5 !! o)) as Hdom5
    by (intros o; apply Hdom).
  set (sm := moved "modelname" r x s5).
  assert (∀ o, props_of (with_logged
            (logged (moved "version" r x sm) ++
             [("Restructured kinematic tree to new root: " +:+ x +:+ ".", INFO)])
            (moved "version" r x sm)) o
          = match prop_get "version" (props_of sm r) with
            | Some v =>
                if decide (o = r) then prop_del "version" (props_of sm r)
                else if decide (o = x) then prop_set "version" v (props_of sm x)
                else props_of sm o
            | None => props_of sm o
            end) as Hv.
  { intros o. apply (moved_props "version" r x sm o Hxr); apply moved_dom; auto. }
  assert (∀ o, props_of sm o
          = match prop_get "modelname" (props_of s r) with
            | Some v =>
                if decide (o = r) then prop_del "modelname" (props_of s r)
                else if decide (o = x) then prop_set "modelname" v (props_of s x)
                else props_of s o
            | None => props_of s o
            end) as Hm.
  { intros o. unfold sm. rewrite (moved_props "modelname" r x s5 o Hxr) by auto.
    by rewrite !Hps5. }
  assert (prop_get "version" (props_of sm r) = prop_get "version" (props_of s r)) as Hvr.
  { rewrite Hm. destruct (prop_get "modelname" (props_of s r)); [|done].
    rewrite decide_True by done. by apply prop_get_del_ne. }
  assert (NoDup (props_of sm r).*1) as Hndm.
  { rewrite Hm. destruct (prop_get "modelname" (props_of s r)); [|done].
    rewrite decide_True by done. clear -Hnd.
    induction (props_of s r) as [|[k v] ps IH]; [done|].
    cbn [prop_del fmap list_fmap fst] in *. apply NoDup_cons in Hnd as [Hk Hnd].
    destruct (decide (k = "modelname")); [done|]. cbn [fmap list_fmap fst].
    apply NoDup_cons. split; [|by apply IH]. intros Hin. apply Hk.
    clear -Hin. induction ps as [|[k' v'] ps IH]; [done|]. cbn [prop_del fmap list_fmap fst] in *.
    destruct (decide (k' = "modelname")); [by right|].
    cbn [fmap list_fmap fst] in Hin. apply elem_of_cons in Hin as [->|Hin]; [left|right; auto]. }
  assert (∀ (A : Type) (a b : A), (if decide (r = r) then a else b) = a) as Drr
    by (intros; by rewrite decide_True).
  assert (∀ (A : Type) (a b c : A),
            (if decide (x = r) then a else if decide (x = x) then b else c) = b) as Dxx.
  { intros. rewrite decide_False by done. by rewrite decide_True. }
  assert (∀ (A : Type) (a b c : A) o, o ≠ x → o ≠ r →
            (if decide (o = r) then a else if decide (o = x) then b else c) = c) as Doo.
  { intros. by rewrite !decide_False. }
  split; [|split; [|split]].
  - intros key v [->| ->] Hkey.
    + (* modelname *)
      assert (prop_get "modelname" (props_of sm x) = Some v
              ∧ prop_get "modelname" (props_of sm r) = None) as [Hmx Hmr].
      { rewrite !Hm, Hkey, Drr, Dxx.
        split; [apply prop_get_set_eq|by apply prop_get_del_eq]. }
      rewrite !Hv, Hvr. destruct (prop_get "version" (props_of s r)); [|done].
      rewrite Drr, Dxx. by rewrite prop_get_set_ne, prop_get_del_ne.
    + (* version *)
      rewrite !Hv, Hvr, Hkey, Drr, Dxx.
      split; [apply prop_get_set_eq|by apply prop_get_del_eq].
  - intros key [->| ->] Hkey.
    + assert (prop_get "modelname" (props_of sm x) = prop_get "modelname" (props_of s x)) as Hmx
        by by rewrite Hm, Hkey.
      rewrite Hv, Hvr. destruct (prop_get "version" (props_of s r)); [|done].
      rewrite Dxx. by rewrite prop_get_set_ne.
    + rewrite Hv, Hvr, Hkey, Hm.
      destruct (prop_get "modelname" (props_of s r)); [|done].
      rewrite Dxx. by rewrite prop_get_set_ne.
  - intros k o Hk1 Hk2.
    assert (∀ o, prop_get k (props_of sm o) = prop_get k (props_of s o)) as Hmo.
    { intros o'. rewrite Hm. destruct (prop_get "modelname" (props_of s r)); [|done].
      destruct (decide (o' = r)) as [->|?]; [by apply prop_get_del_ne|].
      destruct (decide (o' = x)) as [->|?]; [by apply prop_get_set_ne|done]. }
    rewrite Hv. destruct (prop_get "version" (props_of sm r)); [|done].
    destruct (decide (o = r)) as [->|?]; [by rewrite prop_get_del_ne|].
    destruct (decide (o = x)) as [->|?]; [by rewrite prop_get_set_ne|done].
  - intros o Hox Hor. rewrite Hv.
    assert (props_of sm o = props_of s o) as ->.
    { rewrite Hm. destruct (prop_get "modelname" (props_of s r)); [|done].
      by rewrite Doo by done. }
    destruct (prop_get "version" (props_of sm r)); [|done]. by rewrite Doo by done.
Qed.

Lemma restructureKinematicTree_moves_metadata_witness :
  ∃ s', restructureKinematicTree 3 "C" None tree_doc = (Ret tt, s')
    ∧ (∀ key v, key = "modelname" ∨ key = "version" →
         prop_get key (props_of tree_doc "A") = Some v →
         prop_get key (props_of s' "C") = Some v ∧ prop_get key (props_of s' "A") = None)
    ∧ (∀ key, key = "modelname" ∨ key = "version" →
         prop_get key (props_of tree_doc "A") = None →
         prop_get key (props_of s' "C") = prop_get key (props_of tree_doc "C"))
    ∧ (∀ k o, k ≠ "modelname" → k ≠ "version" →
         prop_get k (props_of s' o) = prop_get k (props_of tree_doc o))
    ∧ (∀ o, o ≠ "C" → o ≠ "A" → props_of s' o = props_of tree_doc o).
Proof.
  apply (restructureKinematicTree_moves_metadata tree_doc 3 0 "C" "A").
  - apply (bool_decide_unpack (forest tree_doc 3)). vm_compute. exact I.
  - vm_compute. reflexivity.
  - vm_compute. reflexivity.
  - apply (bool_decide_unpack (NoDup (props_of tree_doc "A").*1)). vm_compute. exact I.
Defined.

Lemma nearest_common_spec (s : Scene) (n : nat) (anchor : oid) (rest : list oid) :
  forest s n →
  ∃ r, getNearestCommonParent n s (anchor :: rest) = Ret r
    ∧ match r with
      | Some (p, _) =>
          common s (anchor :: rest) p
          ∧ (∀ q, common s (anchor :: rest) q → q = p ∨ ancestor s q p)
      | None => ∀ q, ¬ common s (anchor :: rest) q
      end.
Proof.
  intros Hf. unfold getNearestCommonParent.
  destruct (ascend_spec s n rest n anchor ∅) as (b & p & inter & -> & Ht & Hfalse & _).
  { intros o _. apply (forest_up s n); [done|lia|lia]. }
  { apply (forest_up s n); [done|lia|lia]. }
  destruct b; cbn [negb].
  - destruct (Ht eq_refl) as (Hp & Hc & Hlow). rewrite decide_True by done.
    exists (Some (p, inter ∖ {[p]})). by split.
  - exists None. split; [done|]. by apply Hfalse.
Qed.

(** X14.  On a forest the common parent returned by getNearestCommonParent
    depends only on which objects are given, not on their order or on
    repetitions. *)
Theorem getNearestCommonParent_any_order (s : Scene) (n : nat) (objs objs' : list oid) :
  forest s n → objs ≠ [] → (∀ o, o ∈ objs ↔ o ∈ objs') →
  ∃ r r', getNearestCommonParent n s objs = Ret r
    ∧ getNearestCommonParent n s objs' = Ret r'
    ∧ fst <$> r = fst <$> r'.
Proof.
  intros Hf Hne Hsame.
  destruct objs as [|a rest]; [done|].
  destruct objs' as [|a' rest'].
  { exfalso. apply (not_elem_of_nil a), Hsame. left. }
  destruct (nearest_common_spec s n a rest Hf) as (r & Hr & Hspec).
  destruct (nearest_common_spec s n a' rest' Hf) as (r' & Hr' & Hspec').
  exists r, r'. split; [done|]. split; [done|].
  assert (∀ q, common s (a :: rest) q ↔ common s (a' :: rest') q) as Hc.
  { intros q. unfold common. split; intros H o Ho; apply H; by apply Hsame. }
  destruct r as [[p i]|], r' as [[p' i']|]; cbn [fmap option_fmap option_map fst].
  - destruct Hspec as [Hp Hlow], Hspec' as [Hp' Hlow'].
    destruct (Hlow p') as [->|Ha]; [by apply Hc|done|].
    destruct (Hlow' p) as [->|Ha']; [by apply Hc|done|].
    exfalso. apply (ancestor_irrefl s n p Hf). by apply (ancestor_trans s p p' p).
  - destruct Hspec as [Hp _]. exfalso. apply (Hspec' p). by apply Hc.
  - destruct Hspec' as [Hp' _]. exfalso. apply (Hspec p'). by apply Hc.
  - done.
Qed.

Lemma getNearestCommonParent_any_order_witness :
  ∃ r r', getNearestCommonParent 3 tree_doc ["D"; "F"; "E"] = Ret r
    ∧ getNearestCommonParent 3 tree_doc ["F"; "E"; "D"; "F"] = Ret r'
    ∧ fst <$> r = fst <$> r'.
Proof.
  apply (getNearestCommonParent_any_order tree_doc 3 ["D"; "F"; "E"] ["F"; "E"; "D"; "F"]).
  - apply (bool_decide_unpack (forest tree_doc 3)). vm_compute. exact I.
  - done.
  - intros o. rewrite !elem_of_cons, !elem_of_nil. tauto.
Defined.

(** X15.  For a single object getNearestCommonParent returns its direct
    parent with no objects in between, and None for an object without a
    parent. *)
Theorem getNearestCommonParent_single (s : Scene) (fuel : nat) (o : oid) :
  getNearestCommonParent (S fuel) s [o]
    = Ret (match parent_of s o with
           | Some p => Some (p, ∅)
           | None => None
           end).
Proof.
  unfold getNearestCommonParent. rewrite ascend_eq.
  destruct (parent_of s o) as [p|] eqn:Hp; [|done].
  cbn [check_rest]. rewrite ascend_eq. cbn [negb].
  rewrite decide_True by (apply elem_of_union; left; by apply elem_of_singleton).
  do 3 f_equal. apply set_eq. intros x.
  rewrite elem_of_difference, elem_of_union, elem_of_singleton, elem_of_empty. tauto.
Qed.

(** *** toggleInterfaces *)

Lemma toggle_one_set (mode : nat) (b : bool) (i : oid) (s : Scene) :
  (mode = 1 ∧ b = true) ∨ (mode = 2 ∧ b = false) →
  toggle_one mode i s = (Ret tt, with_objects (alter (set_show_name b) i) s).
Proof. by intros [[-> ->]|[-> ->]]. Qed.

Lemma toggle_one_flip (i : oid) (s : Scene) :
  toggle_one 0 i s = (Ret tt, with_objects (alter flip_name i) s).
Proof.
  unfold toggle_one. erewrite bind_run by reflexivity. cbn [decide]. 
  rewrite decide_True by done. unfold assign_show_name, modify. f_equal.
  apply scene_eq; try done. cbn [with_objects objects]. apply map_eq. intros o.
  rewrite !lookup_alter. destruct (decide (i = o)) as [<-|]; [|done].
  unfold show_name_of. by destruct (objects s !! i).
Qed.

Lemma for_each_alter (f : Object → Object) (body : oid → M unit) (l : list oid) (s : Scene) :
  (∀ i t, body i t = (Ret tt, with_objects (alter f i) t)) →
  ∃ s', for_each l body s = (Ret tt, s')
    ∧ (∀ o, objects s' !! o
            = Nat.iter (length (filter (λ i, i = o) l)) f <$> objects s !! o)
    ∧ groups s' = groups s ∧ selected s' = selected s
    ∧ active s' = active s ∧ logged s' = logged s.
Proof.
  intros Hbody. revert s. induction l as [|a l IH]; intros s; cbn [for_each].
  - exists s. split; [done|]. split; [|done]. intros o. by destruct (objects s !! o).
  - erewrite bind_run by apply Hbody.
    destruct (IH (with_objects (alter f a) s)) as (s' & -> & Hobj & Hg & Hsel & Ha & Hl).
    exists s'. split; [done|]. split; [|done].
    intros o. rewrite Hobj. cbn [with_objects objects]. rewrite lookup_alter, filter_cons.
    destruct (decide (a = o)) as [->|Hne].
    + cbn [length]. destruct (objects s !! o) as [ob|]; [|done].
      cbn [fmap option_fmap option_map]. by rewrite Nat.iter_succ_r.
    + done.
Qed.

Lemma iter_flip_twice (k : nat) (ob : Object) :
  Nat.iter k flip_name (Nat.iter k flip_name ob) = ob.
Proof.
  rewrite <- Nat.iter_add.
  assert (∀ j, Nat.iter (j + j) flip_name ob = ob) as H; [|apply H].
  induction j as [|j IH]; [done|].
  replace (S j + S j) with (S (S (j + j))) by lia. rewrite !Nat.iter_succ, IH.
  destruct ob as [? ? ? b ?]. unfold flip_name, set_show_name. cbn. by rewrite negb_involutive.
Qed.

Lemma iter_keeps_tag (f : Object → Object) (k : nat) (ob : Object) :
  (∀ ob, phobostype (f ob) = phobostype ob) →
  phobostype (Nat.iter k f ob) = phobostype ob.
Proof. intros Hf. induction k as [|k IH]; [done|]. by rewrite Nat.iter_succ, Hf. Qed.

Lemma effective_interfaces_ext (s s' : Scene) (interfaces : option (list oid)) :
  selected s' = selected s → (∀ o, phobostype_of s' o = phobostype_of s o) →
  effective_interfaces s' interfaces = effective_interfaces s interfaces.
Proof.
  intros Hsel Htag. unfold effective_interfaces. rewrite Hsel.
  destruct interfaces as [[|i l]|]; try done; apply list_filter_iff; intros o; by rewrite Htag.
Qed.

Lemma toggleInterfaces_eq (interfaces : option (list oid)) (modename : string) (mode : nat)
    (s : Scene) :
  modedict modename = Some mode →
  toggleInterfaces interfaces modename s
    = for_each (effective_interfaces s interfaces) (toggle_one mode) s.
Proof.
  intros Hm. unfold toggleInterfaces. rewrite Hm. by erewrite bind_run by reflexivity.
Qed.

(** X16.  toggleInterfaces in mode toggle always returns, and calling it
    twice with the same arguments gives back the scene it started from,
    also when an interface is listed several times. *)
Theorem toggleInterfaces_toggle_twice (s : Scene) (interfaces : option (list oid)) :
  ∃ s1, toggleInterfaces interfaces "toggle" s = (Ret tt, s1)
    ∧ toggleInterfaces interfaces "toggle" s1 = (Ret tt, s).
Proof.
  rewrite (toggleInterfaces_eq interfaces "toggle" 0 s) by done.
  destruct (for_each_alter flip_name (toggle_one 0) (effective_interfaces s interfaces) s)
    as (s1 & Hrun & Hobj & Hg & Hsel & Ha & Hl); [apply toggle_one_flip|].
  exists s1. split; [done|].
  rewrite (toggleInterfaces_eq interfaces "toggle" 0 s1) by done.
  rewrite (effective_interfaces_ext s s1); [|done|]; cycle 1.
  { intros o. unfold phobostype_of. rewrite Hobj. destruct (objects s !! o) as [ob|]; [|done].
    cbn [fmap option_fmap option_map from_option]. apply iter_keeps_tag. by intros []. }
  destruct (for_each_alter flip_name (toggle_one 0) (effective_interfaces s interfaces) s1)
    as (s2 & -> & Hobj2 & Hg2 & Hsel2 & Ha2 & Hl2); [apply toggle_one_flip|].
  f_equal. apply scene_eq; try congruence.
  apply map_eq. intros o. rewrite Hobj2, Hobj. destruct (objects s !! o) as [ob|]; [|done].
  cbn [fmap option_fmap option_map]. by rewrite iter_flip_twice.
Qed.

(** X17.  In mode activate (deactivate) toggleInterfaces returns and the
    name label is shown (hidden) on every listed object, whatever its
    phobostype; with no list or an empty one the selected objects tagged
    interface are taken.  Nothing else of the scene changes. *)
Theorem toggleInterfaces_set (s : Scene) (interfaces : option (list oid))
    (modename : string) (b : bool) :
  (modename = "activate" ∧ b = true) ∨ (modename = "deactivate" ∧ b = false) →
  ∃ s', toggleInterfaces interfaces modename s = (Ret tt, s')
    ∧ (∀ o, objects s' !! o
            = (if decide (o ∈ effective_interfaces s interfaces)
               then set_show_name b else id) <$> objects s !! o)
    ∧ groups s' = groups s ∧ selected s' = selected s
    ∧ active s' = active s ∧ logged s' = logged s.
Proof.
  intros Hmode.
  assert (∃ mode, modedict modename = Some mode
                  ∧ ((mode = 1 ∧ b = true) ∨ (mode = 2 ∧ b = false))) as (mode & Hm & Hmb).
  { destruct Hmode as [[-> ->]|[-> ->]]; eexists; (split; [reflexivity|]); auto. }
  rewrite (toggleInterfaces_eq interfaces modename mode s Hm).
  destruct (for_each_alter (set_show_name b) (toggle_one mode)
              (effective_interfaces s interfaces) s)
    as (s' & -> & Hobj & Hrest); [intros; by apply toggle_one_set|].
  exists s'. split; [done|]. split; [|done].
  intros o. rewrite Hobj. destruct (objects s !! o) as [ob|]; [|done].
  cbn [fmap option_fmap option_map]. f_equal.
  generalize (effective_interfaces s interfaces). intros l.
  induction l as [|a l IH].
  - by rewrite decide_False by apply not_elem_of_nil.
  - rewrite filter_cons. destruct (decide (a = o)) as [->|Hne].
    + rewrite decide_True by left. cbn [length]. rewrite Nat.iter_succ, IH.
      destruct ob. by destruct (decide _).
    + rewrite IH. destruct (decide (o ∈ l)).
      * by rewrite decide_True by by right.
      * rewrite decide_False; [done|]. intros [?|?]%elem_of_cons; congruence.
Qed.

(** X18.  A mode name other than toggle, activate and deactivate raises
    KeyError before any object is touched. *)
Theorem toggleInterfaces_unknown_mode (s : Scene) (interfaces : option (list oid))
    (modename : string) :
  modename ≠ "toggle" → modename ≠ "activate" → modename ≠ "deactivate" →
  toggleInterfaces interfaces modename s = (Raise KeyError, s).
Proof.
  intros H1 H2 H3. unfold toggleInterfaces, modedict. by rewrite !decide_False by done.
Qed.

Lemma toggleInterfaces_set_witness :
  ∃ s', toggleInterfaces (Some ["socket"; "plug"]) "deactivate" docked = (Ret tt, s')
    ∧ (∀ o, objects s' !! o
            = (if decide (o ∈ effective_interfaces docked (Some ["socket"; "plug"]))
               then set_show_name false else id) <$> objects docked !! o)
    ∧ groups s' = groups docked ∧ selected s' = selected docked
    ∧ active s' = active docked ∧ logged s' = logged docked.
Proof.
  apply (toggleInterfaces_set docked (Some ["socket"; "plug"]) "deactivate" false).
  right. split; reflexivity.
Defined.

Lemma toggleInterfaces_unknown_mode_witness :
  toggleInterfaces None "on" docked = (Raise KeyError, docked).
Proof. apply (toggleInterfaces_unknown_mode docked None "on"); discriminate. Defined.

(** *** disconnectInterfaces *)

Lemma pick_root_spec (s : Scene) (cs : list oid) (root : oid) :
  pick_root s cs = Some root →
  root ∈ cs
  ∧ ((∃ c, c ∈ cs ∧ phobostype_of s c = "submodel") → phobostype_of s root = "submodel")
  ∧ ((∀ c, c ∈ cs → phobostype_of s c ≠ "submodel") → head cs = Some root).
Proof.
  unfold pick_root. destruct cs as [|first cs]; [done|].
  destruct (find _ _) as [child|] eqn:Hfind; intros [= <-].
  - apply find_some in Hfind as [Hin Htag]. apply bool_decide_eq_true in Htag.
    split; [by apply list_elem_of_In|]. split; [done|].
    intros Hnone. destruct (Hnone child); [by apply list_elem_of_In|done].
  - split; [left|]. split; [|done].
    intros (c & Hc & Htag). apply list_elem_of_In in Hc.
    pose proof (find_none _ _ Hfind c Hc) as Hn. cbn beta in Hn.
    by rewrite bool_decide_eq_false in Hn.
Qed.

Lemma phobostype_of_unparented (s : Scene) (o c : oid) :
  phobostype_of (unparented s o) c = phobostype_of s c.
Proof.
  unfold phobostype_of, unparented. cbn [objects with_objects]. rewrite lookup_alter.
  case_decide; [subst|done]. by destruct (objects s !! c).
Qed.

Lemma parent_of_unparented (s : Scene) (o c : oid) :
  c ≠ o → parent_of (unparented s o) c = parent_of s c.
Proof.
  intros Hne. unfold parent_of, unparented. cbn [objects with_objects].
  by rewrite lookup_alter_ne.
Qed.

Lemma children_unparented (s : Scene) (o c : oid) :
  is_Some (objects s !! o) →
  c ∈ children (unparented s o) o ↔ c ≠ o ∧ parent_of s c = Some o.
Proof.
  intros [ob Ho]. rewrite children_parent. split.
  - intros Hc. assert (c ≠ o) as Hne.
    { intros ->. unfold parent_of, unparented in Hc. cbn [objects with_objects] in Hc.
      by rewrite lookup_alter_eq, Ho in Hc. }
    split; [done|]. by rewrite parent_of_unparented in Hc.
  - intros [Hne Hc]. by rewrite parent_of_unparented.
Qed.

(** X19.  When the child interface has a child, disconnectInterfaces
    returns: one of its children becomes the root, a submodel instance
    whenever there is one among them (which of several candidates is taken
    follows the host's order of [obj.children] and is left open).  The root
    ends without a parent, the child interface becomes a child of that
    root, all other parents are kept, a given transform places the child
    interface relative to the root, and both interfaces show their name
    again. *)
Theorem disconnectInterfaces_reroots
    (s : Scene) (parentinterface childinterface : oid) (transform : option Matrix) :
  is_Some (objects s !! parentinterface) →
  is_Some (objects s !! childinterface) →
  (∃ c, c ≠ childinterface ∧ parent_of s c = Some childinterface) →
  ∃ root s', disconnectInterfaces parentinterface childinterface transform s = (Ret tt, s')
    ∧ root ≠ childinterface
    ∧ parent_of s root = Some childinterface
    ∧ ((∃ c, c ≠ childinterface ∧ parent_of s c = Some childinterface
             ∧ phobostype_of s c = "submodel") → phobostype_of s root = "submodel")
    ∧ parent_of s' childinterface = Some root
    ∧ parent_of s' root = None
    ∧ (∀ o, o ≠ childinterface → o ≠ root → parent_of s' o = parent_of s o)
    ∧ matrix_world_of s' childinterface
        = match transform with
          | Some t => MMul (matrix_world_of s root) t
          | None => matrix_world_of s childinterface
          end
    ∧ show_name_of s' parentinterface = true
    ∧ show_name_of s' childinterface = true.
Proof.
  intros [pob Hpi] [cob Hci] (c0 & Hc0 & Hc0p).
  assert (is_Some (objects s !! childinterface)) as Hci' by eauto.
  destruct (pick_root (unparented s childinterface)
              (children (unparented s childinterface) childinterface)) as [root|] eqn:Hpick;
    cycle 1.
  { exfalso. assert (c0 ∈ children (unparented s childinterface) childinterface) as Hin
      by by apply children_unparented.
    unfold pick_root in Hpick. destruct (children _ _); [by apply elem_of_nil in Hin|].
    by destruct (find _ _). }
  exists root.
  destruct (pick_root_spec _ _ _ Hpick) as (Hroot & Hsub & _).
  apply children_unparented in Hroot as [Hne Hpar]; [|done].
  destruct (objects s !! root) as [rob|] eqn:Hrob;
    [|by unfold parent_of in Hpar; rewrite Hrob in Hpar].
  unfold disconnectInterfaces.
  do 3 (erewrite bind_run by reflexivity).
  match goal with |- context [pick_root ?s1 (children ?s1 childinterface)] =>
    change (pick_root s1 (children s1 childinterface))
      with (pick_root (unparented s childinterface)
              (children (unparented s childinterface) childinterface))
  end.
  rewrite Hpick.
  do 4 (erewrite bind_run by reflexivity).
  destruct transform as [t|]; do 2 (erewrite bind_run by reflexivity);
    (eexists; split; [reflexivity|]).
  all: split; [exact Hne|].
  all: split; [exact Hpar|].
  all: split; [intros (c & Hc & Hcp & Htag);
               rewrite <- (phobostype_of_unparented s childinterface);
               apply Hsub; exists c;
               split; [by apply children_unparented|by rewrite phobostype_of_unparented]|].
  all: unfold parent_of, matrix_world_of, show_name_of;
    cbn [active with_selection with_objects selected objects set_parents clear_parents foldr app].
  all: rewrite (decide_True (P := root = root)) by done.
  all: rewrite (decide_False (P := childinterface = root)) by done.
  all: repeat split; try intros o Ho1 Ho2; rewrite !lookup_alter;
    repeat (case_decide; try congruence); subst;
    rewrite ?Hci, ?Hrob, ?Hpi; try done.
Qed.

Lemma disconnectInterfaces_reroots_witness :
  ∃ root s', disconnectInterfaces "socket" "plug" None docked = (Ret tt, s')
    ∧ root ≠ "plug"
    ∧ parent_of docked root = Some "plug"
    ∧ ((∃ c, c ≠ "plug" ∧ parent_of docked c = Some "plug"
             ∧ phobostype_of docked c = "submodel") → phobostype_of docked root = "submodel")
    ∧ parent_of s' "plug" = Some root
    ∧ parent_of s' root = None
    ∧ (∀ o, o ≠ "plug" → o ≠ root → parent_of s' o = parent_of docked o)
    ∧ matrix_world_of s' "plug" = matrix_world_of docked "plug"
    ∧ show_name_of s' "socket" = true
    ∧ show_name_of s' "plug" = true.
Proof.
  apply (disconnectInterfaces_reroots docked "socket" "plug" None).
  - vm_compute. eauto.
  - vm_compute. eauto.
  - exists "cable". split; [discriminate|]. vm_compute. reflexivity.
Defined.

(** *** getCombinedTransform *)

Lemma combine_eq (ml : oid → Matrix) (fuel : nat) (s : Scene) (e parent : option oid)
    (matrix : Matrix) :
  combine ml fuel s e parent matrix =
    match parent with
    | None => Ret matrix
    | Some p =>
        if decide (parent ≠ e) then
          match fuel with
          | O => Timeout
          | S f => combine ml f s e (parent_of s p) (MMul (ml p) matrix)
          end
        else Ret matrix
    end.
Proof. by destruct fuel. Qed.

Lemma combine_returns (ml : oid → Matrix) (s : Scene) (e : option oid) (fuel : nat)
    (parent : option oid) (matrix : Matrix) :
  parent ≫= up s fuel = None → ∃ m, combine ml fuel s e parent matrix = Ret m.
Proof.
  revert parent matrix. induction fuel as [|fuel IH]; intros parent matrix Hup;
    rewrite combine_eq; destruct parent as [p|]; try done; try by eexists.
  case_decide; [|by eexists]. apply IH. exact Hup.
Qed.

Lemma combine_foreign (ml : oid → Matrix) (s : Scene) (e : oid) (fuel : nat)
    (parent : option oid) (matrix : Matrix) :
  (∀ k, parent ≫= up s k ≠ Some e) →
  combine ml fuel s (Some e) parent matrix = combine ml fuel s None parent matrix.
Proof.
  revert parent matrix. induction fuel as [|fuel IH]; intros parent matrix Hup;
    rewrite (combine_eq _ _ _ (Some e)), (combine_eq _ _ _ None);
    destruct parent as [p|]; try done.
  - rewrite !decide_True; [done..|]. intros [= ->]. by apply (Hup 0).
  - rewrite !decide_True; [|done|intros [= ->]; by apply (Hup 0)].
    apply IH. intros k. apply (Hup (S k)).
Qed.

(** X20.  On a forest getCombinedTransform returns, and for an effective
    parent that is not an ancestor of the object the result is the same as
    for no effective parent: the transform up to the top of the tree. *)
Theorem getCombinedTransform_foreign_parent
    (matrix_local : oid → Matrix) (s : Scene) (n : nat) (obj e : oid) :
  forest s n →
  (∀ k, 0 < k → up s k obj ≠ Some e) →
  ∃ m, getCombinedTransform matrix_local n s obj (Some e) = Ret m
     ∧ getCombinedTransform matrix_local n s obj None = Ret m.
Proof.
  intros Hf Hup. unfold getCombinedTransform.
  rewrite (combine_foreign matrix_local s e).
  - destruct (combine_returns matrix_local s None n (parent_of s obj) (matrix_local obj))
      as [m Hm]; [|by exists m].
    change (up s (S n) obj = None). apply (forest_up s n); [done|lia|lia].
  - intros k. apply (Hup (S k)). lia.
Qed.

Lemma getCombinedTransform_foreign_parent_witness :
  ∃ m, getCombinedTransform (λ o, MHost (String.length o)) 3 tree_doc "D" (Some "C") = Ret m
     ∧ getCombinedTransform (λ o, MHost (String.length o)) 3 tree_doc "D" None = Ret m.
Proof.
  apply (getCombinedTransform_foreign_parent (λ o, MHost (String.length o)) tree_doc 3 "D" "C").
  - apply (bool_decide_unpack (forest tree_doc 3)). vm_compute. exact I.
  - intros [|[|[|k]]] Hk; [lia| | |]; vm_compute; congruence.
Defined.
